(** * vistransits: detectability scores for transiting exoplanets

    A shallow embedding of [vistransits/tsignals.py] and the properties of
    its scoring pipelines.

    Conventions of the embedding.

    - A NumPy float is a [val]: [Some x] is the finite real [x] and [None]
      is a non-finite value.  Catalogue entries that are undefined are
      [nan], and [nan] propagates through every arithmetic operation; the
      results NumPy gives for a division by zero, the logarithm of a
      non-positive number and the square root of a negative number are
      non-finite as well and are also [None].  Infinities are not told
      apart from [nan], so a non-finite value never becomes finite again.
      Floating-point rounding, overflow and underflow are not modelled:
      finite values are exact reals.  The one exception is [Teq64], the equilibrium
      temperature in binary64, which shows what rounding does to the exact
      scaling law of [Teq].
    - A NumPy array is a list; a table is the list of its rows, and the
      column [t.X] is [col t_X t].
    - Python exceptions are values of [exn], threaded through the
      computation by the error monad [M].
    - The report formatters call the PyEphem library on the coordinate
      strings of the catalogue.  The library is not part of the repository:
      the formatters and the two runs take its two functions as the
      parameter [Ephem].  The built-in [float] on a string is embedded as
      [float_str].
    - Reading the catalogue ([tutilities.download_data], [atpy.Table]) and
      the messages printed on the way are outside the embedding: the
      catalogue is an argument of the functions, and the report file is part
      of their result. *)

From Stdlib Require Import Floats.PrimFloat.
From Stdlib Require Import Reals Lra Lia List Ascii String Bool Arith ZArith
  Permutation Sorted.
Import ListNotations.
Open Scope R_scope.

(** ** Floating-point values and arrays *)

Definition val := option R.

Definition fin (x : R) : val := Some x.
Definition nan : val := None.

Definition isfinite (a : val) : bool :=
  match a with Some _ => true | None => false end.

Definition vneg (a : val) : val := option_map Ropp a.

Definition vadd (a b : val) : val :=
  match a, b with Some x, Some y => Some (x + y) | _, _ => None end.

Definition vsub (a b : val) : val :=
  match a, b with Some x, Some y => Some (x - y) | _, _ => None end.

Definition vmul (a b : val) : val :=
  match a, b with Some x, Some y => Some (x * y) | _, _ => None end.

Definition vdiv (a b : val) : val :=
  match a, b with
  | Some x, Some y => if Req_dec_T y 0 then None else Some (x / y)
  | _, _ => None
  end.

Definition vsqrt (a : val) : val :=
  match a with
  | Some x => if Rle_dec 0 x then Some (sqrt x) else None
  | None => None
  end.

Definition vexp (a : val) : val := option_map exp a.

(** [np.log10] *)
Definition vlog10 (a : val) : val :=
  match a with
  | Some x => if Rlt_dec 0 x then Some (ln x / ln 10) else None
  | None => None
  end.

(** [10**a] *)
Definition vpow10 (a : val) : val := option_map (Rpower 10) a.

(** [a > 0] on a float: false on [nan]. *)
Definition vgt0 (a : val) : bool :=
  match a with
  | Some x => if Rlt_dec 0 x then true else false
  | None => false
  end.

(** The order NumPy sorts floats by: [nan] is larger than every number. *)
Definition val_ltb (a b : val) : bool :=
  match a, b with
  | Some x, Some y => if Rlt_dec x y then true else false
  | Some _, None => true
  | None, _ => false
  end.

Declare Scope val_scope.
Delimit Scope val_scope with val.
Infix "+" := vadd : val_scope.
Infix "-" := vsub : val_scope.
Infix "*" := vmul : val_scope.
Infix "/" := vdiv : val_scope.
Notation "- a" := (vneg a) : val_scope.

Definition arr := list val.

(** Element-wise operation on two arrays of the same shape. *)
Fixpoint map2 {A B D : Type} (f : A -> B -> D) (xs : list A) (ys : list B)
  : list D :=
  match xs, ys with
  | x :: xs', y :: ys' => f x y :: map2 f xs' ys'
  | _, _ => []
  end.

(** [xs[mask]]: the entries selected by a boolean mask. *)
Fixpoint select {A : Type} (mask : list bool) (xs : list A) : list A :=
  match mask, xs with
  | b :: mask', x :: xs' =>
      if b then x :: select mask' xs' else select mask' xs'
  | _, _ => []
  end.

(** [xs[mask] = new]: assignment through a boolean mask; [new] holds one
    value per selected entry. *)
Fixpoint mask_assign {A : Type} (mask : list bool) (xs new : list A)
  : list A :=
  match mask, xs with
  | true :: mask', x :: xs' =>
      match new with
      | v :: new' => v :: mask_assign mask' xs' new'
      | [] => x :: xs'
      end
  | false :: mask', x :: xs' => x :: mask_assign mask' xs' new
  | _, _ => xs
  end.

(** ** Exceptions *)

Inductive exn : Type :=
| ZeroDivisionError
| ValueError
| IndexError.

Definition M (A : Type) : Type := (exn + A)%type.

Definition ret {A : Type} (a : A) : M A := inr a.
Definition raise {A : Type} (e : exn) : M A := inl e.
Definition bind {A B : Type} (m : M A) (k : A -> M B) : M B :=
  match m with
  | inl e => inl e
  | inr a => k a
  end.

Notation "x <- m ;; k" := (bind m (fun x => k))
  (at level 61, m at next level, right associativity).

(** Division of two one-dimensional arrays with NumPy's broadcasting: equal
    lengths divide element-wise, a length-one array is stretched to the other
    length, and any other pair of shapes raises [ValueError]. *)
Definition bdiv (xs ys : arr) : M arr :=
  if Nat.eqb (List.length xs) (List.length ys) then ret (map2 vdiv xs ys)
  else match xs, ys with
       | _, [y] => ret (map (fun x => vdiv x y) xs)
       | [x], _ => ret (map (fun y => vdiv x y) ys)
       | _, _ => raise ValueError
       end.

(** Truth value of a boolean array in an [if]: an empty array is false, a
    one-element array is its element, a longer one raises [ValueError]. *)
Definition truth (bs : list bool) : M bool :=
  match bs with
  | [] => ret false
  | [b] => ret b
  | _ => raise ValueError
  end.

(** ** Constants *)

Definition G : R := 6.67428e-11.
Definition HPLANCK : R := 6.62607e-34.
Definition C : R := 2.99792e8.
Definition KB : R := 1.3806488e-23.
Definition RGAS : R := 8.314.
Definition RSUN : R := 6.9551e8.
Definition RJUP : R := 7.1492e7.
Definition MJUP : R := 1.89852e27.
Definition AU2M : R := 1.49598e11.
Definition MUJUP : R := 2.22e-3.

(** ** The catalogue *)

(** One row of the table of transiting planets.  [t_R] is the column [R]
    (planetary radius).  The sky position columns [RA] and [DEC] are strings
    that are only handed to the report formatter, which reads the
    declination with [float]. *)
Record Row : Type := mkRow {
  t_NAME : string;
  t_RA : string;
  t_DEC : string;
  t_TEFF : val;
  t_RSTAR : val;
  t_R : val;
  t_A : val;
  t_KS : val;
  t_V : val;
  t_MASS : val;
  t_MSINI : val
}.

(** A table is its rows, together with whether it has a usable [MASS]
    column: reading [t.MASS] from a table without one raises, which is what
    the [try ... except] blocks of the source react to. *)
Record Table : Type := mkTable {
  has_MASS : bool;
  rows : list Row
}.

Definition col {A : Type} (f : Row -> A) (t : Table) : list A :=
  map f (rows t).

(** [t.where( mask )], for a mask computed row by row. *)
Definition t_where (p : Row -> bool) (t : Table) : Table :=
  mkTable (has_MASS t) (filter p (rows t)).

(** ** filter_table

    The table read from [TR_TABLE] is the argument [catalog]. *)

Definition filter_table (sigtype : string) (catalog : Table) : Table :=
  let t := catalog in
  let t := t_where (fun r => isfinite (t_RSTAR r)) t in
  let t := t_where (fun r => isfinite (t_R r)) t in
  let t := t_where (fun r => isfinite (t_A r)) t in
  let t := t_where (fun r => isfinite (t_TEFF r)) t in
  let t := if String.eqb sigtype "emission"%string
           then t_where (fun r => isfinite (t_KS r)) t
           else t in
  let t := if String.eqb sigtype "transmission"%string
           then
             let t := t_where (fun r => isfinite (t_KS r) || isfinite (t_V r)) t in
             if has_MASS t
             then t_where (fun r => (isfinite (t_MSINI r) && vgt0 (t_MSINI r))
                                  || (isfinite (t_MASS r) && vgt0 (t_MASS r))) t
             else t_where (fun r => isfinite (t_MSINI r) && vgt0 (t_MSINI r)) t
           else t in
  t.

(** ** Array arithmetic

    Element-wise arithmetic on arrays, and between an array and a scalar. *)

Definition amul : arr -> arr -> arr := map2 vmul.
Definition adiv : arr -> arr -> arr := map2 vdiv.
Definition asub : arr -> arr -> arr := map2 vsub.
(** [c * xs], [xs * c], [xs / c] for a scalar [c] *)
Definition scal (c : R) (xs : arr) : arr := map (fun x => fin c * x)%val xs.
Definition atimes (xs : arr) (c : R) : arr := map (fun x => x * fin c)%val xs.
Definition aover (xs : arr) (c : R) : arr := map (fun x => x / fin c)%val xs.
(** [xs**2], [-xs], [np.sqrt], [np.log10], [10**xs] *)
Definition asqr (xs : arr) : arr := map (fun x => x * x)%val xs.
Definition aneg (xs : arr) : arr := map vneg xs.
Definition asqrt (xs : arr) : arr := map vsqrt xs.
Definition alog10 (xs : arr) : arr := map vlog10 xs.
Definition apow10 (xs : arr) : arr := map vpow10 xs.

(** [xs[i]] *)
Definition getitem {A : Type} (xs : list A) (i : nat) : M A :=
  match nth_error xs i with
  | Some x => ret x
  | None => raise IndexError
  end.

(** ** Teq *)

Definition Teq (table : Table) : arr :=
  let Rstar := atimes (col t_RSTAR table) RSUN in
  let a := atimes (col t_A table) AU2M in
  let Tstar := col t_TEFF table in
  amul (asqrt (adiv (aover Rstar 2) a)) Tstar.

(** *** Teq in binary64

    The same computation in the arithmetic that the code runs in: the
    columns of the table are arrays of IEEE 754 binary64 numbers, and every
    operation is rounded to the nearest such number. *)

Record Row64 : Type := mkRow64 {
  f_RSTAR : float;
  f_A : float;
  f_TEFF : float
}.

Definition RSUN64 : float := 6.9551e8%float.
Definition AU2M64 : float := 1.49598e11%float.

Definition Teq64 (table : list Row64) : list float :=
  let Rstar := map (fun r => PrimFloat.mul (f_RSTAR r) RSUN64) table in
  let a := map (fun r => PrimFloat.mul (f_A r) AU2M64) table in
  let Tstar := map f_TEFF table in
  map2 PrimFloat.mul
       (map PrimFloat.sqrt
            (map2 PrimFloat.div
                  (map (fun x => PrimFloat.div x 2%float) Rstar) a))
       Tstar.

(** The table with every semimajor axis multiplied by [k]. *)
Definition scale_A64 (k : float) (table : list Row64) : list Row64 :=
  map (fun r => mkRow64 (f_RSTAR r) (PrimFloat.mul (f_A r) k) (f_TEFF r))
      table.

(** ** planck *)

(** [wav] is a Python float, so a zero wavelength raises
    [ZeroDivisionError]; [temp] is an array. *)
Definition planck (wav : R) (temp : arr) : M arr :=
  if Req_dec_T wav 0 then raise ZeroDivisionError
  else
    let term1 := 2 * HPLANCK * (C ^ 2) / (wav ^ 5) in
    let term2 :=
      map (fun T => vexp (fin (HPLANCK * C / KB / wav) / T) - fin 1)%val temp in
    let bbflux := map (fun t2 => fin term1 / t2)%val term2 in
    ret bbflux.

(** ** Ranking

    [np.argsort] with NumPy's default sort.  On arrays of up to sixteen
    entries that is its insertion sort, transcribed here: each index in turn
    is moved left past the indices whose value is larger.  [sorted_rev] holds
    the sorted prefix last-to-first.  On longer arrays NumPy partitions
    first; the result is the same ascending order, except that entries with
    equal values may then come out in another order. *)

Fixpoint shift_in (v : arr) (i : nat) (sorted_rev : list nat) : list nat :=
  match sorted_rev with
  | [] => [i]
  | h :: rest =>
      if val_ltb (nth i v nan) (nth h v nan)
      then h :: shift_in v i rest
      else i :: sorted_rev
  end.

Definition argsort (v : arr) : list nat :=
  rev (fold_left (fun q i => shift_in v i q) (seq 0 (List.length v)) []).

(** [s = np.argsort( x ); s = s[::-1]] *)
Definition rank_order (x : arr) : list nat :=
  let s := argsort x in
  rev s.

(** ** Strings

    The string operations of the report formatters. *)

(** [s.replace( ' ', '' )] *)
Fixpoint remove_spaces (s : string) : string :=
  match s with
  | EmptyString => EmptyString
  | String c s' =>
      if Ascii.eqb c " " then remove_spaces s' else String c (remove_spaces s')
  end.

(** [s.replace( ' ', '' )==''] *)
Definition blank (s : string) : bool := String.eqb (remove_spaces s) "".

(** ['{0}0{1}'.format( s[0], s[1:] )]; it is only applied to strings of ten
    characters. *)
Definition insert_zero (s : string) : string :=
  match s with
  | EmptyString => EmptyString
  | String c s' => String c (String "0" s')
  end.

(** *** float( s )

    The built-in [float] of Python 2 on a string: white space at both ends
    is dropped, and what is left must be a decimal literal, [inf],
    [infinity] or [nan] (in any case) with an optional sign; anything else
    raises [ValueError]. *)

(** What a string is read as: [m * 10 ^ e] with its sign, an infinity, or
    [nan]. *)
Inductive float_lit : Type :=
| LitDecimal (negative : bool) (m : N) (e : Z)
| LitInf (negative : bool)
| LitNan.

Inductive pyfloat : Type :=
| FloatFinite (x : R)
| FloatInf (negative : bool)
| FloatNan.

Definition is_space (c : ascii) : bool :=
  let n := nat_of_ascii c in
  ((9 <=? n)%nat && (n <=? 13)%nat) || (n =? 32)%nat.

Definition digit (c : ascii) : option N :=
  let n := N_of_ascii c in
  if ((48 <=? n) && (n <=? 57))%N then Some (n - 48)%N else None.

Definition lower (c : ascii) : ascii :=
  let n := N_of_ascii c in
  if ((65 <=? n) && (n <=? 90))%N then ascii_of_N (n + 32) else c.

Fixpoint drop_spaces (cs : list ascii) : list ascii :=
  match cs with
  | c :: cs' => if is_space c then drop_spaces cs' else cs
  | [] => []
  end.

Definition strip (cs : list ascii) : list ascii :=
  rev (drop_spaces (rev (drop_spaces cs))).

(** The digits at the head of [cs], read onto [acc]: the number read, how
    many digits it has, and the characters that follow. *)
Fixpoint read_digits (cs : list ascii) (acc : N) (count : nat)
  : N * nat * list ascii :=
  match cs with
  | c :: cs' =>
      match digit c with
      | Some d => read_digits cs' (10 * acc + d)%N (S count)
      | None => (acc, count, cs)
      end
  | [] => (acc, count, [])
  end.

(** An optional sign: whether it is a minus, and the characters that
    follow. *)
Definition read_sign (cs : list ascii) : bool * list ascii :=
  match cs with
  | c :: cs' =>
      if Ascii.eqb c "-" then (true, cs')
      else if Ascii.eqb c "+" then (false, cs')
      else (false, cs)
  | [] => (false, [])
  end.

(** The end of a decimal literal: nothing, or an exponent with at least one
    digit. *)
Definition read_exponent (cs : list ascii) : option Z :=
  match cs with
  | [] => Some 0%Z
  | c :: cs' =>
      if Ascii.eqb (lower c) "e"
      then
        let (negative, ds) := read_sign cs' in
        match read_digits ds 0 0 with
        | (n, S _, []) => Some (if negative then - Z.of_N n else Z.of_N n)%Z
        | _ => None
        end
      else None
  end.

(** A decimal literal without its sign, as [m * 10 ^ e]: digits, with an
    optional point and an optional exponent, and at least one digit before
    the exponent. *)
Definition read_decimal (cs : list ascii) : option (N * Z) :=
  let '(i, ni, rest) := read_digits cs 0 0 in
  let '(m, nf, rest) :=
    match rest with
    | c :: rest' =>
        if Ascii.eqb c "." then read_digits rest' i 0 else (i, 0%nat, rest)
    | [] => (i, 0%nat, rest)
    end in
  if (ni + nf =? 0)%nat then None
  else
    match read_exponent rest with
    | Some e => Some (m, (e - Z.of_nat nf)%Z)
    | None => None
    end.

Definition decimal_value (negative : bool) (m : N) (e : Z) : R :=
  let x := IZR (Z.of_N m) * powerRZ 10 e in
  if negative then - x else x.

Definition parse_float (s : string) : option float_lit :=
  let (negative, cs) := read_sign (strip (list_ascii_of_string s)) in
  let word := string_of_list_ascii (map lower cs) in
  if String.eqb word "inf" || String.eqb word "infinity"
  then Some (LitInf negative)
  else if String.eqb word "nan" then Some LitNan
  else
    match read_decimal cs with
    | Some (m, e) => Some (LitDecimal negative m e)
    | None => None
    end.

Definition float_value (l : float_lit) : pyfloat :=
  match l with
  | LitDecimal negative m e => FloatFinite (decimal_value negative m e)
  | LitInf negative => FloatInf negative
  | LitNan => FloatNan
  end.

Definition float_str (s : string) : M pyfloat :=
  match parse_float s with
  | Some l => ret (float_value l)
  | None => raise ValueError
  end.

(** [x >= 0] on a float: false on [nan]. *)
Definition float_ge0 (x : pyfloat) : bool :=
  match x with
  | FloatFinite r => if Rle_dec 0 r then true else false
  | FloatInf negative => negb negative
  | FloatNan => false
  end.

(** *** The PyEphem library

    The formatters hand the coordinate strings of the catalogue to
    [ephem.hours] and [ephem.degrees] and take [str] of the angle.  The
    library is not part of the repository: the embedding is parametric in
    these two functions.  Each gives the text of the angle, or [None] for a
    string that the library does not read as an angle, which it rejects
    with [ValueError]. *)
Class Ephem : Type := {
  hours_str : string -> option string;
  degrees_str : string -> option string
}.

Definition str_angle (a : option string) : M string :=
  match a with
  | Some s => ret s
  | None => raise ValueError
  end.

(** ** The report

    A line of the report is represented by its fields: the name, right
    ascension and declination as the text that is laid out, and the numbers
    as the values that are laid out.  The layout itself (the widths, the
    padding and the number of decimals) is not modelled.  [int( x )]
    truncates towards zero and raises [ValueError] on a [nan]; on an
    infinity Python raises [OverflowError], which the one non-finite value
    of the embedding does not tell apart. *)

Definition int_of (x : val) : M Z :=
  match x with
  | Some r => ret (if Rle_dec 0 r then Int_part r else - Int_part (- r))%Z
  | None => raise ValueError
  end.

Record Header_ec : Type := mkHeader_ec {
  hec_nplanets : nat;
  hec_wav : R;
  hec_wav_ref : R;
  hec_obj_ref : string
}.

Definition make_header_ec (nplanets : nat) (wav wav_ref : R) (obj_ref : string)
  : Header_ec :=
  mkHeader_ec nplanets wav wav_ref obj_ref.

Record Line_ec : Type := mkLine_ec {
  lec_rank : nat;
  lec_name : string;
  lec_ra : string;
  lec_dec : string;
  lec_kmag : val;
  lec_tstar : Z;
  lec_rstar : val;
  lec_rp : val;
  lec_a : val;
  lec_tpeq : Z;
  lec_fratio : val;
  lec_snr_norm : val
}.

Definition make_outstr_ec {E : Ephem} (rank : nat) (name ra dec : string)
  (kmag tstar rstar rp a tpeq fratio snr_norm : val) : M Line_ec :=
  let name := remove_spaces name in
  ra_str <- str_angle (hours_str ra) ;;
  dec_str <- str_angle (degrees_str dec) ;;
  let ra_str :=
    if blank ra then "?"%string
    else if (String.length ra_str =? 10)%nat then ("0" ++ ra_str)%string
    else ra_str in
  dec_str <-
    (if blank dec then ret "?"%string
     else
       d <- float_str dec ;;
       let dec_str :=
         if float_ge0 d then ("+" ++ dec_str)%string else dec_str in
       ret (if (String.length dec_str =? 10)%nat then insert_zero dec_str
            else dec_str)) ;;
  tstar_int <- int_of tstar ;;
  tpeq_int <- int_of tpeq ;;
  ret (mkLine_ec rank name ra_str dec_str kmag tstar_int rstar rp a tpeq_int
                 (fin 1e4 * fratio)%val snr_norm).

Record Header_tr : Type := mkHeader_tr {
  htr_nplanets : nat;
  htr_wav_vis : R;
  htr_wav_ir : R;
  htr_wav_ref : R;
  htr_obj_ref : string;
  htr_n : R
}.

Definition make_header_tr (nplanets : nat) (wav_vis wav_ir wav_ref : R)
  (obj_ref : string) (n : R) : Header_tr :=
  mkHeader_tr nplanets wav_vis wav_ir wav_ref obj_ref n.

(** The text of a magnitude in the transmission report, which the run
    prepares before it calls the formatter: ['{0:.1f}'.format( x )], or a
    dash. *)
Inductive mag_str : Type :=
| Mag (x : val)
| Dash.

Record Line_tr : Type := mkLine_tr {
  ltr_rank : nat;
  ltr_name : string;
  ltr_ra : string;
  ltr_dec : string;
  ltr_vmag : mag_str;
  ltr_kmag : mag_str;
  ltr_rstar : val;
  ltr_rp : val;
  ltr_tpeq : Z;
  ltr_hatm : Z;
  ltr_depth_tr : val;
  ltr_delta_tr : val;
  ltr_snr_norm_vis : val;
  ltr_snr_norm_ir : val
}.

Definition make_outstr_tr {E : Ephem} (rank : nat) (name ra dec : string)
  (vmag kmag : mag_str)
  (rstar rp tpeq hatm depth_tr delta_tr snr_norm_vis snr_norm_ir : val)
  : M Line_tr :=
  let name := remove_spaces name in
  ra_str <- str_angle (hours_str ra) ;;
  dec_str <- str_angle (degrees_str dec) ;;
  d <- float_str dec ;;
  let dec_str := if float_ge0 d then ("+" ++ dec_str)%string else dec_str in
  let ra_str :=
    if (String.length ra_str =? 10)%nat then ("0" ++ ra_str)%string
    else ra_str in
  let dec_str :=
    if (String.length dec_str =? 10)%nat then insert_zero dec_str
    else dec_str in
  tpeq_int <- int_of tpeq ;;
  hatm_int <- int_of (hatm / fin 1e3)%val ;;
  ret (mkLine_tr rank name ra_str dec_str vmag kmag rstar rp tpeq_int
                 hatm_int (fin 1e2 * depth_tr)%val (fin 1e4 * delta_tr)%val
                 snr_norm_vis snr_norm_ir).

(** What a run leaves behind: the report saved under the returned name; the
    refusal of the reference star (a message is printed and [None] is
    returned, nothing is written); or an uncaught exception, with whatever
    had been written to the report by then. *)
Inductive outcome (F : Type) : Type :=
| Saved (outfile : string) (f : F)
| NoReference
| Crashed (e : exn) (f : option F).
Arguments Saved {F} outfile f.
Arguments NoReference {F}.
Arguments Crashed {F} e f.

Definition output_file {F : Type} (o : outcome F) : option F :=
  match o with
  | Saved _ f => Some f
  | NoReference => None
  | Crashed _ f => f
  end.

(** [for j in range( nplanets ): ... ofile.write( outstr )]: the lines
    written, and the exception that stopped the loop, if any. *)
Fixpoint write_lines {L : Type} (line : nat -> M L) (js : list nat)
  : list L * option exn :=
  match js with
  | [] => ([], None)
  | j :: js' =>
      match line j with
      | inl e => ([], Some e)
      | inr l => let (ls, e) := write_lines line js' in (l :: ls, e)
      end
  end.

Definition write_report {H L : Type} (outfile : string) (header : H)
  (line : nat -> M L) (nplanets : nat) : outcome (H * list L) :=
  match write_lines line (seq 0 nplanets) with
  | (ls, None) => Saved outfile (header, ls)
  | (ls, Some e) => Crashed e (Some (header, ls))
  end.

(** ** emission *)

Record EmissionCols : Type := mkEmissionCols {
  ec_Temp_eq : arr;
  ec_fratio : arr;
  ec_snr_unnorm : arr;
  ec_snr_ref : arr;
  ec_snr_norm : arr;
  ec_s : list nat
}.

(** The body of [emission] from the equilibrium temperatures to the rank
    order, on the filtered table [t] and wavelengths in metres. *)
Definition emission_scores (wav wav_ref : R) (obj_ref : string) (t : Table)
  : M EmissionCols :=
  let Temp_eq := Teq t in
  p_eq <- planck wav Temp_eq ;;
  p_star <- planck wav (col t_TEFF t) ;;
  let bratio := adiv p_eq p_star in
  let fratio :=
    amul bratio
         (asqr (adiv (atimes (col t_R t) RJUP) (atimes (col t_RSTAR t) RSUN))) in
  p_wav <- planck wav (col t_TEFF t) ;;
  p_ks <- planck 2.2e-6 (col t_TEFF t) ;;
  let kratio := adiv p_wav p_ks in
  let mag_star := asub (col t_KS t) (scal 2.5 (alog10 kratio)) in
  let flux_star_unnorm := apow10 (aover (aneg mag_star) 2.5) in
  let snr_unnorm := amul (asqrt flux_star_unnorm) fratio in
  let ii := map (fun name => String.eqb name obj_ref) (col t_NAME t) in
  p_eq_ref <- planck wav_ref (select ii Temp_eq) ;;
  p_star_ref <- planck wav_ref (select ii (col t_TEFF t)) ;;
  let bratio_ref := adiv p_eq_ref p_star_ref in
  let fratio_ref :=
    amul bratio_ref
         (asqr (adiv (atimes (select ii (col t_R t)) RJUP)
                     (atimes (select ii (col t_RSTAR t)) RSUN))) in
  p_wav_ref <- planck wav_ref (select ii (col t_TEFF t)) ;;
  p_ks_ref <- planck 2.2e-6 (select ii (col t_TEFF t)) ;;
  let kratio_ref := adiv p_wav_ref p_ks_ref in
  let mag_ref := asub (select ii (col t_KS t)) (scal 2.5 (alog10 kratio_ref)) in
  let flux_ref := apow10 (aover (aneg mag_ref) 2.5) in
  let snr_ref := amul (asqrt flux_ref) fratio_ref in
  snr_norm <- bdiv snr_unnorm snr_ref ;;
  let s := rank_order snr_norm in
  ret (mkEmissionCols Temp_eq fratio snr_unnorm snr_ref snr_norm s).

(** The body of the loop that writes the report: the line of rank
    [j + 1]. *)
Definition emission_line {E : Ephem} (t : Table) (c : EmissionCols) (j : nat)
  : M Line_ec :=
  i <- getitem (ec_s c) j ;;
  name <- getitem (col t_NAME t) i ;;
  ra <- getitem (col t_RA t) i ;;
  dec <- getitem (col t_DEC t) i ;;
  ks <- getitem (col t_KS t) i ;;
  teff <- getitem (col t_TEFF t) i ;;
  rstar <- getitem (col t_RSTAR t) i ;;
  rp <- getitem (col t_R t) i ;;
  a <- getitem (col t_A t) i ;;
  tpeq <- getitem (ec_Temp_eq c) i ;;
  fratio <- getitem (ec_fratio c) i ;;
  snr_norm <- getitem (ec_snr_norm c) i ;;
  make_outstr_ec (j + 1) name ra dec ks teff rstar rp a tpeq fratio snr_norm.

Definition emission {E : Ephem} (wav wav_ref : R) (obj_ref outfile : string)
  (catalog : Table) : outcome (Header_ec * list Line_ec) :=
  let wav := wav / 1e6 in
  let wav_ref := wav_ref / 1e6 in
  let t := filter_table "emission" catalog in
  let nplanets := List.length (col t_NAME t) in
  match emission_scores wav wav_ref obj_ref t with
  | inl e => Crashed e None
  | inr c =>
      let header := make_header_ec nplanets wav wav_ref obj_ref in
      write_report outfile header (emission_line t c) nplanets
  end.

(** ** transmission *)

Record TransmissionCols : Type := mkTransmissionCols {
  tc_Temp_eq : arr;
  tc_MPLANET : arr;
  tc_Hatm : arr;
  tc_depth_tr : arr;
  tc_delta_tr : arr;
  tc_snr_unnorm_vis : arr;
  tc_snr_unnorm_ir : arr;
  tc_snr_ref_vis : arr;
  tc_snr_ref_ir : arr;
  tc_snr_norm_vis : arr;
  tc_snr_norm_ir : arr;
  tc_s : list nat
}.

(** The check on the reference star:
    [( np.isfinite( t.KS[ix] )==False ) or ( np.isfinite( t.V[ix] )==False )] *)
Definition reference_lacks_magnitude (obj_ref : string) (t : Table) : M bool :=
  let ix := map (fun name => String.eqb name obj_ref) (col t_NAME t) in
  no_ks <- truth (map (fun k => negb (isfinite k)) (select ix (col t_KS t))) ;;
  if no_ks then ret true
  else truth (map (fun v => negb (isfinite v)) (select ix (col t_V t))).

(** The mass loop: [t.MASS[i]] is taken when reading it does not raise, and
    [t.MSINI[i]] otherwise. *)
Definition planet_masses (t : Table) : arr :=
  map (fun r => if has_MASS t then t_MASS r else t_MSINI r) (rows t).

(** The body of [transmission] after the check on the reference star, on the
    filtered table [t] and wavelengths in metres. *)
Definition transmission_scores (wav_vis wav_ir wav_ref : R) (obj_ref : string)
  (t : Table) : M TransmissionCols :=
  let n := 1 in
  let Temp_eq := Teq t in
  let MPLANET := planet_masses t in
  let little_g :=
    adiv (atimes (scal G MPLANET) MJUP) (asqr (atimes (col t_R t) RJUP)) in
  let Hatm := adiv (aover (scal RGAS Temp_eq) MUJUP) little_g in
  let depth_tr :=
    asqr (adiv (atimes (col t_R t) RJUP) (atimes (col t_RSTAR t) RSUN)) in
  let delta_tr :=
    adiv (amul (scal (2 * n) (atimes (col t_R t) RJUP)) Hatm)
         (asqr (atimes (col t_RSTAR t) RSUN)) in
  p <- planck wav_vis (col t_TEFF t) ;;
  q <- planck 2.2e-6 (col t_TEFF t) ;;
  let bratio := adiv p q in
  let mag := asub (col t_KS t) (scal 2.5 (alog10 bratio)) in
  let flux_unnorm := apow10 (aover (aneg mag) 2.5) in
  let snr_unnorm_vis := amul (asqrt flux_unnorm) delta_tr in
  p <- planck wav_ir (col t_TEFF t) ;;
  q <- planck 2.2e-6 (col t_TEFF t) ;;
  let bratio := adiv p q in
  let mag := asub (col t_KS t) (scal 2.5 (alog10 bratio)) in
  let flux_unnorm := apow10 (aover (aneg mag) 2.5) in
  let snr_unnorm_ir := amul (asqrt flux_unnorm) delta_tr in
  let ixs := map (fun k => negb (isfinite k)) (col t_KS t) in
  p <- planck wav_vis (select ixs (col t_TEFF t)) ;;
  q <- planck 0.6e-6 (select ixs (col t_TEFF t)) ;;
  let bratio := adiv p q in
  let mag := asub (select ixs (col t_V t)) (scal 2.5 (alog10 bratio)) in
  let flux_unnorm := apow10 (aover (aneg mag) 2.5) in
  let snr_unnorm_vis :=
    mask_assign ixs snr_unnorm_vis
                (amul (asqrt flux_unnorm) (select ixs delta_tr)) in
  p <- planck wav_ir (select ixs (col t_TEFF t)) ;;
  q <- planck 2.2e-6 (select ixs (col t_TEFF t)) ;;
  let bratio := adiv p q in
  let mag := asub (select ixs (col t_KS t)) (scal 2.5 (alog10 bratio)) in
  let flux_unnorm := apow10 (aover (aneg mag) 2.5) in
  let snr_unnorm_ir :=
    mask_assign ixs snr_unnorm_ir
                (amul (asqrt flux_unnorm) (select ixs delta_tr)) in
  let ii := map (fun name => String.eqb name obj_ref) (col t_NAME t) in
  let delta_tr_ref :=
    adiv (amul (scal (2 * n) (atimes (select ii (col t_R t)) RJUP))
               (select ii Hatm))
         (asqr (atimes (select ii (col t_RSTAR t)) RSUN)) in
  p <- planck wav_ref (select ii (col t_TEFF t)) ;;
  q <- planck 2.2e-6 (select ii (col t_TEFF t)) ;;
  let kratio_ref := adiv p q in
  let mag_ref_ir := asub (select ii (col t_KS t)) (scal 2.5 (alog10 kratio_ref)) in
  let flux_ref_ir := apow10 (aover (aneg mag_ref_ir) 2.5) in
  let snr_ref_ir := amul (asqrt flux_ref_ir) delta_tr_ref in
  let mag_ref_vis := asub (select ii (col t_V t)) (scal 2.5 (alog10 kratio_ref)) in
  let flux_ref_vis := apow10 (aover (aneg mag_ref_vis) 2.5) in
  let snr_ref_vis := amul (asqrt flux_ref_vis) delta_tr_ref in
  snr_norm_vis <- bdiv snr_unnorm_vis snr_ref_vis ;;
  snr_norm_ir <- bdiv snr_unnorm_ir snr_ref_ir ;;
  let s := rank_order snr_norm_vis in
  ret (mkTransmissionCols Temp_eq MPLANET Hatm depth_tr delta_tr
         snr_unnorm_vis snr_unnorm_ir snr_ref_vis snr_ref_ir
         snr_norm_vis snr_norm_ir s).

(** The body of the loop that writes the report: the line of rank
    [j + 1]. *)
Definition transmission_line {E : Ephem} (t : Table) (c : TransmissionCols)
  (j : nat) : M Line_tr :=
  i <- getitem (tc_s c) j ;;
  v_i <- getitem (col t_V t) i ;;
  let v := if isfinite v_i then Mag v_i else Dash in
  ks_i <- getitem (col t_KS t) i ;;
  let ks := if isfinite ks_i then Mag ks_i else Dash in
  name <- getitem (col t_NAME t) i ;;
  ra <- getitem (col t_RA t) i ;;
  dec <- getitem (col t_DEC t) i ;;
  rstar <- getitem (col t_RSTAR t) i ;;
  rp <- getitem (col t_R t) i ;;
  tpeq <- getitem (tc_Temp_eq c) i ;;
  hatm <- getitem (tc_Hatm c) i ;;
  depth_tr <- getitem (tc_depth_tr c) i ;;
  delta_tr <- getitem (tc_delta_tr c) i ;;
  snr_norm_vis <- getitem (tc_snr_norm_vis c) i ;;
  snr_norm_ir <- getitem (tc_snr_norm_ir c) i ;;
  make_outstr_tr (j + 1) name ra dec v ks rstar rp tpeq hatm
                 depth_tr delta_tr snr_norm_vis snr_norm_ir.

Definition transmission {E : Ephem} (wav_vis wav_ir wav_ref : R)
  (obj_ref outfile : string) (catalog : Table)
  : outcome (Header_tr * list Line_tr) :=
  let n := 1 in
  let wav_vis := wav_vis / 1e6 in
  let wav_ir := wav_ir / 1e6 in
  let wav_ref := wav_ref / 1e6 in
  let t := filter_table "transmission" catalog in
  let nplanets := List.length (col t_NAME t) in
  match reference_lacks_magnitude obj_ref t with
  | inl e => Crashed e None
  | inr true => NoReference
  | inr false =>
      match transmission_scores wav_vis wav_ir wav_ref obj_ref t with
      | inl e => Crashed e None
      | inr c =>
          let header :=
            make_header_tr nplanets wav_vis wav_ir wav_ref obj_ref n in
          write_report outfile header (transmission_line t c) nplanets
      end
  end.

(** ** Row-wise forms

    The quantities above, written for a single row.  They are used to state
    and prove the properties below and are shown equal to the column-wise
    computations of the source. *)

Definition planck1 (wav : R) (T : val) : val :=
  (fin (2 * HPLANCK * (C ^ 2) / (wav ^ 5))
   / (vexp (fin (HPLANCK * C / KB / wav) / T) - fin 1))%val.

Definition Teq1 (r : Row) : val :=
  (vsqrt (t_RSTAR r * fin RSUN / fin 2 / (t_A r * fin AU2M)) * t_TEFF r)%val.

(** The fields that both signal types require. *)
Definition base_fields (r : Row) : bool :=
  isfinite (t_RSTAR r) && isfinite (t_R r) && isfinite (t_A r)
  && isfinite (t_TEFF r).

Definition required_emission (r : Row) : bool :=
  base_fields r && isfinite (t_KS r).

(** A finite, strictly positive minimum mass or (in a table with a [MASS]
    column) mass. *)
Definition positive_mass (has_mass : bool) (r : Row) : bool :=
  vgt0 (t_MSINI r) || (has_mass && vgt0 (t_MASS r)).

Definition required_transmission (has_mass : bool) (r : Row) : bool :=
  base_fields r && (isfinite (t_KS r) || isfinite (t_V r))
  && positive_mass has_mass r.

(** Every numeric field of the row is defined. *)
Definition all_fields_finite (r : Row) : bool :=
  base_fields r && isfinite (t_KS r) && isfinite (t_V r)
  && isfinite (t_MASS r) && isfinite (t_MSINI r).

(** The table with every semimajor axis multiplied by [k]. *)
Definition scale_A (k : R) (t : Table) : Table :=
  mkTable (has_MASS t)
    (map (fun r => mkRow (t_NAME r) (t_RA r) (t_DEC r) (t_TEFF r) (t_RSTAR r)
                         (t_R r) (t_A r * fin k)%val (t_KS r) (t_V r)
                         (t_MASS r) (t_MSINI r))
         (rows t)).

(** The table with the constant [c] added to every K and V magnitude. *)
Definition shift_row (c : R) (r : Row) : Row :=
  mkRow (t_NAME r) (t_RA r) (t_DEC r) (t_TEFF r) (t_RSTAR r) (t_R r)
        (t_A r) (t_KS r + fin c)%val (t_V r + fin c)%val (t_MASS r)
        (t_MSINI r).

Definition shift_mags (c : R) (t : Table) : Table :=
  mkTable (has_MASS t) (map (shift_row c) (rows t)).

(** The factor by which a shift of the magnitudes by [c] changes the square
    root of every unnormalised flux. *)
Definition zero_point (c : R) : R := sqrt (Rpower 10 (- c / 2.5)).

(** [t.NAME==obj_ref] on one row. *)
Definition name_is (obj_ref : string) (r : Row) : bool :=
  String.eqb (t_NAME r) obj_ref.

(** The square root of the unnormalised stellar flux at wavelength [wav],
    extrapolated from the magnitude [mag] of a band at wavelength [wav0]:
    [np.sqrt( 10**( -( mag - 2.5*np.log10( planck( wav, T )/planck( wav0, T ) ) )/2.5 ) )]. *)
Definition sqrt_flux (mag : val) (wav wav0 : R) (T : val) : val :=
  vsqrt (vpow10 (- (mag - fin 2.5 * vlog10 (planck1 wav T / planck1 wav0 T))
                 / fin 2.5))%val.

(** Planet-to-star flux ratio of the emission pipeline. *)
Definition fratio1 (wav : R) (r : Row) : val :=
  (planck1 wav (Teq1 r) / planck1 wav (t_TEFF r)
   * ((t_R r * fin RJUP / (t_RSTAR r * fin RSUN))
      * (t_R r * fin RJUP / (t_RSTAR r * fin RSUN))))%val.

(** Raw emission score of a row at wavelength [wav]. *)
Definition snr_ec (wav : R) (r : Row) : val :=
  (sqrt_flux (t_KS r) wav 2.2e-6 (t_TEFF r) * fratio1 wav r)%val.

(** The mass that the transmission pipeline uses for a row. *)
Definition mass1 (t : Table) (r : Row) : val :=
  if has_MASS t then t_MASS r else t_MSINI r.

Definition little_g1 (t : Table) (r : Row) : val :=
  (fin G * mass1 t r * fin MJUP
   / ((t_R r * fin RJUP) * (t_R r * fin RJUP)))%val.

Definition Hatm1 (t : Table) (r : Row) : val :=
  (fin RGAS * Teq1 r / fin MUJUP / little_g1 t r)%val.

Definition depth_tr1 (r : Row) : val :=
  ((t_R r * fin RJUP / (t_RSTAR r * fin RSUN))
   * (t_R r * fin RJUP / (t_RSTAR r * fin RSUN)))%val.

Definition delta_tr1 (t : Table) (r : Row) : val :=
  (fin (2 * 1) * (t_R r * fin RJUP) * Hatm1 t r
   / ((t_RSTAR r * fin RSUN) * (t_RSTAR r * fin RSUN)))%val.

(** Raw transmission scores of a row, as left by the two masked
    assignments. *)
Definition snr_vis1 (wav_vis : R) (t : Table) (r : Row) : val :=
  if negb (isfinite (t_KS r))
  then (sqrt_flux (t_V r) wav_vis 0.6e-6 (t_TEFF r) * delta_tr1 t r)%val
  else (sqrt_flux (t_KS r) wav_vis 2.2e-6 (t_TEFF r) * delta_tr1 t r)%val.

Definition snr_ir1 (wav_ir : R) (t : Table) (r : Row) : val :=
  if negb (isfinite (t_KS r))
  then (sqrt_flux (t_KS r) wav_ir 2.2e-6 (t_TEFF r) * delta_tr1 t r)%val
  else (sqrt_flux (t_KS r) wav_ir 2.2e-6 (t_TEFF r) * delta_tr1 t r)%val.

(** Raw transmission scores of the reference row. *)
Definition snr_ref_ir1 (wav_ref : R) (t : Table) (r : Row) : val :=
  (sqrt_flux (t_KS r) wav_ref 2.2e-6 (t_TEFF r) * delta_tr1 t r)%val.

Definition snr_ref_vis1 (wav_ref : R) (t : Table) (r : Row) : val :=
  (sqrt_flux (t_V r) wav_ref 2.2e-6 (t_TEFF r) * delta_tr1 t r)%val.

(** The Planck function on the reals. *)
Definition planckR (wav T : R) : R :=
  2 * HPLANCK * (C ^ 2) / (wav ^ 5) / (exp (HPLANCK * C / KB / wav / T) - 1).

(** A value that is finite and strictly positive. *)
Definition pos (a : val) : Prop := exists x, a = Some x /\ 0 < x.

(** A row whose stellar temperature, stellar radius, planetary radius and
    semimajor axis are finite and strictly positive. *)
Definition physical (r : Row) : Prop :=
  pos (t_TEFF r) /\ pos (t_RSTAR r) /\ pos (t_R r) /\ pos (t_A r).

(** No zero among the four fields that both signal types require: no
    division by zero, and with it no infinity, arises from such a row. *)
Definition no_zero_field (r : Row) : Prop :=
  t_TEFF r <> fin 0 /\ t_RSTAR r <> fin 0 /\ t_R r <> fin 0
  /\ t_A r <> fin 0.

Definition is_some {A : Type} (o : option A) : bool :=
  match o with Some _ => true | None => false end.

(** The strings that [float] reads. *)
Definition is_float (s : string) : bool := is_some (parse_float s).

(** The coordinates that the formatter of the emission report lays out:
    both are read by the library, and the declination is blank or is read
    by [float]. *)
Definition readable_ec {E : Ephem} (r : Row) : bool :=
  is_some (hours_str (t_RA r)) && is_some (degrees_str (t_DEC r))
  && (blank (t_DEC r) || is_float (t_DEC r)).

(** The coordinates that the formatter of the transmission report lays out:
    both are read by the library, and the declination is read by
    [float]. *)
Definition readable_tr {E : Ephem} (r : Row) : bool :=
  is_some (hours_str (t_RA r)) && is_some (degrees_str (t_DEC r))
  && is_float (t_DEC r).

(** The text of a magnitude in the transmission report. *)
Definition mag_text (m : val) : mag_str :=
  if isfinite m then Mag m else Dash.

(** [r], at index [k], is the one row of [t] named [obj_ref]. *)
Definition is_reference (obj_ref : string) (t : Table) (k : nat) (r : Row)
  : Prop :=
  nth_error (rows t) k = Some r /\ filter (name_is obj_ref) (rows t) = [r].

(** [a] is ranked before [b] by the scores [v]: the score of [a] is not
    below that of [b], and on a tie [a] is the later row. *)
Definition ranked_before (v : arr) (a b : nat) : Prop :=
  val_ltb (nth a v nan) (nth b v nan) = false
  /\ (val_ltb (nth b v nan) (nth a v nan) = false -> (b < a)%nat).

(** ** Sample catalogues

    The coordinates are strings of decimal hours and decimal degrees. *)

Definition WASP19b : Row :=
  mkRow "WASP-19 b" "9.8945" "-45.6592" (fin 5500) (fin 0.99)
        (fin 1.39) (fin 0.0163) (fin 10.48) (fin 12.31) (fin 1.11)
        (fin 1.11).

Definition HD189733b : Row :=
  mkRow "HD 189733 b" "20.0121" "22.7108" (fin 5040) (fin 0.76)
        (fin 1.14) (fin 0.031) (fin 5.54) (fin 7.67) (fin 1.14)
        (fin 1.14).

(** A planet with a V magnitude but no K magnitude. *)
Definition no_K_planet : Row :=
  mkRow "Kepler-7 b" "19.2388" "41.0897" (fin 5933) (fin 1.84)
        (fin 1.48) (fin 0.062) nan (fin 13.0) (fin 0.43) (fin 0.43).

(** A planet with a minimum mass but no mass. *)
Definition no_mass_planet : Row :=
  mkRow "HD 17156 b" "2.8290" "71.7533" (fin 6079) (fin 1.51)
        (fin 1.1) (fin 0.163) (fin 6.8) (fin 8.2) nan (fin 3.2).

(** A planet whose mass and minimum mass are recorded as zero. *)
Definition zero_mass_planet : Row :=
  mkRow "KOI-13 b" "19.1314" "46.8683" (fin 8500) (fin 2.55)
        (fin 1.4) (fin 0.034) (fin 9.4) (fin 10.0) (fin 0) (fin 0).


(** A planet whose declination is written in sexagesimal form, which
    [float] does not read. *)
Definition sexagesimal_planet : Row :=
  mkRow "HD 209458 b" "22.0528" "+18 53 04" (fin 6065) (fin 1.16)
        (fin 1.36) (fin 0.0472) (fin 6.31) (fin 7.65) (fin 0.69)
        (fin 0.69).

Fixpoint lookup (s : string) (l : list (string * string)) : option string :=
  match l with
  | (k, v) :: l' => if String.eqb s k then Some v else lookup s l'
  | [] => None
  end.

(** The text of the coordinates of the sample rows, with two decimals of a
    second of time and one of a second of arc; in the samples every other
    string counts as rejected. *)
Definition sample_ephem : Ephem :=
  {| hours_str := fun s =>
       lookup s [("9.8945", "9:53:40.20"); ("20.0121", "20:00:43.56");
                 ("19.2388", "19:14:19.68"); ("2.8290", "2:49:44.40");
                 ("19.1314", "19:07:53.04"); ("19.6402", "19:38:24.72");
                 ("22.0528", "22:03:10.08")]%string;
     degrees_str := fun s =>
       lookup s [("-45.6592", "-45:39:33.1"); ("22.7108", "22:42:38.9");
                 ("41.0897", "41:05:22.9"); ("71.7533", "71:45:11.9");
                 ("46.8683", "46:52:05.9"); ("39.9381", "39:56:17.2");
                 ("+18 53 04", "18:53:04.0")]%string |}.

(** * Properties *)

(** ** Lists and arrays *)

Lemma map2_map_map {A B D E : Type} (f : B -> D -> E) (g : A -> B)
  (h : A -> D) (l : list A) :
  map2 f (map g l) (map h l) = map (fun x => f (g x) (h x)) l.
Proof.
  induction l as [|x l IH]; simpl; [reflexivity | now rewrite IH].
Qed.

Lemma select_map {A B : Type} (p : A -> bool) (f : A -> B) (l : list A) :
  select (map p l) (map f l) = map f (filter p l).
Proof.
  induction l as [|x l IH]; simpl; [reflexivity|].
  destruct (p x); simpl; now rewrite IH.
Qed.

Lemma mask_assign_map {A B : Type} (p : A -> bool) (f g : A -> B)
  (l : list A) :
  mask_assign (map p l) (map f l) (map g (filter p l))
  = map (fun x => if p x then g x else f x) l.
Proof.
  induction l as [|x l IH]; simpl; [reflexivity|].
  destruct (p x); simpl; now rewrite IH.
Qed.

Lemma filter_and {A : Type} (p q : A -> bool) (l : list A) :
  filter q (filter p l) = filter (fun x => p x && q x) l.
Proof.
  induction l as [|x l IH]; simpl; [reflexivity|].
  destruct (p x); simpl; [destruct (q x)|]; now rewrite IH.
Qed.

(** Turning a computation on columns into one [map] over the rows. *)
Ltac fuse_cols :=
  unfold amul, adiv, asub, scal, atimes, aover, asqr, aneg, asqrt, alog10,
    apow10, col;
  repeat (rewrite map_map || rewrite map2_map_map || rewrite select_map
          || rewrite mask_assign_map).

(** ** Constants *)

Lemma G_pos : 0 < G. Proof. unfold G; lra. Qed.
Lemma HPLANCK_pos : 0 < HPLANCK. Proof. unfold HPLANCK; lra. Qed.
Lemma C_pos : 0 < C. Proof. unfold C; lra. Qed.
Lemma KB_pos : 0 < KB. Proof. unfold KB; lra. Qed.
Lemma RGAS_pos : 0 < RGAS. Proof. unfold RGAS; lra. Qed.
Lemma RSUN_pos : 0 < RSUN. Proof. unfold RSUN; lra. Qed.
Lemma RJUP_pos : 0 < RJUP. Proof. unfold RJUP; lra. Qed.
Lemma MJUP_pos : 0 < MJUP. Proof. unfold MJUP; lra. Qed.
Lemma AU2M_pos : 0 < AU2M. Proof. unfold AU2M; lra. Qed.
Lemma MUJUP_pos : 0 < MUJUP. Proof. unfold MUJUP; lra. Qed.

Create HintDb consts.
#[local] Hint Resolve G_pos HPLANCK_pos C_pos KB_pos RGAS_pos RSUN_pos
  RJUP_pos MJUP_pos AU2M_pos MUJUP_pos : consts.

(** ** Arithmetic on values *)

Lemma vdiv_fin (x y : R) : y <> 0 -> vdiv (fin x) (fin y) = fin (x / y).
Proof.
  intros Hy; unfold vdiv, fin.
  destruct (Req_dec_T y 0); [contradiction | reflexivity].
Qed.

Lemma vsqrt_fin (x : R) : 0 <= x -> vsqrt (fin x) = fin (sqrt x).
Proof.
  intros Hx; unfold vsqrt, fin.
  destruct (Rle_dec 0 x); [reflexivity | contradiction].
Qed.

Lemma vlog10_fin (x : R) : 0 < x -> vlog10 (fin x) = fin (ln x / ln 10).
Proof.
  intros Hx; unfold vlog10, fin.
  destruct (Rlt_dec 0 x); [reflexivity | contradiction].
Qed.

Lemma vgt0_true (a : val) : vgt0 a = true <-> exists x, a = Some x /\ 0 < x.
Proof.
  destruct a as [x|]; simpl.
  - destruct (Rlt_dec 0 x); split; intros H.
    + now exists x.
    + reflexivity.
    + discriminate.
    + destruct H as (y & [= <-] & Hy); contradiction.
  - split; [discriminate | intros (y & Hy & _); discriminate].
Qed.

(** ** planck *)

Lemma planck_rows (wav : R) (temp : arr) :
  wav <> 0 -> planck wav temp = ret (map (planck1 wav) temp).
Proof.
  intros Hw; unfold planck.
  destruct (Req_dec_T wav 0); [contradiction|].
  now rewrite map_map.
Qed.

Lemma planck_exponent_pos (wav T : R) :
  0 < wav -> 0 < T -> 0 < HPLANCK * C / KB / wav / T.
Proof.
  intros Hw HT.
  assert (0 < HPLANCK * C) by (apply Rmult_lt_0_compat; auto with consts).
  assert (0 < KB) by auto with consts.
  repeat (apply Rdiv_lt_0_compat; try assumption).
Qed.

Lemma planck_term1_pos (wav : R) :
  0 < wav -> 0 < 2 * HPLANCK * (C ^ 2) / (wav ^ 5).
Proof.
  intros Hw.
  apply Rdiv_lt_0_compat; [|now apply pow_lt].
  apply Rmult_lt_0_compat; [|apply pow_lt, C_pos].
  apply Rmult_lt_0_compat; [lra | apply HPLANCK_pos].
Qed.

Lemma planck_term2_pos (wav T : R) :
  0 < wav -> 0 < T -> 0 < exp (HPLANCK * C / KB / wav / T) - 1.
Proof.
  intros Hw HT.
  pose proof (planck_exponent_pos wav T Hw HT) as Hx.
  pose proof (exp_increasing _ _ Hx) as He.
  rewrite exp_0 in He; lra.
Qed.

Lemma planck1_fin (wav T : R) :
  0 < wav -> 0 < T -> planck1 wav (fin T) = fin (planckR wav T).
Proof.
  intros Hw HT; unfold planck1.
  pose proof (planck_term2_pos wav T Hw HT) as H2.
  rewrite (vdiv_fin _ T) by lra.
  apply (vdiv_fin (2 * HPLANCK * (C ^ 2) / (wav ^ 5))
                  (exp (HPLANCK * C / KB / wav / T) - 1)).
  lra.
Qed.

(** C7.  For a wavelength [wav > 0] and temperatures [0 < T1 < T2], over the
    reals, [planck] returns strictly positive radiances, and the radiance at
    the higher temperature is strictly larger: the Planck function is
    positive and strictly increasing in the temperature at a fixed
    wavelength. *)
Theorem planck_positive_increasing (wav T1 T2 : R) :
  0 < wav -> 0 < T1 -> T1 < T2 ->
  exists b1 b2 : R,
    planck wav [fin T1; fin T2] = ret [fin b1; fin b2]
    /\ 0 < b1 /\ 0 < b2 /\ b1 < b2.
Proof.
  intros Hw HT1 HT12.
  assert (HT2 : 0 < T2) by lra.
  rewrite planck_rows by lra; simpl.
  rewrite !planck1_fin by assumption.
  eexists; eexists; split; [reflexivity|].
  unfold planckR.
  pose proof (planck_term1_pos wav Hw) as H1.
  pose proof (planck_term2_pos wav T1 Hw HT1) as Ha.
  pose proof (planck_term2_pos wav T2 Hw HT2) as Hb.
  assert (Hlt : exp (HPLANCK * C / KB / wav / T2) - 1
                < exp (HPLANCK * C / KB / wav / T1) - 1).
  { apply Rplus_lt_compat_r, exp_increasing.
    unfold Rdiv at 1 5.
    apply Rmult_lt_compat_l.
    - pose proof (planck_exponent_pos wav 1 Hw Rlt_0_1) as Hx.
      now rewrite Rdiv_1_r in Hx.
    - now apply Rinv_lt_contravar; [apply Rmult_lt_0_compat|]. }
  repeat split.
  - now apply Rdiv_lt_0_compat.
  - now apply Rdiv_lt_0_compat.
  - unfold Rdiv at 1 5.
    apply Rmult_lt_compat_l; [assumption|].
    now apply Rinv_lt_contravar; [apply Rmult_lt_0_compat|].
Qed.

Lemma planck_positive_increasing_witness :
  exists b1 b2 : R,
    planck 2.2e-6 [fin 1500; fin 5500] = ret [fin b1; fin b2]
    /\ 0 < b1 /\ 0 < b2 /\ b1 < b2.
Proof.
  apply (planck_positive_increasing 2.2e-6 1500 5500); lra.
Defined.

(** ** Teq *)

Lemma Teq_rows (t : Table) : Teq t = map Teq1 (rows t).
Proof. unfold Teq; fuse_cols; reflexivity. Qed.

Lemma Teq1_fin (r : Row) (rs a ts : R) :
  t_RSTAR r = Some rs -> t_A r = Some a -> t_TEFF r = Some ts ->
  0 <= rs -> 0 < a ->
  Teq1 r = fin (sqrt (rs * RSUN / (2 * (a * AU2M))) * ts).
Proof.
  intros HR HA HT Hrs Ha; unfold Teq1; rewrite HR, HA, HT.
  pose proof RSUN_pos; pose proof AU2M_pos.
  assert (0 < a * AU2M) by now apply Rmult_lt_0_compat.
  change (Some rs) with (fin rs); change (Some a) with (fin a);
    change (Some ts) with (fin ts).
  cbn [vmul fin].
  change (Some (rs * RSUN)) with (fin (rs * RSUN)).
  rewrite vdiv_fin by lra.
  change (Some (a * AU2M)) with (fin (a * AU2M)).
  rewrite vdiv_fin by lra.
  assert (Heq : rs * RSUN / 2 / (a * AU2M) = rs * RSUN / (2 * (a * AU2M)))
    by (field; lra).
  rewrite Heq, vsqrt_fin; [reflexivity|].
  apply Rmult_le_pos; [nra|].
  left; apply Rinv_0_lt_compat; lra.
Qed.

Lemma vdiv_two (X Y : val) : (X / fin 2 / Y)%val = (X / (fin 2 * Y))%val.
Proof.
  destruct X as [x|], Y as [y|]; try reflexivity.
  - unfold vdiv, vmul, fin.
    destruct (Req_dec_T 2 0); [exfalso; lra|].
    destruct (Req_dec_T y 0), (Req_dec_T (2 * y) 0); try reflexivity;
      try (exfalso; match goal with N : _ <> _ |- _ => apply N; lra end).
    f_equal; field; lra.
  - unfold vdiv, fin; destruct (Req_dec_T 2 0); reflexivity.
Qed.

Lemma vsqrt_half (q : R) (teff : val) :
  (vsqrt (fin (q * / 2)) * teff)%val
  = (vsqrt (fin q) * teff * fin (1 / sqrt 2))%val.
Proof.
  assert (Hs : 0 < sqrt 2) by (apply sqrt_lt_R0; lra).
  unfold vsqrt, fin.
  destruct (Rle_dec 0 (q * / 2)), (Rle_dec 0 q);
    try reflexivity; try (exfalso; lra).
  destruct teff as [ts|]; simpl; [|reflexivity].
  f_equal.
  rewrite sqrt_mult by lra.
  rewrite sqrt_inv; field; lra.
Qed.

Lemma Teq1_double_A (rstar a teff : val) :
  (vsqrt (rstar * fin RSUN / fin 2 / (a * fin 2 * fin AU2M)) * teff)%val
  = (vsqrt (rstar * fin RSUN / fin 2 / (a * fin AU2M)) * teff
     * fin (1 / sqrt 2))%val.
Proof.
  pose proof AU2M_pos as HA.
  destruct rstar as [rs|], a as [x|]; try reflexivity.
  - change (Some rs) with (fin rs); change (Some x) with (fin x).
    cbn [vmul fin].
    change (Some (rs * RSUN)) with (fin (rs * RSUN)).
    change (Some 2) with (fin 2).
    rewrite vdiv_fin by lra.
    change (Some (x * 2 * AU2M)) with (fin (x * 2 * AU2M)).
    change (Some (x * AU2M)) with (fin (x * AU2M)).
    destruct (Req_dec_T x 0) as [Hx|Hx].
    + subst x.
      replace (0 * 2 * AU2M) with 0 by lra.
      replace (0 * AU2M) with 0 by lra.
      unfold vdiv, fin.
      destruct (Req_dec_T 0 0); [reflexivity | exfalso; lra].
    + rewrite !vdiv_fin
        by (apply Rmult_integral_contrapositive_currified; lra).
      replace (rs * RSUN / 2 / (x * 2 * AU2M))
        with (rs * RSUN / 2 / (x * AU2M) * / 2) by (field; lra).
      apply vsqrt_half.
  - cbn [vmul fin]. change (Some (rs * RSUN)) with (fin (rs * RSUN)).
    rewrite vdiv_fin by lra. reflexivity.
Qed.

(** C8 (as amended).  For every row the equilibrium temperature that [Teq]
    computes is [sqrt (Rstar / (2 a)) * Tstar], with the stellar radius and
    the semimajor axis converted to metres, and in exact real arithmetic
    doubling every semimajor axis of the table multiplies every equilibrium
    temperature by exactly [1 / sqrt 2]. *)
Theorem Teq_formula_and_scaling (t : Table) :
  Teq t
  = map (fun r => vsqrt (t_RSTAR r * fin RSUN
                         / (fin 2 * (t_A r * fin AU2M)))
                  * t_TEFF r)%val (rows t)
  /\ Teq (scale_A 2 t) = map (fun T => T * fin (1 / sqrt 2))%val (Teq t).
Proof.
  rewrite !Teq_rows; split.
  - apply map_ext; intros r; unfold Teq1.
    now rewrite vdiv_two.
  - unfold scale_A; simpl; rewrite !map_map.
    apply map_ext; intros r; unfold Teq1; simpl.
    apply Teq1_double_A.
Qed.

Lemma Teq_formula_and_scaling_witness :
  Teq (mkTable true [WASP19b])
  = [fin (sqrt (0.99 * RSUN / (2 * (0.0163 * AU2M))) * 5500)]
  /\ Teq (scale_A 2 (mkTable true [WASP19b]))
     = [fin (sqrt (0.99 * RSUN / (2 * (0.0163 * AU2M))) * 5500
             * (1 / sqrt 2))].
Proof.
  assert (E : Teq (mkTable true [WASP19b])
              = [fin (sqrt (0.99 * RSUN / (2 * (0.0163 * AU2M))) * 5500)]).
  { rewrite Teq_rows; simpl.
    now rewrite (Teq1_fin WASP19b 0.99 0.0163 5500) by (reflexivity || lra). }
  split; [exact E|].
  rewrite (proj2 (Teq_formula_and_scaling _)), E; reflexivity.
Defined.

(** C8, counterexample.  In binary64 the factor is not exact: for the row
    with stellar radius 0.99, semimajor axis 0.0163 and temperature 5500
    the code gives 1461.3198530878547 at twice the semimajor axis, and
    1461.3198530878542 for the temperature at the semimajor axis itself
    times [1 / sqrt 2]. *)
Lemma Teq64_doubling_is_not_exact :
  let table := [mkRow64 0.99%float 0.0163%float 5500%float] in
  let k := PrimFloat.div 1%float (PrimFloat.sqrt 2%float) in
  Teq64 table = [2066.6183552019024%float]
  /\ Teq64 (scale_A64 2%float table) = [1461.3198530878547%float]
  /\ map (fun T => PrimFloat.mul T k) (Teq64 table)
     = [1461.3198530878542%float]
  /\ Teq64 (scale_A64 2%float table)
     <> map (fun T => PrimFloat.mul T k) (Teq64 table).
Proof.
  intros table k.
  assert (H1 : Teq64 table = [2066.6183552019024%float])
    by (vm_compute; reflexivity).
  assert (H2 : Teq64 (scale_A64 2%float table) = [1461.3198530878547%float])
    by (vm_compute; reflexivity).
  assert (H3 : map (fun T => PrimFloat.mul T k) (Teq64 table)
               = [1461.3198530878542%float])
    by (vm_compute; reflexivity).
  repeat split; try assumption.
  rewrite H2, H3; intros H.
  apply (f_equal (fun l => match l with
                           | x :: _ => PrimFloat.eqb x 1461.3198530878542%float
                           | [] => false
                           end)) in H.
  vm_compute in H; discriminate H.
Qed.

(** ** filter_table *)

Lemma filter_table_emission (catalog : Table) :
  rows (filter_table "emission" catalog)
  = filter required_emission (rows catalog).
Proof.
  unfold filter_table, t_where; simpl.
  rewrite !filter_and; apply filter_ext; intros r.
  unfold required_emission, base_fields.
  now rewrite !andb_assoc.
Qed.

Lemma filter_table_transmission (catalog : Table) :
  rows (filter_table "transmission" catalog)
  = filter (required_transmission (has_MASS catalog)) (rows catalog).
Proof.
  unfold filter_table, t_where; simpl.
  destruct (has_MASS catalog); simpl; rewrite !filter_and;
    apply filter_ext; intros r;
    unfold required_transmission, base_fields, positive_mass;
    destruct (t_MSINI r), (t_MASS r); simpl;
    rewrite ?andb_false_r, ?orb_false_r, ?andb_assoc; reflexivity.
Qed.

Lemma filter_table_has_MASS (sigtype : string) (catalog : Table) :
  has_MASS (filter_table sigtype catalog) = has_MASS catalog.
Proof.
  unfold filter_table, t_where; simpl.
  destruct (String.eqb sigtype "emission"),
    (String.eqb sigtype "transmission"), (has_MASS catalog); reflexivity.
Qed.

(** C9 (as amended).  The filtered table is the catalogue restricted, in its
    original order and without repeating or dropping any occurrence, to the
    rows that pass the test of the signal type: for emission the rows whose
    stellar radius, planetary radius, semimajor axis, stellar temperature and
    K magnitude are all finite; for transmission the rows whose first four
    are finite, whose K or V magnitude is finite, and whose minimum mass or
    mass is finite and strictly positive. *)
Theorem filter_table_exact (catalog : Table) :
  (rows (filter_table "emission" catalog)
   = filter required_emission (rows catalog)
   /\ forall r, In r (rows (filter_table "emission" catalog))
                <-> In r (rows catalog) /\ required_emission r = true)
  /\ (rows (filter_table "transmission" catalog)
      = filter (required_transmission (has_MASS catalog)) (rows catalog)
      /\ forall r, In r (rows (filter_table "transmission" catalog))
                   <-> In r (rows catalog)
                       /\ required_transmission (has_MASS catalog) r = true).
Proof.
  rewrite filter_table_emission, filter_table_transmission.
  split; (split; [reflexivity | intros r; apply filter_In]).
Qed.

(** C10.  Every row that [filter_table] keeps for transmission has a finite
    and strictly positive minimum mass or a finite and strictly positive
    mass; being defined is not enough. *)
Theorem filter_table_transmission_positive_mass (catalog : Table) (r : Row) :
  In r (rows (filter_table "transmission" catalog)) ->
  (exists m, t_MSINI r = Some m /\ 0 < m)
  \/ (exists m, t_MASS r = Some m /\ 0 < m).
Proof.
  rewrite filter_table_transmission, filter_In.
  intros [_ H]; unfold required_transmission, positive_mass in H.
  apply andb_prop in H; destruct H as [_ H].
  apply orb_prop in H; destruct H as [H|H].
  - left; now apply vgt0_true.
  - right; apply andb_prop in H; now apply vgt0_true.
Qed.

(** Deciding the comparisons of concrete reals that the definitions make. *)
Ltac rdec :=
  repeat match goal with
    | |- context [Rlt_dec ?a ?b] => destruct (Rlt_dec a b); try lra
    | |- context [Rle_dec ?a ?b] => destruct (Rle_dec a b); try lra
    | |- context [Req_dec_T ?a ?b] => destruct (Req_dec_T a b); try lra
    end.

Lemma filter_table_transmission_positive_mass_witness :
  let catalog := mkTable true [WASP19b; no_mass_planet] in
  In no_mass_planet (rows (filter_table "transmission" catalog))
  /\ ((exists m, t_MSINI no_mass_planet = Some m /\ 0 < m)
      \/ (exists m, t_MASS no_mass_planet = Some m /\ 0 < m)).
Proof.
  intros catalog.
  assert (H : In no_mass_planet (rows (filter_table "transmission" catalog))).
  { rewrite filter_table_transmission.
    unfold required_transmission, positive_mass, base_fields; simpl.
    rdec; simpl; tauto. }
  split; [exact H|].
  exact (filter_table_transmission_positive_mass catalog no_mass_planet H).
Defined.

(** C9, counterexample.  A row whose fields are all defined, with a mass
    and a minimum mass of zero, is dropped by the transmission filter. *)
Lemma filter_table_drops_defined_row :
  let catalog := mkTable true [WASP19b; zero_mass_planet] in
  all_fields_finite zero_mass_planet = true
  /\ In zero_mass_planet (rows catalog)
  /\ ~ In zero_mass_planet (rows (filter_table "transmission" catalog)).
Proof.
  intros catalog; split; [reflexivity|]; split; [simpl; tauto|].
  rewrite filter_table_transmission.
  unfold required_transmission, positive_mass, base_fields; simpl.
  rdec; simpl.
  intros [H|[]]; discriminate H.
Qed.

(** ** Ranking *)

Lemma val_ltb_asym (a b : val) : val_ltb a b = true -> val_ltb b a = false.
Proof.
  destruct a as [x|], b as [y|]; simpl; try reflexivity; try discriminate.
  rdec; discriminate.
Qed.

Lemma val_ltb_negtrans (a b c : val) :
  val_ltb a b = false -> val_ltb b c = false -> val_ltb a c = false.
Proof.
  destruct a as [x|], b as [y|], c as [z|]; simpl; try reflexivity;
    try discriminate; rdec; try discriminate; reflexivity.
Qed.

Section Ranking.

Variable v : arr.

Lemma shift_in_In (i x : nat) (q : list nat) :
  In x (shift_in v i q) <-> x = i \/ In x q.
Proof.
  induction q as [|h q IH]; simpl; [intuition|].
  destruct (val_ltb (nth i v nan) (nth h v nan)); simpl;
    [rewrite IH|]; intuition.
Qed.

Lemma shift_in_perm (i : nat) (q : list nat) :
  Permutation (shift_in v i q) (i :: q).
Proof.
  induction q as [|h q IH]; simpl; [reflexivity|].
  destruct (val_ltb (nth i v nan) (nth h v nan)); [|reflexivity].
  rewrite IH; apply perm_swap.
Qed.

Lemma shift_in_sorted (i : nat) (q : list nat) :
  (forall x, In x q -> (x < i)%nat) ->
  StronglySorted (ranked_before v) q ->
  StronglySorted (ranked_before v) (shift_in v i q).
Proof.
  intros Hlt Hs; induction Hs as [|h q Hs IH Hh]; simpl.
  - constructor; constructor.
  - destruct (val_ltb (nth i v nan) (nth h v nan)) eqn:E.
    + constructor.
      * apply IH; intros x Hx; apply Hlt; now right.
      * apply Forall_forall; intros x Hx.
        apply shift_in_In in Hx; destruct Hx as [->|Hx].
        -- split; [now apply val_ltb_asym | congruence].
        -- rewrite Forall_forall in Hh; now apply Hh.
    + constructor; [now constructor|].
      apply Forall_forall; intros x [<-|Hx].
      * split; [assumption | intros _; apply Hlt; now left].
      * rewrite Forall_forall in Hh; destruct (Hh x Hx) as [H1 H2].
        split; [|intros _; apply Hlt; now right].
        now apply val_ltb_negtrans with (nth h v nan).
Qed.

Lemma fold_shift_in (k : nat) :
  Permutation (fold_left (fun q i => shift_in v i q) (seq 0 k) [])
              (seq 0 k)
  /\ StronglySorted (ranked_before v)
       (fold_left (fun q i => shift_in v i q) (seq 0 k) []).
Proof.
  induction k as [|k [IHp IHs]].
  - split; constructor.
  - rewrite seq_S, fold_left_app; simpl; split.
    + rewrite shift_in_perm, IHp.
      rewrite Permutation_app_comm; reflexivity.
    + apply shift_in_sorted; [|assumption].
      intros x Hx; apply (Permutation_in _ IHp), in_seq in Hx; lia.
Qed.

Lemma rank_order_fold :
  rank_order v
  = fold_left (fun q i => shift_in v i q) (seq 0 (List.length v)) [].
Proof. unfold rank_order, argsort; apply rev_involutive. Qed.

Lemma rank_order_perm :
  Permutation (rank_order v) (seq 0 (List.length v)).
Proof. rewrite rank_order_fold; apply fold_shift_in. Qed.

Lemma rank_order_sorted : StronglySorted (ranked_before v) (rank_order v).
Proof. rewrite rank_order_fold; apply fold_shift_in. Qed.

End Ranking.

Lemma StronglySorted_nth_error {A : Type} (P : A -> A -> Prop) (l : list A) :
  StronglySorted P l ->
  forall j k a b, (j < k)%nat ->
    nth_error l j = Some a -> nth_error l k = Some b -> P a b.
Proof.
  induction 1 as [|x l Hs IH Hx]; intros j k a b Hjk Hj Hk.
  - destruct j; discriminate.
  - destruct k as [|k]; [lia|]; simpl in Hk.
    destruct j as [|j]; simpl in Hj.
    + injection Hj as <-.
      rewrite Forall_forall in Hx; apply Hx.
      now apply nth_error_In with k.
    + apply (IH j k); auto; lia.
Qed.

(** C5 (as amended).  For finite scores, the rank order that both pipelines
    compute is a permutation of the row indices along which the scores never
    increase; rows with equal scores are not kept in catalogue order: on an
    array of at most sixteen rows they appear in the reverse of their
    catalogue order. *)
Theorem rank_order_descending (xs : list R) :
  let ranks := rank_order (map fin xs) in
  Permutation ranks (seq 0 (List.length xs))
  /\ (forall j a b,
        nth_error ranks j = Some a -> nth_error ranks (S j) = Some b ->
        nth a xs 0 >= nth b xs 0)
  /\ ((List.length xs <= 16)%nat ->
      forall j k a b, (j < k)%nat ->
        nth_error ranks j = Some a -> nth_error ranks k = Some b ->
        nth a xs 0 = nth b xs 0 -> (b < a)%nat).
Proof.
  intros ranks.
  pose proof (rank_order_perm (map fin xs)) as Hp.
  rewrite length_map in Hp; fold ranks in Hp.
  pose proof (StronglySorted_nth_error _ _ (rank_order_sorted (map fin xs)))
    as Hs; fold ranks in Hs.
  assert (Hkey : forall j a, nth_error ranks j = Some a ->
                             nth a (map fin xs) nan = fin (nth a xs 0)).
  { intros j a Hj.
    apply nth_error_In, (Permutation_in _ Hp), in_seq in Hj.
    rewrite (nth_indep _ nan (fin 0)) by (rewrite length_map; lia).
    apply map_nth. }
  split; [exact Hp|]; split.
  - intros j a b Ha Hb.
    destruct (Hs j (S j) a b (Nat.lt_succ_diag_r j) Ha Hb) as [H _].
    rewrite (Hkey _ _ Ha), (Hkey _ _ Hb) in H; simpl in H.
    destruct (Rlt_dec (nth a xs 0) (nth b xs 0)); [discriminate | lra].
  - intros _ j k a b Hjk Ha Hb Heq.
    destruct (Hs j k a b Hjk Ha Hb) as [_ H]; apply H.
    rewrite (Hkey _ _ Ha), (Hkey _ _ Hb), Heq; simpl.
    destruct (Rlt_dec (nth b xs 0) (nth b xs 0)); [lra | reflexivity].
Qed.

Lemma rank_order_descending_witness :
  let xs := [0.5; 2; 0.5] in
  rank_order (map fin xs) = [1%nat; 2%nat; 0%nat]
  /\ nth 1 xs 0 >= nth 2 xs 0
  /\ (0 < 2)%nat.
Proof.
  intros xs.
  assert (E : rank_order (map fin xs) = [1%nat; 2%nat; 0%nat]).
  { unfold rank_order, argsort, xs; simpl.
    repeat (rdec; simpl). reflexivity. }
  destruct (rank_order_descending xs) as (_ & Hd & Ht).
  split; [exact E|]; split.
  - apply (Hd 0%nat); rewrite E; reflexivity.
  - apply (Ht ltac:(simpl; lia) 1%nat 2%nat 2%nat 0%nat);
      try (rewrite E; reflexivity); [lia | reflexivity].
Defined.

(** C5, counterexample.  Two rows with the same score are ranked with the
    second row first: ties are not kept in catalogue order. *)
Lemma rank_order_ties_reversed :
  let x := [fin 1; fin 1] in
  rank_order x = [1%nat; 0%nat]
  /\ ~ (forall j k a b, (j < k)%nat ->
          nth_error (rank_order x) j = Some a ->
          nth_error (rank_order x) k = Some b ->
          nth a x nan = nth b x nan -> (a < b)%nat).
Proof.
  intros x.
  assert (E : rank_order x = [1%nat; 0%nat]).
  { unfold rank_order, argsort, x; simpl. rdec. reflexivity. }
  split; [exact E|].
  intros H; rewrite E in H.
  specialize (H 0%nat 1%nat 1%nat 0%nat Nat.lt_0_1 eq_refl eq_refl eq_refl).
  lia.
Qed.

(** ** The pipelines, row by row *)

Lemma K_band_nonzero : 2.2e-6 <> 0.
Proof. lra. Qed.

Lemma V_band_nonzero : 0.6e-6 <> 0.
Proof. lra. Qed.

Lemma emission_scores_rows (wav wav_ref : R) (obj_ref : string) (t : Table) :
  wav <> 0 -> wav_ref <> 0 ->
  emission_scores wav wav_ref obj_ref t
  = (snr_norm <- bdiv (map (snr_ec wav) (rows t))
                      (map (snr_ec wav_ref)
                           (filter (name_is obj_ref) (rows t))) ;;
     ret (mkEmissionCols (map Teq1 (rows t)) (map (fratio1 wav) (rows t))
            (map (snr_ec wav) (rows t))
            (map (snr_ec wav_ref) (filter (name_is obj_ref) (rows t)))
            snr_norm (rank_order snr_norm))).
Proof.
  intros Hw Hr; unfold emission_scores.
  rewrite Teq_rows.
  cbv zeta.
  fuse_cols.
  rewrite !planck_rows by (assumption || apply K_band_nonzero).
  cbn [bind ret].
  fuse_cols.
  reflexivity.
Qed.

Lemma planet_masses_rows (t : Table) :
  planet_masses t = map (mass1 t) (rows t).
Proof. reflexivity. Qed.

Lemma transmission_scores_rows (wav_vis wav_ir wav_ref : R)
  (obj_ref : string) (t : Table) :
  wav_vis <> 0 -> wav_ir <> 0 -> wav_ref <> 0 ->
  transmission_scores wav_vis wav_ir wav_ref obj_ref t
  = (snr_norm_vis <- bdiv (map (snr_vis1 wav_vis t) (rows t))
                          (map (snr_ref_vis1 wav_ref t)
                               (filter (name_is obj_ref) (rows t))) ;;
     snr_norm_ir <- bdiv (map (snr_ir1 wav_ir t) (rows t))
                         (map (snr_ref_ir1 wav_ref t)
                              (filter (name_is obj_ref) (rows t))) ;;
     ret (mkTransmissionCols (map Teq1 (rows t)) (map (mass1 t) (rows t))
            (map (Hatm1 t) (rows t)) (map depth_tr1 (rows t))
            (map (delta_tr1 t) (rows t))
            (map (snr_vis1 wav_vis t) (rows t))
            (map (snr_ir1 wav_ir t) (rows t))
            (map (snr_ref_vis1 wav_ref t)
                 (filter (name_is obj_ref) (rows t)))
            (map (snr_ref_ir1 wav_ref t)
                 (filter (name_is obj_ref) (rows t)))
            snr_norm_vis snr_norm_ir (rank_order snr_norm_vis))).
Proof.
  intros Hv Hi Hr; unfold transmission_scores.
  rewrite Teq_rows, planet_masses_rows.
  cbv zeta.
  fuse_cols.
  rewrite !planck_rows
    by (assumption || apply K_band_nonzero || apply V_band_nonzero).
  cbn [bind ret].
  fuse_cols.
  reflexivity.
Qed.

(** ** Positive values *)

Lemma pos_fin (x : R) : 0 < x -> pos (fin x).
Proof. intros Hx; now exists x. Qed.

Lemma pos_mul (a b : val) : pos a -> pos b -> pos (a * b)%val.
Proof.
  intros (x & -> & Hx) (y & -> & Hy); exists (x * y); split;
    [reflexivity | now apply Rmult_lt_0_compat].
Qed.

Lemma pos_div (a b : val) : pos a -> pos b -> pos (a / b)%val.
Proof.
  intros (x & -> & Hx) (y & -> & Hy); exists (x / y); split;
    [apply vdiv_fin; lra | now apply Rdiv_lt_0_compat].
Qed.

Lemma pos_sqrt (a : val) : pos a -> pos (vsqrt a).
Proof.
  intros (x & -> & Hx); exists (sqrt x); split;
    [apply vsqrt_fin; lra | now apply sqrt_lt_R0].
Qed.

Lemma planckR_pos (wav T : R) : 0 < wav -> 0 < T -> 0 < planckR wav T.
Proof.
  intros Hw HT; unfold planckR; apply Rdiv_lt_0_compat.
  - now apply planck_term1_pos.
  - now apply planck_term2_pos.
Qed.

Lemma pos_planck1 (wav : R) (T : val) : 0 < wav -> pos T -> pos (planck1 wav T).
Proof.
  intros Hw (x & -> & Hx); exists (planckR wav x); split;
    [now apply planck1_fin | now apply planckR_pos].
Qed.

Lemma pos_Teq1 (r : Row) : physical r -> pos (Teq1 r).
Proof.
  intros (HT & HR & _ & HA); unfold Teq1.
  apply pos_mul; [apply pos_sqrt|assumption].
  repeat (apply pos_div || apply pos_mul); auto using pos_fin with consts.
  apply pos_fin; lra.
Qed.

Lemma sqrt_flux_fin (m wav wav0 T : R) :
  0 < wav -> 0 < wav0 -> 0 < T ->
  sqrt_flux (fin m) wav wav0 (fin T)
  = fin (sqrt (Rpower 10
                 (- (m - 2.5 * (ln (planckR wav T / planckR wav0 T) / ln 10))
                  / 2.5))).
Proof.
  intros Hw Hw0 HT; unfold sqrt_flux.
  rewrite !planck1_fin by assumption.
  pose proof (planckR_pos wav T Hw HT) as H1.
  pose proof (planckR_pos wav0 T Hw0 HT) as H0.
  rewrite vdiv_fin by lra.
  rewrite vlog10_fin by now apply Rdiv_lt_0_compat.
  cbn [vmul vsub vneg fin option_map].
  change (Some 2.5) with (fin 2.5).
  match goal with |- context [vdiv (Some ?x) _] =>
    change (Some x) with (fin x) end.
  rewrite vdiv_fin by lra.
  cbn [vpow10 option_map fin].
  match goal with |- vsqrt (Some ?x) = _ => change (Some x) with (fin x) end.
  apply vsqrt_fin; left; apply exp_pos.
Qed.

Lemma pos_sqrt_flux (mag T : val) (wav wav0 : R) :
  isfinite mag = true -> 0 < wav -> 0 < wav0 -> pos T ->
  pos (sqrt_flux mag wav wav0 T).
Proof.
  intros Hm Hw Hw0 (x & -> & Hx).
  destruct mag as [m|]; [|discriminate].
  change (Some m) with (fin m); change (Some x) with (fin x).
  rewrite sqrt_flux_fin by assumption.
  apply pos_fin, sqrt_lt_R0, exp_pos.
Qed.

Lemma pos_ratio_sq (r : Row) :
  physical r ->
  pos ((t_R r * fin RJUP / (t_RSTAR r * fin RSUN))
       * (t_R r * fin RJUP / (t_RSTAR r * fin RSUN)))%val.
Proof.
  intros (_ & HR & Hp & _).
  repeat (apply pos_div || apply pos_mul); auto using pos_fin with consts.
Qed.

Lemma pos_fratio1 (wav : R) (r : Row) :
  0 < wav -> physical r -> pos (fratio1 wav r).
Proof.
  intros Hw Hr; unfold fratio1.
  apply pos_mul; [|now apply pos_ratio_sq].
  apply pos_div; apply pos_planck1; auto using pos_Teq1.
  apply Hr.
Qed.

Lemma pos_snr_ec (wav : R) (r : Row) :
  0 < wav -> physical r -> isfinite (t_KS r) = true -> pos (snr_ec wav r).
Proof.
  intros Hw Hr Hk; unfold snr_ec.
  apply pos_mul; [|now apply pos_fratio1].
  apply pos_sqrt_flux; auto; [lra | apply Hr].
Qed.

Lemma pos_delta_tr1 (t : Table) (r : Row) :
  physical r -> pos (mass1 t r) -> pos (delta_tr1 t r).
Proof.
  intros Hr Hm; pose proof (pos_Teq1 r Hr) as HT.
  destruct Hr as (_ & HR & Hp & _).
  unfold delta_tr1, Hatm1, little_g1.
  revert HT; generalize (Teq1 r); intros T HT.
  revert Hm; generalize (mass1 t r); intros m Hm.
  repeat (apply pos_div || apply pos_mul); auto using pos_fin with consts.
  apply pos_fin; lra.
Qed.


Lemma bdiv_singleton (xs : arr) (y : val) :
  bdiv xs [y] = ret (map (fun x => vdiv x y) xs).
Proof. destruct xs as [|x [|x' xs]]; reflexivity. Qed.

(** ** The score of the reference row *)

Lemma micron_pos (w : R) : 0 < w -> 0 < w / 1e6.
Proof. intros H; lra. Qed.

Lemma nth_error_bdiv_singleton (xs : arr) (y : val) (k : nat) (x : val) :
  nth_error xs k = Some x ->
  exists zs, bdiv xs [y] = ret zs /\ nth_error zs k = Some (x / y)%val.
Proof.
  intros Hk; rewrite bdiv_singleton; eexists; split; [reflexivity|].
  now rewrite nth_error_map, Hk.
Qed.

Lemma reference_has_magnitudes (obj_ref : string) (t : Table) (r : Row) :
  filter (name_is obj_ref) (rows t) = [r] ->
  reference_lacks_magnitude obj_ref t
  = ret (negb (isfinite (t_KS r)) || negb (isfinite (t_V r))).
Proof.
  intros Hf; unfold reference_lacks_magnitude; fuse_cols.
  change (fun x : Row => String.eqb (t_NAME x) obj_ref)
    with (name_is obj_ref).
  rewrite Hf; simpl.
  now destruct (isfinite (t_KS r)).
Qed.


Lemma transmission_scores_reference (wav_vis wav_ir wav_ref : R)
  (obj_ref : string) (t : Table) (k : nat) (r : Row) :
  wav_vis <> 0 -> wav_ir <> 0 -> wav_ref <> 0 ->
  is_reference obj_ref t k r ->
  exists c, transmission_scores wav_vis wav_ir wav_ref obj_ref t = ret c
            /\ nth_error (tc_snr_norm_vis c) k
               = Some (snr_vis1 wav_vis t r / snr_ref_vis1 wav_ref t r)%val
            /\ nth_error (tc_snr_norm_ir c) k
               = Some (snr_ir1 wav_ir t r / snr_ref_ir1 wav_ref t r)%val.
Proof.
  intros Hv Hi Hr [Hk Hf].
  rewrite transmission_scores_rows by assumption; rewrite Hf; simpl map.
  destruct (nth_error_bdiv_singleton (map (snr_vis1 wav_vis t) (rows t))
              (snr_ref_vis1 wav_ref t r) k (snr_vis1 wav_vis t r))
    as (zv & -> & Hzv).
  { now rewrite nth_error_map, Hk. }
  destruct (nth_error_bdiv_singleton (map (snr_ir1 wav_ir t) (rows t))
              (snr_ref_ir1 wav_ref t r) k (snr_ir1 wav_ir t r))
    as (zi & -> & Hzi).
  { now rewrite nth_error_map, Hk. }
  eexists; split; [reflexivity|]; simpl; now split.
Qed.



Lemma WASP19b_physical : physical WASP19b.
Proof. repeat split; apply pos_fin; lra. Qed.

Lemma filter_transmission_sample :
  rows (filter_table "transmission" (mkTable true [WASP19b; HD189733b]))
  = [WASP19b; HD189733b].
Proof.
  rewrite filter_table_transmission.
  unfold required_transmission, positive_mass, base_fields; simpl.
  rdec; reflexivity.
Qed.




Lemma exp_4_le : exp 4 <= 81.
Proof.
  replace 4 with (1 + 1 + (1 + 1)) by lra.
  rewrite !exp_plus.
  pose proof exp_le_3 as H3. pose proof (exp_pos 1) as H0.
  assert (exp 1 * exp 1 <= 9) by nra.
  assert (0 < exp 1 * exp 1) by nra.
  nra.
Qed.

Lemma planck_exponent_vis : HPLANCK * C / KB / (0.7 / 1e6) / 5500 < 4.
Proof. unfold HPLANCK, C, KB; lra. Qed.

Lemma planck_exponent_K : 1 < HPLANCK * C / KB / 2.2e-6 / 5500.
Proof. unfold HPLANCK, C, KB; lra. Qed.

Lemma planckR_vis_gt_K : planckR 2.2e-6 5500 < planckR (0.7 / 1e6) 5500.
Proof.
  unfold planckR.
  pose proof planck_exponent_vis as Hv.
  pose proof planck_exponent_K as Hk.
  set (xv := HPLANCK * C / KB / (0.7 / 1e6) / 5500) in *.
  set (xk := HPLANCK * C / KB / 2.2e-6 / 5500) in *.
  assert (Ev : exp xv - 1 < 80).
  { pose proof exp_4_le. pose proof (exp_increasing _ _ Hv). lra. }
  assert (Ev0 : 0 < exp xv - 1).
  { apply (planck_term2_pos (0.7 / 1e6) 5500); lra. }
  assert (Ek : 1 < exp xk - 1).
  { assert (H : xk <> 0) by lra. pose proof (exp_ineq1 xk H). lra. }
  assert (Hc : 0 < 2 * HPLANCK * C ^ 2).
  { pose proof HPLANCK_pos; pose proof C_pos.
    assert (0 < C ^ 2) by (apply pow_lt; assumption). nra. }
  set (c1 := 2 * HPLANCK * C ^ 2) in *.
  assert (W : (2.2e-6) ^ 5 * 1 > 80 * (0.7 / 1e6) ^ 5) by (simpl pow; lra).
  assert (Wv : 0 < (0.7 / 1e6) ^ 5) by (apply pow_lt; lra).
  assert (Wk : 0 < (2.2e-6) ^ 5) by (apply pow_lt; lra).
  set (wv := (0.7 / 1e6) ^ 5) in *.
  set (wk := (2.2e-6) ^ 5) in *.
  replace (c1 / wk / (exp xk - 1)) with (c1 / (wk * (exp xk - 1)))
    by (field; lra).
  replace (c1 / wv / (exp xv - 1)) with (c1 / (wv * (exp xv - 1)))
    by (field; lra).
  unfold Rdiv; apply Rmult_lt_compat_l; [assumption|].
  assert (0 < wv * (exp xv - 1)) by (apply Rmult_lt_0_compat; lra).
  assert (0 < wk * (exp xk - 1)) by (apply Rmult_lt_0_compat; lra).
  apply Rinv_lt_contravar; [now apply Rmult_lt_0_compat|].
  apply Rlt_trans with (wv * 80); [apply Rmult_lt_compat_l; lra|].
  apply Rlt_trans with (wk * 1); [lra|].
  apply Rmult_lt_compat_l; lra.
Qed.

Lemma ln_10_pos : 0 < ln 10.
Proof. rewrite <- ln_1; apply ln_increasing; lra. Qed.

Lemma sqrt_flux_order (m1 m2 w1 w2 w0 T : R) :
  0 < w1 -> 0 < w2 -> 0 < w0 -> 0 < T ->
  m2 <= m1 -> planckR w1 T <= planckR w2 T ->
  m2 < m1 \/ planckR w1 T < planckR w2 T ->
  exists a b,
    sqrt_flux (fin m1) w1 w0 (fin T) = fin a
    /\ sqrt_flux (fin m2) w2 w0 (fin T) = fin b
    /\ 0 < a /\ a < b.
Proof.
  intros H1 H2 H0 HT Hm HP Hstrict.
  rewrite !sqrt_flux_fin by assumption.
  eexists; eexists; split; [reflexivity|]; split; [reflexivity|].
  pose proof (planckR_pos w1 T H1 HT) as P1.
  pose proof (planckR_pos w0 T H0 HT) as P0.
  pose proof ln_10_pos as H10.
  split; [apply sqrt_lt_R0, exp_pos|].
  apply sqrt_lt_1; try (left; apply exp_pos).
  apply Rpower_lt; [lra|].
  set (q1 := planckR w1 T / planckR w0 T).
  set (q2 := planckR w2 T / planckR w0 T).
  assert (Hq1 : 0 < q1) by now apply Rdiv_lt_0_compat.
  assert (Hq : q1 <= q2 /\ (planckR w1 T < planckR w2 T -> q1 < q2)).
  { unfold q1, q2, Rdiv; split; [apply Rmult_le_compat_r | intros Hlt;
      apply Rmult_lt_compat_r]; try assumption;
      try (left; now apply Rinv_0_lt_compat); now apply Rinv_0_lt_compat. }
  destruct Hq as [Hle Hlt].
  assert (Hln : ln q1 <= ln q2
                /\ (planckR w1 T < planckR w2 T -> ln q1 < ln q2)).
  { split; [|intros Hs; apply ln_increasing; auto].
    destruct Hle as [Hs | ->]; [left; now apply ln_increasing | right;
      reflexivity]. }
  destruct Hln as [Lle Llt].
  assert (Dle : ln q1 / ln 10 <= ln q2 / ln 10).
  { unfold Rdiv; apply Rmult_le_compat_r;
      [left; now apply Rinv_0_lt_compat | assumption]. }
  destruct Hstrict as [Hs | Hs]; [lra|].
  assert (Dlt : ln q1 / ln 10 < ln q2 / ln 10).
  { unfold Rdiv; apply Rmult_lt_compat_r;
      [now apply Rinv_0_lt_compat | auto]. }
  lra.
Qed.


(** C1: for the infrared transmission score the infrared wavelength must be
    the reference wavelength.  With the infrared wavelength at 0.7 micron
    and the reference wavelength at 2.2 micron the reference row gets an
    infrared score above 1. *)
Lemma infrared_score_of_reference_off_wavelength :
  let t := filter_table "transmission" (mkTable true [WASP19b; HD189733b]) in
  is_reference "WASP-19 b" t 0 WASP19b
  /\ exists c x,
       transmission_scores (0.7 / 1e6) (0.7 / 1e6) (2.2 / 1e6)
                           "WASP-19 b" t = ret c
       /\ nth_error (tc_snr_norm_ir c) 0 = Some (fin x)
       /\ 1 < x.
Proof.
  intros t.
  assert (Href : is_reference "WASP-19 b" t 0 WASP19b).
  { split; unfold t; rewrite filter_transmission_sample; reflexivity. }
  split; [exact Href|].
  destruct (transmission_scores_reference (0.7 / 1e6) (0.7 / 1e6)
              (2.2 / 1e6) "WASP-19 b" t 0 WASP19b) as (c & Hc & _ & Hir);
    try lra; auto.
  destruct (pos_delta_tr1 t WASP19b WASP19b_physical) as (d & Hd & Hdpos).
  { apply pos_fin; lra. }
  destruct (sqrt_flux_order 10.48 10.48 (2.2 / 1e6) (0.7 / 1e6) 2.2e-6 5500)
    as (b & a & Hb & Ha & Hb0 & Hab); try lra.
  { replace (2.2 / 1e6) with 2.2e-6 by lra; left; apply planckR_vis_gt_K. }
  { right; replace (2.2 / 1e6) with 2.2e-6 by lra; apply planckR_vis_gt_K. }
  unfold snr_ir1, snr_ref_ir1 in Hir; rewrite Hd in Hir.
  change (t_KS WASP19b) with (fin 10.48) in Hir.
  change (t_TEFF WASP19b) with (fin 5500) in Hir.
  cbn [isfinite negb fin] in Hir.
  change (Some 10.48) with (fin 10.48) in Hir.
  change (Some 5500) with (fin 5500) in Hir.
  rewrite Ha, Hb in Hir.
  cbn [vmul fin] in Hir.
  change (Some (a * d)) with (fin (a * d)) in Hir.
  change (Some (b * d)) with (fin (b * d)) in Hir.
  rewrite vdiv_fin in Hir by nra.
  exists c, (a * d / (b * d)); split; [exact Hc|]; split; [exact Hir|].
  apply Rmult_lt_reg_r with (b * d); [nra|].
  unfold Rdiv; rewrite Rmult_assoc, Rinv_l; nra.
Qed.

(** C1: for the visible transmission score the magnitudes matter.  With
    every wavelength at 2.2 micron the reference row still gets a visible
    score above 1, because its own score uses its K magnitude and the
    reference score its fainter V magnitude. *)
Lemma visible_score_of_reference_same_wavelength :
  let t := filter_table "transmission" (mkTable true [WASP19b; HD189733b]) in
  is_reference "WASP-19 b" t 0 WASP19b
  /\ exists c x,
       transmission_scores (2.2 / 1e6) (2.2 / 1e6) (2.2 / 1e6)
                           "WASP-19 b" t = ret c
       /\ nth_error (tc_snr_norm_vis c) 0 = Some (fin x)
       /\ 1 < x.
Proof.
  intros t.
  assert (Href : is_reference "WASP-19 b" t 0 WASP19b).
  { split; unfold t; rewrite filter_transmission_sample; reflexivity. }
  split; [exact Href|].
  destruct (transmission_scores_reference (2.2 / 1e6) (2.2 / 1e6)
              (2.2 / 1e6) "WASP-19 b" t 0 WASP19b) as (c & Hc & Hvis & _);
    try lra; auto.
  destruct (pos_delta_tr1 t WASP19b WASP19b_physical) as (d & Hd & Hdpos).
  { apply pos_fin; lra. }
  destruct (sqrt_flux_order 12.31 10.48 (2.2 / 1e6) (2.2 / 1e6) 2.2e-6 5500)
    as (b & a & Hb & Ha & Hb0 & Hab); try lra.
  unfold snr_vis1, snr_ref_vis1 in Hvis; rewrite Hd in Hvis.
  change (t_KS WASP19b) with (fin 10.48) in Hvis.
  change (t_V WASP19b) with (fin 12.31) in Hvis.
  change (t_TEFF WASP19b) with (fin 5500) in Hvis.
  cbn [isfinite negb fin] in Hvis.
  change (Some 10.48) with (fin 10.48) in Hvis.
  change (Some 12.31) with (fin 12.31) in Hvis.
  change (Some 5500) with (fin 5500) in Hvis.
  rewrite Ha, Hb in Hvis.
  cbn [vmul fin] in Hvis.
  change (Some (a * d)) with (fin (a * d)) in Hvis.
  change (Some (b * d)) with (fin (b * d)) in Hvis.
  rewrite vdiv_fin in Hvis by nra.
  exists c, (a * d / (b * d)); split; [exact Hc|]; split; [exact Hvis|].
  apply Rmult_lt_reg_r with (b * d); [nra|].
  unfold Rdiv; rewrite Rmult_assoc, Rinv_l; nra.
Qed.

Lemma flux_closed_form (m q : R) :
  0 < q ->
  Rpower 10 (- (m - 2.5 * (ln q / ln 10)) / 2.5) = Rpower 10 (- m / 2.5) * q.
Proof.
  intros Hq; pose proof ln_10_pos as H10.
  replace (- (m - 2.5 * (ln q / ln 10)) / 2.5)
    with (- m / 2.5 + ln q / ln 10) by (field; lra).
  rewrite Rpower_plus; f_equal.
  unfold Rpower.
  replace (ln q / ln 10 * ln 10) with (ln q) by (field; lra).
  now apply exp_ln.
Qed.

Lemma planckR_half_wavelength (wr T : R) :
  0 < wr -> 0 < T ->
  planckR (wr / 2) T
  = 32 * (2 * HPLANCK * C ^ 2 / wr ^ 5)
    / (exp (HPLANCK * C / KB / wr / T) * exp (HPLANCK * C / KB / wr / T) - 1).
Proof.
  intros Hw HT; unfold planckR.
  replace (HPLANCK * C / KB / (wr / 2) / T)
    with (HPLANCK * C / KB / wr / T + HPLANCK * C / KB / wr / T)
    by (unfold KB; field; lra).
  rewrite exp_plus.
  f_equal.
  field; lra.
Qed.

Lemma contrast_inequality (c Es Ee : R) :
  0 < c -> 2 <= Es -> Es ^ 4 <= Ee ->
  (32 * c / (Ee * Ee - 1)) ^ 2 / (32 * c / (Es * Es - 1))
  < (c / (Ee - 1)) ^ 2 / (c / (Es - 1)).
Proof.
  intros Hc Hs He.
  assert (H4 : 4 <= Es * Es) by nra.
  assert (Hq : Es ^ 4 = (Es * Es) * (Es * Es)) by ring.
  assert (H16 : 16 <= Es ^ 4) by (rewrite Hq; nra).
  assert (He1 : 0 < Ee - 1) by lra.
  assert (Hs1 : 0 < Es - 1) by lra.
  replace ((32 * c / (Ee * Ee - 1)) ^ 2 / (32 * c / (Es * Es - 1)))
    with (c * (Es - 1) / ((Ee - 1) * (Ee - 1))
          * (32 * (Es + 1) / ((Ee + 1) * (Ee + 1))))
    by (field; nra).
  replace ((c / (Ee - 1)) ^ 2 / (c / (Es - 1)))
    with (c * (Es - 1) / ((Ee - 1) * (Ee - 1)) * 1) by (field; lra).
  apply Rmult_lt_compat_l.
  - apply Rdiv_lt_0_compat; nra.
  - apply Rmult_lt_reg_r with ((Ee + 1) * (Ee + 1)); [nra|].
    unfold Rdiv; rewrite Rmult_assoc, Rinv_l by nra.
    assert (Es + 1 <= Ee) by (rewrite Hq in He; nra).
    nra.
Qed.

Lemma snr_ec_fin (w : R) (r : Row) (ks ts rs rp a : R) :
  t_KS r = Some ks -> t_TEFF r = Some ts -> t_RSTAR r = Some rs ->
  t_R r = Some rp -> t_A r = Some a ->
  0 < w -> 0 < ts -> 0 < rs -> 0 < rp -> 0 < a ->
  let Te := sqrt (rs * RSUN / (2 * (a * AU2M))) * ts in
  let rr := rp * RJUP / (rs * RSUN) in
  0 < Te
  /\ snr_ec w r
     = fin (sqrt (Rpower 10 (- ks / 2.5) * (planckR w ts / planckR 2.2e-6 ts))
            * (planckR w Te / planckR w ts * (rr * rr))).
Proof.
  intros HK HT HR Hp HA Hw Hts Hrs Hrp Ha Te rr.
  pose proof RSUN_pos; pose proof RJUP_pos; pose proof AU2M_pos.
  assert (HTe : 0 < Te).
  { unfold Te; apply Rmult_lt_0_compat; [|assumption].
    apply sqrt_lt_R0, Rdiv_lt_0_compat; nra. }
  split; [exact HTe|].
  unfold snr_ec, fratio1.
  rewrite (Teq1_fin r rs a ts) by (assumption || lra); fold Te.
  rewrite HK, HT, HR, Hp.
  change (Some ks) with (fin ks); change (Some ts) with (fin ts);
    change (Some rs) with (fin rs); change (Some rp) with (fin rp).
  rewrite sqrt_flux_fin by lra.
  rewrite !planck1_fin by assumption.
  pose proof (planckR_pos w ts Hw Hts) as Pw.
  pose proof (planckR_pos w Te Hw HTe) as PwE.
  assert (P0 : 0 < planckR 2.2e-6 ts) by (apply planckR_pos; lra).
  rewrite flux_closed_form by now apply Rdiv_lt_0_compat.
  rewrite vdiv_fin by lra.
  cbn [vmul fin].
  change (Some (rp * RJUP)) with (fin (rp * RJUP)).
  change (Some (rs * RSUN)) with (fin (rs * RSUN)).
  rewrite vdiv_fin by nra.
  reflexivity.
Qed.

Lemma snr_sq (K P0 Pw PwE rr2 : R) :
  0 < K -> 0 < P0 -> 0 < Pw -> 0 < PwE -> 0 < rr2 ->
  let S := sqrt (K * (Pw / P0)) * (PwE / Pw * rr2) in
  0 < S /\ S * S = K * (rr2 * rr2) / P0 * (PwE ^ 2 / Pw).
Proof.
  intros HK HP0 HPw HPwE Hrr S.
  assert (Hq : 0 < K * (Pw / P0)).
  { apply Rmult_lt_0_compat; [|apply Rdiv_lt_0_compat]; assumption. }
  split.
  - unfold S; apply Rmult_lt_0_compat; [now apply sqrt_lt_R0|].
    apply Rmult_lt_0_compat; [now apply Rdiv_lt_0_compat | assumption].
  - unfold S.
    replace (sqrt (K * (Pw / P0)) * (PwE / Pw * rr2)
             * (sqrt (K * (Pw / P0)) * (PwE / Pw * rr2)))
      with (sqrt (K * (Pw / P0)) * sqrt (K * (Pw / P0))
            * ((PwE / Pw * rr2) * (PwE / Pw * rr2))) by ring.
    rewrite sqrt_sqrt by lra.
    field; lra.
Qed.

(** C1: in emission the wavelength must be the reference wavelength.  With
    HD 189733 b as the reference, a run at 1.1 micron normalised at 2.2
    micron gives the reference row a score below 1. *)
Lemma emission_score_of_reference_off_wavelength :
  let t := filter_table "emission" (mkTable true [WASP19b; HD189733b]) in
  is_reference "HD 189733 b" t 1 HD189733b
  /\ exists c x,
       emission_scores (1.1 / 1e6) (2.2 / 1e6) "HD 189733 b" t = ret c
       /\ nth_error (ec_snr_norm c) 1 = Some (fin x)
       /\ x < 1.
Proof.
  intros t.
  assert (Hrows : rows t = [WASP19b; HD189733b]) by reflexivity.
  clearbody t.
  assert (Href : is_reference "HD 189733 b" t 1 HD189733b)
    by (split; rewrite Hrows; reflexivity).
  split; [exact Href|].
  destruct Href as [Hk Hf].
  rewrite emission_scores_rows by lra; rewrite Hf; cbn [map].
  destruct (nth_error_bdiv_singleton
              (map (snr_ec (1.1 / 1e6)) (rows t))
              (snr_ec (2.2 / 1e6) HD189733b) 1
              (snr_ec (1.1 / 1e6) HD189733b)) as (zs & -> & Hz).
  { now rewrite nth_error_map, Hk. }
  cbn [bind ret].
  destruct (snr_ec_fin (1.1 / 1e6) HD189733b 5.54 5040 0.76 1.14 0.031)
    as [HTe Hw]; try reflexivity; try lra.
  destruct (snr_ec_fin (2.2 / 1e6) HD189733b 5.54 5040 0.76 1.14 0.031)
    as [_ Hr]; try reflexivity; try lra.
  cbv zeta in HTe, Hw, Hr.
  set (Te := sqrt (0.76 * RSUN / (2 * (0.031 * AU2M))) * 5040) in *.
  set (rr := 1.14 * RJUP / (0.76 * RSUN)) in *.
  match type of Hw with
  | context [Rpower 10 ?e] => set (K := Rpower 10 e) in *
  end.
  (* bounds on the temperatures *)
  assert (HTe4 : Te * 4 <= 5040).
  { unfold Te.
    assert (sqrt (0.76 * RSUN / (2 * (0.031 * AU2M))) <= sqrt ((1 / 4) * (1 / 4))).
    { apply sqrt_le_1_alt; unfold RSUN, AU2M; lra. }
    rewrite sqrt_square in H by lra. lra. }
  set (xs := HPLANCK * C / KB / (2.2 / 1e6) / 5040).
  set (xe := HPLANCK * C / KB / (2.2 / 1e6) / Te).
  assert (Hxs : 1 <= xs) by (unfold xs, HPLANCK, C, KB; lra).
  assert (Hxe : 4 * xs <= xe).
  { unfold xe, xs.
    assert (Hc : 0 < HPLANCK * C / KB / (2.2 / 1e6)).
    { pose proof (planck_exponent_pos (2.2 / 1e6) 1 ltac:(lra) Rlt_0_1) as Hx.
      now rewrite Rdiv_1_r in Hx. }
    set (c2 := HPLANCK * C / KB / (2.2 / 1e6)) in *.
    apply Rmult_le_reg_r with Te; [assumption|].
    replace (c2 / Te * Te) with c2 by (field; lra).
    replace (4 * (c2 / 5040) * Te) with (c2 * (Te * 4 / 5040)) by (field; lra).
    rewrite <- (Rmult_1_r c2) at 2.
    apply Rmult_le_compat_l; lra. }
  assert (HEs : 2 <= exp xs).
  { pose proof (exp_ineq1 xs ltac:(lra)). lra. }
  assert (HEe : exp xs ^ 4 <= exp xe).
  { replace (exp xs ^ 4) with (exp (4 * xs)).
    - destruct Hxe as [Hlt | ->]; [left; now apply exp_increasing | right; reflexivity].
    - replace (4 * xs) with (xs + xs + (xs + xs)) by ring.
      rewrite !exp_plus; ring. }
  (* the Planck values *)
  assert (Hc1 : 0 < 2 * HPLANCK * C ^ 2 / (2.2 / 1e6) ^ 5)
    by (apply planck_term1_pos; lra).
  set (c1 := 2 * HPLANCK * C ^ 2 / (2.2 / 1e6) ^ 5) in *.
  assert (PwS : planckR (1.1 / 1e6) 5040 = 32 * c1 / (exp xs * exp xs - 1)).
  { replace (1.1 / 1e6) with (2.2 / 1e6 / 2) by lra.
    apply planckR_half_wavelength; lra. }
  assert (PwE : planckR (1.1 / 1e6) Te = 32 * c1 / (exp xe * exp xe - 1)).
  { replace (1.1 / 1e6) with (2.2 / 1e6 / 2) by lra.
    apply planckR_half_wavelength; lra. }
  assert (PrS : planckR (2.2 / 1e6) 5040 = c1 / (exp xs - 1)) by reflexivity.
  assert (PrE : planckR (2.2 / 1e6) Te = c1 / (exp xe - 1)) by reflexivity.
  pose proof (contrast_inequality c1 (exp xs) (exp xe) Hc1 HEs HEe) as Hineq.
  rewrite <- PwS, <- PwE, <- PrS, <- PrE in Hineq.
  (* the two scores *)
  assert (HK : 0 < K) by apply exp_pos.
  assert (HP0 : 0 < planckR 2.2e-6 5040) by (apply planckR_pos; lra).
  assert (Hrr : 0 < rr * rr).
  { pose proof RSUN_pos; pose proof RJUP_pos.
    assert (0 < rr) by (unfold rr; apply Rdiv_lt_0_compat; lra). nra. }
  destruct (snr_sq K (planckR 2.2e-6 5040)
              (planckR (1.1 / 1e6) 5040) (planckR (1.1 / 1e6) Te) (rr * rr))
    as [HA HA2]; try assumption; try (apply planckR_pos; lra).
  destruct (snr_sq K (planckR 2.2e-6 5040)
              (planckR (2.2 / 1e6) 5040) (planckR (2.2 / 1e6) Te) (rr * rr))
    as [HB HB2]; try assumption; try (apply planckR_pos; lra).
  cbv zeta in HA, HA2, HB, HB2.
  set (A := sqrt (K * (planckR (1.1 / 1e6) 5040 / planckR 2.2e-6 5040))
            * (planckR (1.1 / 1e6) Te / planckR (1.1 / 1e6) 5040 * (rr * rr)))
    in *.
  set (B := sqrt (K * (planckR (2.2 / 1e6) 5040 / planckR 2.2e-6 5040))
            * (planckR (2.2 / 1e6) Te / planckR (2.2 / 1e6) 5040 * (rr * rr)))
    in *.
  assert (HAB : A * A < B * B).
  { rewrite HA2, HB2.
    apply Rmult_lt_compat_l; [|exact Hineq].
    apply Rdiv_lt_0_compat; [|assumption].
    apply Rmult_lt_0_compat; [assumption|].
    now apply Rmult_lt_0_compat. }
  assert (Hlt : A < B).
  { destruct (Rlt_le_dec A B) as [|Hle]; [assumption|].
    exfalso; apply (Rlt_irrefl (A * A)).
    apply Rlt_le_trans with (B * B); [assumption|].
    apply Rmult_le_compat; lra. }
  exists (mkEmissionCols (map Teq1 (rows t))
            (map (fratio1 (1.1 / 1e6)) (rows t))
            (map (snr_ec (1.1 / 1e6)) (rows t))
            [snr_ec (2.2 / 1e6) HD189733b] zs (rank_order zs)), (A / B).
  split; [reflexivity|]; split.
  - cbn [ec_snr_norm]; rewrite Hz, Hw, Hr; apply f_equal, vdiv_fin; lra.
  - apply Rmult_lt_reg_r with B; [assumption|].
    unfold Rdiv; rewrite Rmult_assoc, Rinv_l; lra.
Qed.

(** ** Rows without a K magnitude *)

Lemma vmul_nan_r (a : val) : (a * nan)%val = nan.
Proof. now destruct a. Qed.

Lemma vdiv_nan_r (a : val) : (a / nan)%val = nan.
Proof. now destruct a. Qed.

(** C2.  In the transmission pipeline a row without a K magnitude gets its
    visible raw score from the V magnitude and the 0.6 micron reference
    wavelength, but its infrared raw score is computed from the undefined K
    magnitude and is [nan], and so is its normalised infrared score. *)
Theorem infrared_score_of_row_without_K (wav_vis wav_ir wav_ref : R)
  (obj_ref : string) (t : Table) (kr k : nat) (rr r : Row) :
  wav_vis <> 0 -> wav_ir <> 0 -> wav_ref <> 0 ->
  is_reference obj_ref t kr rr ->
  nth_error (rows t) k = Some r -> t_KS r = nan ->
  exists c,
    transmission_scores wav_vis wav_ir wav_ref obj_ref t = ret c
    /\ nth_error (tc_snr_unnorm_vis c) k
       = Some (sqrt_flux (t_V r) wav_vis 0.6e-6 (t_TEFF r) * delta_tr1 t r)%val
    /\ nth_error (tc_snr_unnorm_ir c) k = Some nan
    /\ nth_error (tc_snr_norm_ir c) k = Some nan.
Proof.
  intros Hv Hi Hr [Hkr Hf] Hk HK.
  rewrite transmission_scores_rows by assumption; rewrite Hf; simpl map.
  rewrite !bdiv_singleton; cbn [bind ret].
  eexists; split; [reflexivity|]; simpl.
  rewrite !nth_error_map, Hk; simpl.
  unfold snr_vis1, snr_ir1; rewrite HK; simpl.
  repeat split; reflexivity.
Qed.

Lemma filter_transmission_no_K :
  rows (filter_table "transmission" (mkTable true [WASP19b; no_K_planet]))
  = [WASP19b; no_K_planet].
Proof.
  rewrite filter_table_transmission.
  unfold required_transmission, positive_mass, base_fields; simpl.
  rdec; reflexivity.
Qed.

Lemma infrared_score_of_row_without_K_witness :
  let t := filter_table "transmission" (mkTable true [WASP19b; no_K_planet]) in
  exists c,
    transmission_scores (0.7 / 1e6) (2.2 / 1e6) (2.2 / 1e6) "WASP-19 b" t
    = ret c
    /\ nth_error (tc_snr_unnorm_vis c) 1
       = Some (sqrt_flux (t_V no_K_planet) (0.7 / 1e6) 0.6e-6
                         (t_TEFF no_K_planet)
               * delta_tr1 t no_K_planet)%val
    /\ nth_error (tc_snr_unnorm_ir c) 1 = Some nan
    /\ nth_error (tc_snr_norm_ir c) 1 = Some nan.
Proof.
  intros t.
  apply (infrared_score_of_row_without_K (0.7 / 1e6) (2.2 / 1e6) (2.2 / 1e6)
           "WASP-19 b" t 0 1 WASP19b no_K_planet); try lra.
  - split; unfold t; rewrite filter_transmission_no_K; reflexivity.
  - unfold t; rewrite filter_transmission_no_K; reflexivity.
  - reflexivity.
Defined.

(** The score that the V magnitude and the 0.6 micron reference wavelength
    would give that row in the infrared is a finite positive number. *)
Lemma infrared_score_from_V_is_finite :
  let t := filter_table "transmission" (mkTable true [WASP19b; no_K_planet]) in
  pos (sqrt_flux (t_V no_K_planet) (2.2 / 1e6) 0.6e-6 (t_TEFF no_K_planet)
       * delta_tr1 t no_K_planet)%val.
Proof.
  intros t.
  assert (Hp : physical no_K_planet) by (repeat split; apply pos_fin; lra).
  apply pos_mul.
  - apply pos_sqrt_flux; try reflexivity; try lra; apply Hp.
  - apply pos_delta_tr1; [exact Hp | apply pos_fin; lra].
Qed.

(** ** Rows without a mass *)

Lemma filter_transmission_no_mass :
  rows (filter_table "transmission" (mkTable true [WASP19b; no_mass_planet]))
  = [WASP19b; no_mass_planet].
Proof.
  rewrite filter_table_transmission.
  unfold required_transmission, positive_mass, base_fields; simpl.
  rdec; reflexivity.
Qed.

Lemma delta_tr1_no_mass (t : Table) (r : Row) :
  mass1 t r = nan -> Hatm1 t r = nan /\ delta_tr1 t r = nan.
Proof.
  intros Hm.
  assert (H : Hatm1 t r = nan).
  { unfold Hatm1, little_g1; rewrite Hm; simpl; apply vdiv_nan_r. }
  split; [exact H|].
  unfold delta_tr1; rewrite H, vmul_nan_r; reflexivity.
Qed.

Lemma float_str_cases (s : string) :
  float_str s = raise ValueError \/ exists d, float_str s = ret d.
Proof.
  unfold float_str.
  destruct (parse_float s); [right; eexists; reflexivity | now left].
Qed.

Lemma make_outstr_tr_nan_hatm {E : Ephem} (rank : nat)
  (name ra dec : string) (vmag kmag : mag_str)
  (rstar rp tpeq depth_tr delta_tr snr_norm_vis snr_norm_ir : val) :
  make_outstr_tr rank name ra dec vmag kmag rstar rp tpeq nan depth_tr
                 delta_tr snr_norm_vis snr_norm_ir
  = raise ValueError.
Proof.
  unfold make_outstr_tr.
  destruct (hours_str ra); [|reflexivity].
  destruct (degrees_str dec); [|reflexivity].
  cbn [str_angle bind ret].
  destruct (float_str_cases dec) as [-> | [d ->]]; [reflexivity|].
  cbn [bind ret].
  destruct tpeq; reflexivity.
Qed.

(** C6.  A row of a catalogue with a [MASS] column whose mass is undefined
    and whose minimum mass is defined and positive passes the transmission
    filter, but the mass loop gives it the undefined mass, not the minimum
    mass: its scale height is [nan], and the default run stops with a
    [ValueError] on the first line of the report. *)
Theorem undefined_mass_is_not_replaced {E : Ephem} :
  let catalog := mkTable true [WASP19b; no_mass_planet] in
  let t := filter_table "transmission" catalog in
  rows t = [WASP19b; no_mass_planet]
  /\ t_MSINI no_mass_planet = fin 3.2
  /\ planet_masses t = [fin 1.11; nan]
  /\ map (Hatm1 t) (rows t) = [Hatm1 t WASP19b; nan]
  /\ transmission 0.7 2.2 2.2 "WASP-19 b" "signals_transits.txt" catalog
     = Crashed ValueError
         (Some (make_header_tr 2 (0.7 / 1e6) (2.2 / 1e6) (2.2 / 1e6)
                               "WASP-19 b" 1, [])).
Proof.
  intros catalog t.
  assert (Hrows : rows t = [WASP19b; no_mass_planet])
    by apply filter_transmission_no_mass.
  assert (Hm : mass1 t no_mass_planet = nan) by reflexivity.
  destruct (delta_tr1_no_mass t no_mass_planet Hm) as [HH Hd].
  split; [exact Hrows|]; split; [reflexivity|]; split.
  { rewrite planet_masses_rows, Hrows; reflexivity. }
  split.
  { rewrite Hrows; simpl; now rewrite HH. }
  unfold transmission; fold catalog; fold t.
  assert (Hf : filter (name_is "WASP-19 b") (rows t) = [WASP19b])
    by (rewrite Hrows; reflexivity).
  assert (Hm0 : pos (mass1 t WASP19b)) by (apply pos_fin; lra).
  clearbody t; clear catalog.
  rewrite (reference_has_magnitudes _ _ _ Hf); cbn [ret].
  change (negb (isfinite (t_KS WASP19b)) || negb (isfinite (t_V WASP19b)))
    with false; cbv iota.
  rewrite transmission_scores_rows by lra.
  unfold col; rewrite Hf, !Hrows; cbn [map].
  rewrite !bdiv_singleton; cbn [bind ret map].
  destruct (pos_delta_tr1 t WASP19b WASP19b_physical Hm0) as (d & Hd0 & Hdp).
  assert (Hv1 : snr_vis1 (0.7 / 1e6) t no_mass_planet = nan).
  { unfold snr_vis1; rewrite Hd; simpl; apply vmul_nan_r. }
  assert (Hv0 : exists x, (snr_vis1 (0.7 / 1e6) t WASP19b
                           / snr_ref_vis1 (2.2 / 1e6) t WASP19b)%val
                          = Some x).
  { assert (Ha : pos (snr_vis1 (0.7 / 1e6) t WASP19b)).
    { unfold snr_vis1; simpl.
      apply pos_mul; [|exists d; split; [exact Hd0 | assumption]].
      apply pos_sqrt_flux; try reflexivity; try lra; apply pos_fin; lra. }
    assert (Hb : pos (snr_ref_vis1 (2.2 / 1e6) t WASP19b)).
    { unfold snr_ref_vis1.
      apply pos_mul; [|exists d; split; [exact Hd0 | assumption]].
      apply pos_sqrt_flux; try reflexivity; try lra; apply pos_fin; lra. }
    destruct (pos_div _ _ Ha Hb) as (x & Hx & _); now exists x. }
  destruct Hv0 as (x & Hx).
  rewrite Hv1, Hx, HH.
  unfold write_report, transmission_line, rank_order, argsort; simpl.
  unfold col; rewrite !Hrows; cbn [map getitem nth_error bind ret].
  rewrite make_outstr_tr_nan_hatm; reflexivity.
Qed.

(** ** Runs without a usable reference *)

Lemma micron_nonzero (w : R) : w <> 0 -> w / 1e6 <> 0.
Proof. intros H; lra. Qed.

Lemma bdiv_no_reference (xs : arr) :
  (2 <= List.length xs)%nat -> bdiv xs [] = raise ValueError.
Proof.
  destruct xs as [|x [|x' xs]]; simpl; try lia; reflexivity.
Qed.

Lemma reference_absent_passes_check (obj_ref : string) (t : Table) :
  filter (name_is obj_ref) (rows t) = [] ->
  reference_lacks_magnitude obj_ref t = ret false.
Proof.
  intros Hf; unfold reference_lacks_magnitude; fuse_cols.
  change (fun x : Row => String.eqb (t_NAME x) obj_ref)
    with (name_is obj_ref).
  rewrite Hf; reflexivity.
Qed.

(** C3 (as amended).  When the one row named as the reference in the
    filtered table lacks a finite K or V magnitude, the transmission run
    stops at its check with the message and writes no report, whatever the
    wavelengths are: the check comes before any computation.  When no row of
    a filtered table of two or more rows has the reference name, the
    emission run and the transmission run, for nonzero wavelengths, both end
    in a [ValueError] at the normalisation, before the report is opened. *)
Theorem runs_without_reference {E : Ephem} (catalog : Table)
  (obj_ref outfile : string) :
  let te := filter_table "emission" catalog in
  let tt := filter_table "transmission" catalog in
  (forall (wav_vis wav_ir wav_ref : R) (r : Row),
      filter (name_is obj_ref) (rows tt) = [r] ->
      isfinite (t_KS r) = false \/ isfinite (t_V r) = false ->
      transmission wav_vis wav_ir wav_ref obj_ref outfile catalog
      = NoReference)
  /\ (forall wav wav_ref : R,
         wav <> 0 -> wav_ref <> 0 ->
         filter (name_is obj_ref) (rows te) = [] ->
         (2 <= List.length (rows te))%nat ->
         emission wav wav_ref obj_ref outfile catalog
         = Crashed ValueError None)
  /\ (forall wav_vis wav_ir wav_ref : R,
         wav_vis <> 0 -> wav_ir <> 0 -> wav_ref <> 0 ->
         filter (name_is obj_ref) (rows tt) = [] ->
         (2 <= List.length (rows tt))%nat ->
         transmission wav_vis wav_ir wav_ref obj_ref outfile catalog
         = Crashed ValueError None).
Proof.
  intros te tt.
  split; [|split].
  - intros wav_vis wav_ir wav_ref r Hf Hmag; unfold transmission; fold tt.
    rewrite (reference_has_magnitudes _ _ _ Hf).
    destruct Hmag as [-> | ->]; simpl; [reflexivity|].
    now rewrite orb_true_r.
  - intros wav wav_ref Hw Hr Hf Hn; unfold emission; fold te.
    apply micron_nonzero in Hw, Hr.
    rewrite emission_scores_rows by assumption.
    rewrite Hf; simpl map.
    rewrite bdiv_no_reference by now rewrite length_map.
    reflexivity.
  - intros wav_vis wav_ir wav_ref Hv Hi Hr Hf Hn; unfold transmission;
      fold tt.
    apply micron_nonzero in Hv, Hi, Hr.
    rewrite (reference_absent_passes_check _ _ Hf); cbn [ret].
    rewrite transmission_scores_rows by assumption.
    rewrite Hf; simpl map.
    rewrite bdiv_no_reference by now rewrite length_map.
    reflexivity.
Qed.

Lemma runs_without_reference_witness :
  let catalog := mkTable true [WASP19b; no_K_planet] in
  transmission (E := sample_ephem) 0.7 2.2 2.2 "Kepler-7 b"
               "signals_transits.txt" catalog
  = NoReference
  /\ transmission (E := sample_ephem) 0 0 0 "Kepler-7 b"
                  "signals_transits.txt" catalog
     = NoReference
  /\ emission (E := sample_ephem) 2.2 2.2 "HD 209458 b"
              "signals_eclipses.txt" (mkTable true [WASP19b; HD189733b])
     = Crashed ValueError None
  /\ transmission (E := sample_ephem) 0.7 2.2 2.2 "HD 209458 b"
                  "signals_transits.txt" catalog
     = Crashed ValueError None.
Proof.
  intros catalog.
  split; [|split; [|split]].
  - apply (proj1 (runs_without_reference (E := sample_ephem) catalog
                    "Kepler-7 b" "signals_transits.txt")
             0.7 2.2 2.2 no_K_planet).
    + unfold catalog; rewrite filter_transmission_no_K; reflexivity.
    + now left.
  - apply (proj1 (runs_without_reference (E := sample_ephem) catalog
                    "Kepler-7 b" "signals_transits.txt")
             0 0 0 no_K_planet).
    + unfold catalog; rewrite filter_transmission_no_K; reflexivity.
    + now left.
  - apply (proj1 (proj2 (runs_without_reference (E := sample_ephem)
                           (mkTable true [WASP19b; HD189733b])
                           "HD 209458 b" "signals_eclipses.txt"))
             2.2 2.2); try lra.
    + reflexivity.
    + simpl; lia.
  - apply (proj2 (proj2 (runs_without_reference (E := sample_ephem) catalog
                           "HD 209458 b" "signals_transits.txt"))
             0.7 2.2 2.2); try lra.
    + unfold catalog; rewrite filter_transmission_no_K; reflexivity.
    + unfold catalog; rewrite filter_transmission_no_K; simpl; lia.
Defined.

(** C3, counterexample.  With a one-row catalogue that does not contain the
    reference, the emission run opens the report, writes its header and then
    stops with an [IndexError]: a report is produced. *)
Lemma emission_without_reference_writes_report :
  let catalog := mkTable true [HD189733b] in
  let o := emission (E := sample_ephem) 2.2 2.2 "WASP-19 b"
                    "signals_eclipses.txt" catalog in
  filter (name_is "WASP-19 b") (rows (filter_table "emission" catalog)) = []
  /\ o = Crashed IndexError
           (Some (make_header_ec 1 (2.2 / 1e6) (2.2 / 1e6) "WASP-19 b", []))
  /\ output_file o <> None.
Proof.
  intros catalog o.
  assert (Ho : o = Crashed IndexError
                 (Some (make_header_ec 1 (2.2 / 1e6) (2.2 / 1e6)
                                       "WASP-19 b", []))).
  { unfold o, emission.
    rewrite emission_scores_rows by lra.
    reflexivity. }
  split; [reflexivity|]; split; [exact Ho|].
  rewrite Ho; discriminate.
Qed.

(** ** Runs on an empty filtered table *)

(** C4 (as amended).  [filter_table] returns the empty table when no row
    passes, without an error; for nonzero wavelengths the run then goes on
    and saves a report that consists of the header alone. *)
Theorem empty_filtered_table_report {E : Ephem} (catalog : Table)
  (obj_ref outfile : string) (wav wav_ref wav_vis wav_ir : R) :
  wav <> 0 -> wav_ref <> 0 -> wav_vis <> 0 -> wav_ir <> 0 ->
  (rows (filter_table "emission" catalog) = [] ->
   emission wav wav_ref obj_ref outfile catalog
   = Saved outfile
       (make_header_ec 0 (wav / 1e6) (wav_ref / 1e6) obj_ref, []))
  /\ (rows (filter_table "transmission" catalog) = [] ->
      transmission wav_vis wav_ir wav_ref obj_ref outfile catalog
      = Saved outfile
          (make_header_tr 0 (wav_vis / 1e6) (wav_ir / 1e6) (wav_ref / 1e6)
                          obj_ref 1, [])).
Proof.
  intros Hw Hr Hv Hi.
  apply micron_nonzero in Hw, Hr, Hv, Hi.
  split; intros He.
  - unfold emission.
    rewrite emission_scores_rows by assumption.
    unfold col; rewrite He; reflexivity.
  - unfold transmission.
    rewrite reference_absent_passes_check by now rewrite He.
    cbn [ret].
    rewrite transmission_scores_rows by assumption.
    unfold col; rewrite He; reflexivity.
Qed.

Lemma empty_filtered_table_report_witness :
  let catalog := mkTable true [no_K_planet] in
  rows (filter_table "emission" catalog) = []
  /\ emission (E := sample_ephem) 2.2 2.2 "WASP-19 b"
              "signals_eclipses.txt" catalog
     = Saved "signals_eclipses.txt"
         (make_header_ec 0 (2.2 / 1e6) (2.2 / 1e6) "WASP-19 b", []).
Proof.
  intros catalog; split; [reflexivity|].
  apply (proj1 (empty_filtered_table_report (E := sample_ephem) catalog
                  "WASP-19 b"
                  "signals_eclipses.txt" 2.2 2.2 0.7 2.2
                  ltac:(lra) ltac:(lra) ltac:(lra) ltac:(lra))).
  reflexivity.
Defined.

(** C4, counterexample.  No row of the catalogue has the K magnitude that
    emission needs, so the filtered table is empty; the run does not fail:
    it saves a report. *)
Lemma empty_filtered_table_saves_report :
  let catalog := mkTable true [no_K_planet] in
  let o := emission (E := sample_ephem) 2.2 2.2 "WASP-19 b"
                    "signals_eclipses.txt" catalog in
  rows (filter_table "emission" catalog) = []
  /\ o = Saved "signals_eclipses.txt"
           (make_header_ec 0 (2.2 / 1e6) (2.2 / 1e6) "WASP-19 b", [])
  /\ output_file o <> None.
Proof.
  intros catalog o.
  assert (Ho : o = Saved "signals_eclipses.txt"
                 (make_header_ec 0 (2.2 / 1e6) (2.2 / 1e6) "WASP-19 b", [])).
  { unfold o, emission.
    rewrite emission_scores_rows by lra.
    reflexivity. }
  split; [reflexivity|]; split; [exact Ho|].
  rewrite Ho; discriminate.
Qed.

(** * Further properties *)

(** ** Writing the report *)

Lemma bind_inr {A B : Type} (m : M A) (k : A -> M B) (b : B) :
  bind m k = inr b -> exists a, m = inr a /\ k a = inr b.
Proof. destruct m as [e|a]; simpl; [discriminate | now exists a]. Qed.

Lemma getitem_map_inr {A B : Type} (f : A -> B) (xs : list A) (i : nat)
  (y : B) :
  getitem (map f xs) i = inr y ->
  exists x, nth_error xs i = Some x /\ y = f x.
Proof.
  unfold getitem; rewrite nth_error_map.
  destruct (nth_error xs i) as [x|]; simpl; [|discriminate].
  intros [= <-]; now exists x.
Qed.

Lemma getitem_inr {A : Type} (xs : list A) (i : nat) (y : A) :
  getitem xs i = inr y <-> nth_error xs i = Some y.
Proof.
  unfold getitem; destruct (nth_error xs i); simpl; split;
    intros H; try discriminate; injection H as <-; reflexivity.
Qed.

Lemma write_lines_spec {L : Type} (line : nat -> M L) (js : list nat)
  (ls : list L) (e : option exn) :
  write_lines line js = (ls, e) ->
  (List.length ls <= List.length js)%nat
  /\ (e = None -> List.length ls = List.length js)
  /\ (forall k l, nth_error ls k = Some l ->
        exists j, nth_error js k = Some j /\ line j = inr l).
Proof.
  revert ls e; induction js as [|j js IH]; simpl; intros ls e H.
  - injection H as <- <-; repeat split; auto.
    intros [|k] l Hk; discriminate.
  - destruct (line j) as [ex|l0] eqn:Hj.
    + injection H as <- <-; simpl; repeat split; try lia; try discriminate.
      intros [|k] l Hk; discriminate.
    + destruct (write_lines line js) as [ls' e'] eqn:Hw.
      injection H as <- <-.
      destruct (IH ls' e' eq_refl) as (Hlen & Hnone & Hnth).
      simpl; repeat split; try lia.
      * intros He; now rewrite Hnone.
      * intros [|k] l Hk; simpl in *.
        -- injection Hk as <-; now exists j.
        -- now apply Hnth.
Qed.

Lemma write_lines_all {L : Type} (line : nat -> M L) (js : list nat) :
  (forall j, In j js -> exists l, line j = inr l) ->
  exists ls, write_lines line js = (ls, None).
Proof.
  induction js as [|j js IH]; simpl; intros H; [now exists []|].
  destruct (H j (or_introl eq_refl)) as (l & ->).
  destruct IH as (ls & ->); [intros j' Hj'; apply H; now right|].
  now exists (l :: ls).
Qed.

Lemma nth_error_seq0 (n k j : nat) :
  nth_error (seq 0 n) k = Some j -> j = k /\ (k < n)%nat.
Proof.
  intros H.
  assert (Hk : (k < n)%nat).
  { assert (Hn : nth_error (seq 0 n) k <> None) by congruence.
    apply nth_error_Some in Hn; now rewrite length_seq in Hn. }
  split; [|exact Hk].
  apply nth_error_nth with (d := 0%nat) in H.
  rewrite seq_nth in H by exact Hk; lia.
Qed.

Lemma write_report_file {H L : Type} (outfile : string) (header : H)
  (line : nat -> M L) (n : nat) (h : H) (ls : list L) :
  output_file (write_report outfile header line n) = Some (h, ls) ->
  h = header
  /\ (List.length ls <= n)%nat
  /\ (forall k l, nth_error ls k = Some l -> line k = inr l)
  /\ (forall o f, write_report outfile header line n = Saved o f ->
        o = outfile /\ List.length ls = n).
Proof.
  unfold write_report.
  destruct (write_lines line (seq 0 n)) as [ls' e] eqn:Hw.
  destruct (write_lines_spec _ _ _ _ Hw) as (Hlen & Hnone & Hnth).
  rewrite length_seq in Hlen, Hnone.
  assert (Hk : forall k l, nth_error ls' k = Some l -> line k = inr l).
  { intros k l Hk; destruct (Hnth k l Hk) as (j & Hj & Hl).
    apply nth_error_seq0 in Hj; destruct Hj as [-> _]; exact Hl. }
  destruct e as [ex|]; simpl; intros Hf; injection Hf as <- <-.
  - split; [reflexivity|]; split; [exact Hlen|]; split; [exact Hk|].
    intros o f Ho; discriminate Ho.
  - split; [reflexivity|]; split; [exact Hlen|]; split; [exact Hk|].
    intros o f Ho; injection Ho as <- _; split; [reflexivity|].
    now apply Hnone.
Qed.

Lemma map_seq_by_nth {A : Type} (f : A -> nat) (ls : list A) (a : nat) :
  (forall k l, nth_error ls k = Some l -> f l = (a + k)%nat) ->
  map f ls = seq a (List.length ls).
Proof.
  revert a; induction ls as [|x ls IH]; intros a H; simpl; [reflexivity|].
  f_equal.
  - rewrite (H 0%nat x eq_refl); lia.
  - apply IH; intros k l Hk.
    rewrite (H (S k) l Hk); lia.
Qed.

(** ** Wavelengths of zero *)

Lemma planck_zero (temp : arr) : planck 0 temp = raise ZeroDivisionError.
Proof.
  unfold planck; destruct (Req_dec_T 0 0) as [|N]; [reflexivity|].
  exfalso; now apply N.
Qed.

Lemma emission_scores_zero (wav wav_ref : R) (obj_ref : string) (t : Table) :
  wav = 0 \/ wav_ref = 0 ->
  emission_scores wav wav_ref obj_ref t = raise ZeroDivisionError.
Proof.
  intros Hz; unfold emission_scores.
  destruct (Req_dec_T wav 0) as [->|Hw].
  - now rewrite planck_zero.
  - destruct Hz as [Hz | ->]; [contradiction|].
    rewrite !(planck_rows wav) by assumption.
    rewrite !(planck_rows 2.2e-6) by apply K_band_nonzero.
    cbn [bind ret].
    now rewrite planck_zero.
Qed.

Lemma emission_scores_inr (wav wav_ref : R) (obj_ref : string) (t : Table)
  (c : EmissionCols) :
  emission_scores wav wav_ref obj_ref t = inr c ->
  wav <> 0 /\ wav_ref <> 0
  /\ exists snr_norm,
       bdiv (map (snr_ec wav) (rows t))
            (map (snr_ec wav_ref) (filter (name_is obj_ref) (rows t)))
       = inr snr_norm
       /\ c = mkEmissionCols (map Teq1 (rows t))
                (map (fratio1 wav) (rows t)) (map (snr_ec wav) (rows t))
                (map (snr_ec wav_ref) (filter (name_is obj_ref) (rows t)))
                snr_norm (rank_order snr_norm).
Proof.
  intros E.
  assert (Hw : wav <> 0).
  { intros Hz; rewrite emission_scores_zero in E by now left.
    discriminate. }
  assert (Hr : wav_ref <> 0).
  { intros Hz; rewrite emission_scores_zero in E by now right.
    discriminate. }
  split; [exact Hw|]; split; [exact Hr|].
  rewrite emission_scores_rows in E by assumption.
  apply bind_inr in E; destruct E as (sn & Hsn & E).
  exists sn; split; [exact Hsn|].
  now injection E as <-.
Qed.

(** ** The report formatters *)

Lemma write_lines_cases {L : Type} (line : nat -> M L) (js : list nat) :
  (exists ls, write_lines line js = (ls, None)
              /\ forall j, In j js -> exists l, line j = inr l)
  \/ (exists ls j e, write_lines line js = (ls, Some e)
                     /\ In j js /\ line j = inl e
                     /\ (List.length ls < List.length js)%nat).
Proof.
  induction js as [|j js IH]; simpl; [left; exists []; now split|].
  destruct (line j) as [e|l] eqn:Hj.
  - right; exists [], j, e; repeat split; auto; simpl; lia.
  - destruct IH as [(ls & -> & Hall) | (ls & j' & e & -> & Hin & Hl & Hlen)].
    + left; exists (l :: ls); split; [reflexivity|].
      intros j' [<-|Hin]; [now exists l | now apply Hall].
    + right; exists (l :: ls), j', e; repeat split; auto; simpl; lia.
Qed.

Lemma is_float_parse (s : string) :
  is_float s = true <-> exists d, float_str s = ret d.
Proof.
  unfold is_float, float_str; destruct (parse_float s); simpl; split;
    intros H; try reflexivity; try discriminate.
  - eexists; reflexivity.
  - destruct H as [d H]; discriminate.
Qed.

Lemma make_outstr_ec_inr {E : Ephem} (rank : nat) (name ra dec : string)
  (kmag tstar rstar rp a tpeq fratio snr_norm : val) (l : Line_ec) :
  make_outstr_ec rank name ra dec kmag tstar rstar rp a tpeq fratio snr_norm
  = inr l ->
  isfinite tstar = true /\ isfinite tpeq = true
  /\ is_some (hours_str ra) && is_some (degrees_str dec)
     && (blank dec || is_float dec) = true
  /\ (blank ra = true -> lec_ra l = "?"%string)
  /\ (blank dec = true -> lec_dec l = "?"%string)
  /\ lec_rank l = rank /\ lec_name l = remove_spaces name
  /\ lec_kmag l = kmag /\ lec_rstar l = rstar /\ lec_rp l = rp
  /\ lec_a l = a /\ lec_fratio l = (fin 1e4 * fratio)%val
  /\ lec_snr_norm l = snr_norm.
Proof.
  unfold make_outstr_ec; intros H.
  destruct (hours_str ra) as [rs|]; [|discriminate].
  destruct (degrees_str dec) as [ds|]; [|discriminate].
  cbn [str_angle bind ret] in H.
  apply bind_inr in H; destruct H as (dec_str & Hdec & H).
  destruct tstar as [ts|]; [|discriminate].
  destruct tpeq as [tp|]; [|discriminate].
  cbn [int_of bind ret] in H; injection H as <-.
  cbn [lec_rank lec_name lec_ra lec_dec lec_kmag lec_rstar lec_rp lec_a
       lec_fratio lec_snr_norm isfinite is_some andb].
  destruct (blank dec) eqn:Hb.
  - injection Hdec as <-.
    repeat split; try reflexivity; intros Hra; now rewrite ?Hra.
  - apply bind_inr in Hdec; destruct Hdec as (d & Hd & _).
    assert (Hf : is_float dec = true) by (apply is_float_parse; now exists d).
    rewrite Hf.
    repeat split; try reflexivity; try discriminate.
    intros Hra; now rewrite Hra.
Qed.

Lemma make_outstr_ec_readable {E : Ephem} (rank : nat)
  (name ra dec : string) (kmag rstar rp a fratio snr_norm : val)
  (tstar tpeq : R) :
  is_some (hours_str ra) && is_some (degrees_str dec)
  && (blank dec || is_float dec) = true ->
  exists l,
    make_outstr_ec rank name ra dec kmag (fin tstar) rstar rp a (fin tpeq)
                   fratio snr_norm = inr l.
Proof.
  unfold make_outstr_ec; intros H.
  apply andb_prop in H; destruct H as [H Hd].
  apply andb_prop in H; destruct H as [Hh Hg].
  destruct (hours_str ra) as [rs|]; [|discriminate].
  destruct (degrees_str dec) as [ds|]; [|discriminate].
  cbn [str_angle bind ret].
  destruct (blank dec).
  - cbn [bind ret int_of fin]; eexists; reflexivity.
  - simpl in Hd; apply is_float_parse in Hd; destruct Hd as [d ->].
    cbn [bind ret int_of fin]; eexists; reflexivity.
Qed.

Lemma make_outstr_ec_error {E : Ephem} (rank : nat) (name ra dec : string)
  (kmag tstar rstar rp a tpeq fratio snr_norm : val) (e : exn) :
  make_outstr_ec rank name ra dec kmag tstar rstar rp a tpeq fratio snr_norm
  = inl e ->
  e = ValueError.
Proof.
  unfold make_outstr_ec.
  destruct (hours_str ra) as [rs|]; [|now intros [= <-]].
  destruct (degrees_str dec) as [ds|]; [|now intros [= <-]].
  cbn [str_angle bind ret].
  destruct (blank dec).
  - cbn [bind ret].
    destruct tstar; [|now intros [= <-]].
    destruct tpeq; [|now intros [= <-]].
    discriminate.
  - destruct (float_str_cases dec) as [-> | [d ->]]; [now intros [= <-]|].
    cbn [bind ret].
    destruct tstar; [|now intros [= <-]].
    destruct tpeq; [|now intros [= <-]].
    discriminate.
Qed.

Lemma make_outstr_ec_unreadable {E : Ephem} (rank : nat)
  (name ra dec : string)
  (kmag tstar rstar rp a tpeq fratio snr_norm : val) :
  is_some (hours_str ra) && is_some (degrees_str dec)
  && (blank dec || is_float dec) = false ->
  make_outstr_ec rank name ra dec kmag tstar rstar rp a tpeq fratio snr_norm
  = raise ValueError.
Proof.
  intros H.
  destruct (make_outstr_ec rank name ra dec kmag tstar rstar rp a tpeq
              fratio snr_norm) as [e|l] eqn:Hl.
  - now apply make_outstr_ec_error in Hl; subst e.
  - apply make_outstr_ec_inr in Hl.
    destruct Hl as (_ & _ & Hr & _); congruence.
Qed.

(** ** The emission report *)

Lemma emission_line_row {E : Ephem} (t : Table) (c : EmissionCols)
  (j i : nat) (r : Row) (te fr sn : val) :
  nth_error (ec_s c) j = Some i -> nth_error (rows t) i = Some r ->
  nth_error (ec_Temp_eq c) i = Some te ->
  nth_error (ec_fratio c) i = Some fr ->
  nth_error (ec_snr_norm c) i = Some sn ->
  emission_line t c j
  = make_outstr_ec (j + 1) (t_NAME r) (t_RA r) (t_DEC r) (t_KS r)
                   (t_TEFF r) (t_RSTAR r) (t_R r) (t_A r) te fr sn.
Proof.
  intros Hs Hr HT Hfr Hsn.
  unfold emission_line, col, getitem; rewrite Hs; cbn [bind ret].
  rewrite HT, Hfr, Hsn, !nth_error_map, Hr; reflexivity.
Qed.

Lemma emission_line_inr {E : Ephem} (t : Table) (c : EmissionCols) (j : nat)
  (l : Line_ec) :
  emission_line t c j = inr l ->
  exists i r,
    nth_error (ec_s c) j = Some i /\ nth_error (rows t) i = Some r
    /\ readable_ec r = true
    /\ (blank (t_RA r) = true -> lec_ra l = "?"%string)
    /\ (blank (t_DEC r) = true -> lec_dec l = "?"%string)
    /\ lec_rank l = (j + 1)%nat /\ lec_name l = remove_spaces (t_NAME r)
    /\ lec_kmag l = t_KS r
    /\ lec_rstar l = t_RSTAR r /\ lec_rp l = t_R r /\ lec_a l = t_A r
    /\ nth_error (ec_snr_norm c) i = Some (lec_snr_norm l).
Proof.
  intros H; unfold emission_line, col in H.
  apply bind_inr in H; destruct H as (i & Hi & H).
  apply bind_inr in H; destruct H as (name & Hname & H).
  apply bind_inr in H; destruct H as (ra & Hra & H).
  apply bind_inr in H; destruct H as (dec & Hdec & H).
  apply bind_inr in H; destruct H as (ks & Hks & H).
  apply bind_inr in H; destruct H as (teff & Hteff & H).
  apply bind_inr in H; destruct H as (rstar & Hrstar & H).
  apply bind_inr in H; destruct H as (rp & Hrp & H).
  apply bind_inr in H; destruct H as (a & Ha & H).
  apply bind_inr in H; destruct H as (tpeq & Htpeq & H).
  apply bind_inr in H; destruct H as (fratio & Hfr & H).
  apply bind_inr in H; destruct H as (sn & Hsn & H).
  apply getitem_inr in Hi, Hfr, Hsn.
  apply getitem_map_inr in Hname; destruct Hname as (r & Hr & ->).
  apply getitem_map_inr in Hra; destruct Hra as (r1 & Hr1 & ->).
  apply getitem_map_inr in Hdec; destruct Hdec as (r2 & Hr2 & ->).
  apply getitem_map_inr in Hks; destruct Hks as (r3 & Hr3 & ->).
  apply getitem_map_inr in Hrstar; destruct Hrstar as (r4 & Hr4 & ->).
  apply getitem_map_inr in Hrp; destruct Hrp as (r5 & Hr5 & ->).
  apply getitem_map_inr in Ha; destruct Ha as (r6 & Hr6 & ->).
  assert (r1 = r) by congruence; assert (r2 = r) by congruence;
    assert (r3 = r) by congruence; assert (r4 = r) by congruence;
    assert (r5 = r) by congruence; assert (r6 = r) by congruence.
  subst r1 r2 r3 r4 r5 r6.
  apply make_outstr_ec_inr in H.
  destruct H as (_ & _ & Hread & Hbra & Hbdec & H1 & H2 & H5 & H6 & H7 & H8
                 & _ & H10).
  exists i, r; rewrite H1, H2, H5, H6, H7, H8, H10.
  repeat split; auto.
Qed.

(** X1.  Let no filtered row have a zero among its stellar temperature,
    stellar radius, planetary radius and semimajor axis.  Whatever the
    emission run writes to its report, complete or cut short by an
    exception: the header records the number of filtered rows, the lines are
    numbered 1, 2, 3, ... without gaps, there are no more lines than
    filtered rows, and every line belongs to a row of the catalogue that
    passes the emission filter and whose coordinates the formatter reads
    (the library reads both, and the declination is blank or a decimal
    number): it has the name of the row without its spaces, its K
    magnitude, which is defined, its radii and its semimajor axis, and a
    question mark in the place of a blank coordinate. *)
Theorem emission_report_lines {E : Ephem} (wav wav_ref : R)
  (obj_ref outfile : string) (catalog : Table) (h : Header_ec)
  (ls : list Line_ec) :
  let t := filter_table "emission" catalog in
  (forall r, In r (rows t) -> no_zero_field r) ->
  output_file (emission wav wav_ref obj_ref outfile catalog) = Some (h, ls) ->
  h = make_header_ec (List.length (rows t)) (wav / 1e6) (wav_ref / 1e6)
                     obj_ref
  /\ (List.length ls <= List.length (rows t))%nat
  /\ map lec_rank ls = seq 1 (List.length ls)
  /\ forall l, In l ls ->
       exists r, In r (rows catalog) /\ required_emission r = true
                 /\ readable_ec r = true
                 /\ lec_name l = remove_spaces (t_NAME r)
                 /\ lec_kmag l = t_KS r /\ isfinite (lec_kmag l) = true
                 /\ lec_rstar l = t_RSTAR r /\ lec_rp l = t_R r
                 /\ lec_a l = t_A r
                 /\ (blank (t_RA r) = true -> lec_ra l = "?"%string)
                 /\ (blank (t_DEC r) = true -> lec_dec l = "?"%string).
Proof.
  intros t _ Hf; unfold emission in Hf; fold t in Hf.
  destruct (emission_scores (wav / 1e6) (wav_ref / 1e6) obj_ref t)
    as [e|c] eqn:Hc; [discriminate|].
  apply write_report_file in Hf.
  destruct Hf as (Hh & Hlen & Hline & _).
  unfold col in Hh, Hlen; rewrite length_map in Hh, Hlen.
  split; [exact Hh|]; split; [exact Hlen|]; split.
  - apply map_seq_by_nth; intros k l Hk.
    apply Hline, emission_line_inr in Hk.
    destruct Hk as (i & r & _ & _ & _ & _ & _ & Hrank & _); rewrite Hrank; lia.
  - intros l Hl; apply In_nth_error in Hl; destruct Hl as (k & Hk).
    apply Hline, emission_line_inr in Hk.
    destruct Hk as (i & r & _ & Hr & Hread & Hbra & Hbdec & _ & Hn & Hks
                    & Hrs & Hrp & Ha & _).
    apply nth_error_In in Hr; unfold t in Hr.
    rewrite filter_table_emission in Hr; apply filter_In in Hr.
    destruct Hr as [Hin Hreq].
    exists r; repeat split; try assumption.
    rewrite Hks; unfold required_emission in Hreq.
    now apply andb_prop in Hreq.
Qed.

Lemma map_eq_by_nth {A B D : Type} (f : A -> D) (g : B -> D)
  (ls : list A) (s : list B) :
  List.length ls = List.length s ->
  (forall k l, nth_error ls k = Some l ->
     exists i, nth_error s k = Some i /\ f l = g i) ->
  map f ls = map g s.
Proof.
  revert s; induction ls as [|x ls IH]; intros [|y s] Hlen H;
    simpl in *; try discriminate; [reflexivity|].
  f_equal.
  - destruct (H 0%nat x eq_refl) as (i & [= <-] & Hi); exact Hi.
  - apply IH; [lia|]; intros k l Hk; exact (H (S k) l Hk).
Qed.

Lemma map_nth_error_seq {A B : Type} (g : A -> B) (d : B) (l : list A) :
  map (fun i => match nth_error l i with Some x => g x | None => d end)
      (seq 0 (List.length l))
  = map g l.
Proof.
  induction l as [|x l IH]; simpl; [reflexivity|].
  f_equal; rewrite <- seq_shift, map_map; exact IH.
Qed.

Lemma reference_in_rows (obj_ref : string) (t : Table) (k : nat) (r : Row) :
  is_reference obj_ref t k r -> In r (rows t).
Proof. intros [Hk _]; now apply nth_error_In in Hk. Qed.

Lemma emission_norm_of_reference (wav wav_ref : R) (obj_ref : string)
  (t : Table) (kr : nat) (ref : Row) (c : EmissionCols) :
  is_reference obj_ref t kr ref ->
  emission_scores wav wav_ref obj_ref t = inr c ->
  ec_Temp_eq c = map Teq1 (rows t)
  /\ ec_fratio c = map (fratio1 wav) (rows t)
  /\ ec_snr_norm c
     = map (fun r => snr_ec wav r / snr_ec wav_ref ref)%val (rows t)
  /\ ec_s c = rank_order (ec_snr_norm c).
Proof.
  intros [_ Hf] E0.
  apply emission_scores_inr in E0.
  destruct E0 as (_ & _ & sn & Hsn & ->).
  rewrite Hf in Hsn; cbn [map] in Hsn.
  rewrite bdiv_singleton, map_map in Hsn.
  injection Hsn as <-; repeat split; reflexivity.
Qed.

Lemma emission_filter_KS (catalog : Table) (r : Row) :
  In r (rows (filter_table "emission" catalog)) -> isfinite (t_KS r) = true.
Proof.
  rewrite filter_table_emission, filter_In.
  intros [_ H]; unfold required_emission in H.
  now apply andb_prop in H.
Qed.

(** The scores of a run with a single reference row, and the line of every
    rank as the formatter's result on a row. *)
Lemma emission_run_lines {E : Ephem} (wav wav_ref : R) (obj_ref : string)
  (t : Table) (kr : nat) (ref : Row) :
  wav <> 0 -> wav_ref <> 0 ->
  is_reference obj_ref t kr ref ->
  exists c,
    emission_scores wav wav_ref obj_ref t = inr c
    /\ Permutation (ec_s c) (seq 0 (List.length (rows t)))
    /\ StronglySorted (ranked_before (ec_snr_norm c)) (ec_s c)
    /\ ec_snr_norm c
       = map (fun r => snr_ec wav r / snr_ec wav_ref ref)%val (rows t)
    /\ forall j, (j < List.length (rows t))%nat ->
         exists i r,
           nth_error (ec_s c) j = Some i /\ nth_error (rows t) i = Some r
           /\ emission_line t c j
              = make_outstr_ec (j + 1) (t_NAME r) (t_RA r) (t_DEC r)
                  (t_KS r) (t_TEFF r) (t_RSTAR r) (t_R r) (t_A r) (Teq1 r)
                  (fratio1 wav r) (snr_ec wav r / snr_ec wav_ref ref)%val.
Proof.
  intros Hw Hr Href.
  destruct (emission_scores wav wav_ref obj_ref t) as [e|c] eqn:Hc.
  { rewrite emission_scores_rows in Hc by assumption.
    destruct Href as [_ Hf]; rewrite Hf in Hc; cbn [map] in Hc.
    rewrite bdiv_singleton in Hc; discriminate. }
  destruct (emission_norm_of_reference _ _ _ _ _ _ _ Href Hc)
    as (HT & Hfr & Hsn & Hs).
  assert (Hperm : Permutation (ec_s c) (seq 0 (List.length (rows t)))).
  { rewrite Hs; pose proof (rank_order_perm (ec_snr_norm c)) as Hp.
    assert (Hl : List.length (ec_snr_norm c) = List.length (rows t))
      by (rewrite Hsn; apply length_map).
    now rewrite Hl in Hp. }
  exists c; split; [reflexivity|]; split; [exact Hperm|]; split.
  { rewrite Hs; apply rank_order_sorted. }
  split; [exact Hsn|].
  intros j Hj.
  destruct (nth_error (ec_s c) j) as [i|] eqn:Hi.
  2:{ apply nth_error_None in Hi.
      rewrite (Permutation_length Hperm), length_seq in Hi; lia. }
  assert (Hlt : (i < List.length (rows t))%nat).
  { apply nth_error_In, (Permutation_in _ Hperm), in_seq in Hi; lia. }
  destruct (nth_error (rows t) i) as [r|] eqn:Hri.
  2:{ apply nth_error_None in Hri; lia. }
  exists i, r; split; [reflexivity|]; split; [exact Hri|].
  apply (emission_line_row t c j i r); auto.
  - now rewrite HT, nth_error_map, Hri.
  - now rewrite Hfr, nth_error_map, Hri.
  - now rewrite Hsn, nth_error_map, Hri.
Qed.

Lemma physical_line_ec {E : Ephem} (rank : nat) (r : Row) (fr sn : val) :
  physical r ->
  (readable_ec r = true ->
   exists l, make_outstr_ec rank (t_NAME r) (t_RA r) (t_DEC r) (t_KS r)
               (t_TEFF r) (t_RSTAR r) (t_R r) (t_A r) (Teq1 r) fr sn
             = inr l)
  /\ (readable_ec r = false ->
      make_outstr_ec rank (t_NAME r) (t_RA r) (t_DEC r) (t_KS r)
        (t_TEFF r) (t_RSTAR r) (t_R r) (t_A r) (Teq1 r) fr sn
      = raise ValueError).
Proof.
  intros Hp; split; intros Hread.
  - destruct (pos_Teq1 r Hp) as (te & -> & _).
    destruct Hp as ((ts & -> & _) & _).
    now apply make_outstr_ec_readable.
  - now apply make_outstr_ec_unreadable.
Qed.

Lemma emission_run_saved {E : Ephem} (wav wav_ref : R)
  (obj_ref outfile : string) (catalog : Table) (kr : nat) (ref : Row) :
  let t := filter_table "emission" catalog in
  0 < wav -> 0 < wav_ref ->
  is_reference obj_ref t kr ref ->
  (forall r, In r (rows t) -> physical r) ->
  (forall r, In r (rows t) -> readable_ec r = true) ->
  exists c ls,
    emission_scores (wav / 1e6) (wav_ref / 1e6) obj_ref t = inr c
    /\ emission wav wav_ref obj_ref outfile catalog
       = Saved outfile
           (make_header_ec (List.length (rows t)) (wav / 1e6)
                           (wav_ref / 1e6) obj_ref, ls)
    /\ List.length ls = List.length (rows t).
Proof.
  intros t Hw Hr Href Hphys Hread.
  apply micron_pos in Hw, Hr.
  destruct (emission_run_lines (wav / 1e6) (wav_ref / 1e6) obj_ref t kr ref)
    as (c & Hc & _ & _ & _ & Hline); try lra; auto.
  assert (Hok : forall j, In j (seq 0 (List.length (rows t))) ->
                          exists l, emission_line t c j = inr l).
  { intros j Hj; apply in_seq in Hj.
    destruct (Hline j) as (i & r & _ & Hri & ->); [lia|].
    apply nth_error_In in Hri.
    apply physical_line_ec; auto. }
  destruct (write_lines_all _ _ Hok) as (ls & Hls).
  exists c, ls; split; [exact Hc|]; split.
  - unfold emission; fold t; rewrite Hc.
    unfold write_report, col; rewrite length_map.
    now rewrite Hls.
  - destruct (write_lines_spec _ _ _ _ Hls) as (_ & Hlen & _).
    now rewrite (Hlen eq_refl), length_seq.
Qed.

(** X2.  When every row that passes the emission filter has a positive
    stellar temperature, stellar radius, planetary radius and semimajor
    axis and coordinates that the formatter reads, the reference is the one
    row of its name and the wavelengths are positive, the emission run saves
    a complete report under the given name: one line for every filtered row,
    each filtered planet exactly once, every normalised score finite and
    positive, and the scores never increase down the report. *)
Theorem emission_report_complete {E : Ephem} (wav wav_ref : R)
  (obj_ref outfile : string) (catalog : Table) (kr : nat) (ref : Row) :
  let t := filter_table "emission" catalog in
  0 < wav -> 0 < wav_ref ->
  is_reference obj_ref t kr ref ->
  (forall r, In r (rows t) -> physical r) ->
  (forall r, In r (rows t) -> readable_ec r = true) ->
  exists ls,
    emission wav wav_ref obj_ref outfile catalog
    = Saved outfile
        (make_header_ec (List.length (rows t)) (wav / 1e6) (wav_ref / 1e6)
                        obj_ref, ls)
    /\ List.length ls = List.length (rows t)
    /\ Permutation (map lec_name ls) (map remove_spaces (col t_NAME t))
    /\ (forall l, In l ls -> pos (lec_snr_norm l))
    /\ (forall j l1 l2 x y,
          nth_error ls j = Some l1 -> nth_error ls (S j) = Some l2 ->
          lec_snr_norm l1 = fin x -> lec_snr_norm l2 = fin y -> x >= y).
Proof.
  intros t Hw Hr Href Hphys Hread.
  destruct (emission_run_saved wav wav_ref obj_ref outfile catalog kr ref
              Hw Hr Href Hphys Hread) as (c & ls & Hc & Hrun & Hlen).
  fold t in Hc, Hrun, Hlen.
  apply micron_pos in Hw, Hr.
  destruct (emission_norm_of_reference _ _ _ _ _ _ _ Href Hc)
    as (_ & _ & Hsn & Hs).
  pose proof (reference_in_rows _ _ _ _ Href) as Hrefin.
  assert (Hperm : Permutation (ec_s c) (seq 0 (List.length (rows t)))).
  { rewrite Hs; pose proof (rank_order_perm (ec_snr_norm c)) as Hp.
    assert (Hl : List.length (ec_snr_norm c) = List.length (rows t))
      by (rewrite Hsn; apply length_map).
    now rewrite Hl in Hp. }
  pose proof (rank_order_sorted (ec_snr_norm c)) as Hsorted.
  rewrite <- Hs in Hsorted.
  (* what the lines hold *)
  assert (Hfile : output_file (emission wav wav_ref obj_ref outfile catalog)
                  = Some (make_header_ec (List.length (rows t)) (wav / 1e6)
                            (wav_ref / 1e6) obj_ref, ls))
    by now rewrite Hrun.
  unfold emission in Hfile; fold t in Hfile.
  rewrite Hc in Hfile.
  apply write_report_file in Hfile.
  destruct Hfile as (_ & _ & Hnth & _).
  assert (Hline : forall k l, nth_error ls k = Some l ->
            exists i r,
              nth_error (ec_s c) k = Some i
              /\ nth_error (rows t) i = Some r
              /\ lec_name l = remove_spaces (t_NAME r)
              /\ nth_error (ec_snr_norm c) i = Some (lec_snr_norm l)
              /\ pos (lec_snr_norm l)).
  { intros k l Hk; apply Hnth, emission_line_inr in Hk.
    destruct Hk as (i & r & Hi & Hri & _ & _ & _ & _ & Hn & _ & _ & _ & _
                    & Hsc).
    exists i, r; repeat split; auto.
    rewrite Hsn, nth_error_map, Hri in Hsc; injection Hsc as <-.
    apply nth_error_In in Hri.
    apply pos_div; apply pos_snr_ec; auto.
    - unfold t in Hri; now apply emission_filter_KS in Hri.
    - unfold t in Hrefin; now apply emission_filter_KS in Hrefin. }
  exists ls; split; [exact Hrun|].
  split; [exact Hlen|]; split; [|split].
  - set (g := fun i => match nth_error (rows t) i with
                       | Some r => remove_spaces (t_NAME r)
                       | None => ""%string
                       end).
    rewrite (map_eq_by_nth lec_name g ls (ec_s c)).
    + rewrite (Permutation_map g Hperm); unfold g, col.
      now rewrite map_nth_error_seq, map_map.
    + now rewrite Hlen, (Permutation_length Hperm), length_seq.
    + intros k l Hk; destruct (Hline k l Hk) as (i & r & Hi & Hri & Hn & _).
      exists i; split; [exact Hi|]; unfold g; now rewrite Hri.
  - intros l Hl; apply In_nth_error in Hl; destruct Hl as (k & Hk).
    now destruct (Hline k l Hk) as (i & r & _ & _ & _ & _ & Hpos).
  - intros j l1 l2 x y H1 H2 Hx Hy.
    destruct (Hline j l1 H1) as (a & ra & Ha & _ & _ & Hsa & _).
    destruct (Hline (S j) l2 H2) as (b & rb & Hb & _ & _ & Hsb & _).
    destruct (StronglySorted_nth_error _ _ Hsorted j (S j) a b
                (Nat.lt_succ_diag_r j) Ha Hb) as [Hlt _].
    rewrite (nth_error_nth _ _ nan Hsa), (nth_error_nth _ _ nan Hsb) in Hlt.
    rewrite Hx, Hy in Hlt; simpl in Hlt.
    destruct (Rlt_dec x y); [discriminate | lra].
Qed.

Lemma sample_rows_physical (r : Row) :
  In r [WASP19b; HD189733b] -> physical r.
Proof.
  intros [<-|[<-|[]]]; repeat split; apply pos_fin; lra.
Qed.

Lemma sample_rows_readable (r : Row) :
  In r [WASP19b; HD189733b] -> readable_ec (E := sample_ephem) r = true.
Proof. intros [<-|[<-|[]]]; reflexivity. Qed.

Lemma sample_rows_no_zero (r : Row) :
  In r [WASP19b; HD189733b] -> no_zero_field r.
Proof.
  intros [<-|[<-|[]]]; repeat split; simpl; intros [= H]; lra.
Qed.

Lemma emission_report_complete_witness :
  let catalog := mkTable true [WASP19b; HD189733b] in
  let t := filter_table "emission" catalog in
  exists ls,
    emission (E := sample_ephem) 2.2 2.2 "WASP-19 b" "signals_eclipses.txt"
             catalog
    = Saved "signals_eclipses.txt"
        (make_header_ec (List.length (rows t)) (2.2 / 1e6) (2.2 / 1e6)
                        "WASP-19 b", ls)
    /\ List.length ls = List.length (rows t)
    /\ Permutation (map lec_name ls) (map remove_spaces (col t_NAME t))
    /\ (forall l, In l ls -> pos (lec_snr_norm l))
    /\ (forall j l1 l2 x y,
          nth_error ls j = Some l1 -> nth_error ls (S j) = Some l2 ->
          lec_snr_norm l1 = fin x -> lec_snr_norm l2 = fin y -> x >= y).
Proof.
  intros catalog t.
  apply (emission_report_complete (E := sample_ephem) 2.2 2.2 "WASP-19 b"
           "signals_eclipses.txt" catalog 0 WASP19b); try lra.
  - split; reflexivity.
  - exact sample_rows_physical.
  - exact sample_rows_readable.
Defined.

Lemma emission_report_lines_witness :
  let catalog := mkTable true [WASP19b; HD189733b] in
  exists h ls,
    output_file (emission (E := sample_ephem) 2.2 2.2 "WASP-19 b"
                          "signals_eclipses.txt" catalog)
    = Some (h, ls)
    /\ List.length ls = 2%nat
    /\ map lec_rank ls = seq 1 (List.length ls)
    /\ forall l, In l ls -> isfinite (lec_kmag l) = true.
Proof.
  intros catalog.
  destruct (emission_run_saved (E := sample_ephem) 2.2 2.2 "WASP-19 b"
              "signals_eclipses.txt" catalog 0 WASP19b)
    as (c & ls & _ & Hrun & Hlen); try lra.
  { split; reflexivity. }
  { exact sample_rows_physical. }
  { exact sample_rows_readable. }
  assert (Hfile : output_file
                    (emission (E := sample_ephem) 2.2 2.2 "WASP-19 b"
                       "signals_eclipses.txt" catalog)
                  = Some (make_header_ec 2 (2.2 / 1e6) (2.2 / 1e6)
                            "WASP-19 b", ls))
    by (rewrite Hrun; reflexivity).
  destruct (emission_report_lines (E := sample_ephem) 2.2 2.2 "WASP-19 b"
              "signals_eclipses.txt" catalog _ ls sample_rows_no_zero Hfile)
    as (_ & _ & Hranks & Hl).
  exists (make_header_ec 2 (2.2 / 1e6) (2.2 / 1e6) "WASP-19 b"), ls.
  split; [exact Hfile|]; split; [exact Hlen|]; split; [exact Hranks|].
  intros l Hin; destruct (Hl l Hin) as (r & _ & _ & _ & _ & _ & Hk & _).
  exact Hk.
Defined.

Lemma rank_of_row (s : list nat) (n i : nat) :
  Permutation s (seq 0 n) -> (i < n)%nat ->
  exists j, (j < n)%nat /\ nth_error s j = Some i.
Proof.
  intros Hperm Hi.
  assert (Hin : In i s).
  { apply (Permutation_in _ (Permutation_sym Hperm)), in_seq; lia. }
  apply In_nth_error in Hin; destruct Hin as (j & Hj).
  exists j; split; [|exact Hj].
  assert (Hn : nth_error s j <> None) by congruence.
  apply nth_error_Some in Hn.
  now rewrite (Permutation_length Hperm), length_seq in Hn.
Qed.

(** X12.  A filtered row whose coordinates the formatter does not read (the
    library rejects one of them, or the declination is neither blank nor a
    decimal number) stops the emission run: with positive wavelengths, a
    single reference row and positive stellar temperatures, radii and
    semimajor axes, the run ends in a [ValueError] after the report has been
    opened, and the report is left with its header and fewer lines than
    there are filtered rows. *)
Theorem unreadable_coordinates_stop_emission {E : Ephem} (wav wav_ref : R)
  (obj_ref outfile : string) (catalog : Table) (kr : nat) (ref bad : Row) :
  let t := filter_table "emission" catalog in
  0 < wav -> 0 < wav_ref ->
  is_reference obj_ref t kr ref ->
  (forall r, In r (rows t) -> physical r) ->
  In bad (rows t) -> readable_ec bad = false ->
  exists ls,
    emission wav wav_ref obj_ref outfile catalog
    = Crashed ValueError
        (Some (make_header_ec (List.length (rows t)) (wav / 1e6)
                              (wav_ref / 1e6) obj_ref, ls))
    /\ (List.length ls < List.length (rows t))%nat.
Proof.
  intros t Hw Hr Href Hphys Hbad Hread.
  apply micron_pos in Hw, Hr.
  destruct (emission_run_lines (wav / 1e6) (wav_ref / 1e6) obj_ref t kr ref)
    as (c & Hc & Hperm & _ & _ & Hline); try lra; auto.
  unfold emission; fold t; rewrite Hc.
  unfold write_report, col; rewrite length_map.
  destruct (write_lines_cases (emission_line t c)
              (seq 0 (List.length (rows t))))
    as [(ls & _ & Hall) | (ls & j & e & -> & Hj & Hl & Hlen)].
  - exfalso.
    apply In_nth_error in Hbad; destruct Hbad as (i & Hi).
    assert (Hlt : (i < List.length (rows t))%nat).
    { apply nth_error_Some; congruence. }
    destruct (rank_of_row _ _ _ Hperm Hlt) as (j & Hj & Hsj).
    destruct (Hall j) as (l & Hl); [apply in_seq; lia|].
    destruct (Hline j Hj) as (i' & r & Hi' & Hri & Heq).
    assert (i' = i) by congruence; subst i'.
    assert (r = bad) by congruence; subst r.
    rewrite Heq in Hl.
    rewrite (proj2 (physical_line_ec _ bad _ _
                      (Hphys bad (nth_error_In _ _ Hi))) Hread) in Hl.
    discriminate Hl.
  - apply in_seq in Hj.
    destruct (Hline j) as (i & r & _ & _ & Heq); [lia|].
    rewrite Heq in Hl; apply make_outstr_ec_error in Hl; subst e.
    rewrite length_seq in Hlen.
    exists ls; split; [reflexivity | exact Hlen].
Qed.

Lemma sexagesimal_rows_physical (r : Row) :
  In r [WASP19b; sexagesimal_planet] -> physical r.
Proof.
  intros [<-|[<-|[]]]; repeat split; apply pos_fin; lra.
Qed.

Lemma unreadable_coordinates_stop_emission_witness :
  let catalog := mkTable true [WASP19b; sexagesimal_planet] in
  exists ls,
    emission (E := sample_ephem) 2.2 2.2 "WASP-19 b" "signals_eclipses.txt"
             catalog
    = Crashed ValueError
        (Some (make_header_ec 2 (2.2 / 1e6) (2.2 / 1e6) "WASP-19 b", ls))
    /\ (List.length ls < 2)%nat.
Proof.
  intros catalog.
  apply (unreadable_coordinates_stop_emission (E := sample_ephem) 2.2 2.2
           "WASP-19 b" "signals_eclipses.txt" catalog 0 WASP19b
           sexagesimal_planet); try lra.
  - split; reflexivity.
  - exact sexagesimal_rows_physical.
  - right; left; reflexivity.
  - reflexivity.
Defined.

(** ** The transmission report *)

Lemma transmission_scores_zero (wav_vis wav_ir wav_ref : R)
  (obj_ref : string) (t : Table) :
  wav_vis = 0 \/ wav_ir = 0 \/ wav_ref = 0 ->
  transmission_scores wav_vis wav_ir wav_ref obj_ref t
  = raise ZeroDivisionError.
Proof.
  intros Hz; unfold transmission_scores.
  destruct (Req_dec_T wav_vis 0) as [->|Hv]; [now rewrite planck_zero|].
  rewrite !(planck_rows wav_vis) by assumption.
  rewrite !(planck_rows 2.2e-6) by apply K_band_nonzero.
  rewrite !(planck_rows 0.6e-6) by apply V_band_nonzero.
  cbn [bind ret].
  destruct (Req_dec_T wav_ir 0) as [->|Hi]; [now rewrite planck_zero|].
  rewrite !(planck_rows wav_ir) by assumption.
  cbn [bind ret].
  destruct Hz as [Hz | [Hz | ->]]; try contradiction.
  now rewrite planck_zero.
Qed.

Lemma transmission_scores_inr (wav_vis wav_ir wav_ref : R)
  (obj_ref : string) (t : Table) (c : TransmissionCols) :
  transmission_scores wav_vis wav_ir wav_ref obj_ref t = inr c ->
  wav_vis <> 0 /\ wav_ir <> 0 /\ wav_ref <> 0
  /\ exists nv ni,
       bdiv (map (snr_vis1 wav_vis t) (rows t))
            (map (snr_ref_vis1 wav_ref t)
                 (filter (name_is obj_ref) (rows t))) = inr nv
       /\ bdiv (map (snr_ir1 wav_ir t) (rows t))
               (map (snr_ref_ir1 wav_ref t)
                    (filter (name_is obj_ref) (rows t))) = inr ni
       /\ c = mkTransmissionCols (map Teq1 (rows t)) (map (mass1 t) (rows t))
                (map (Hatm1 t) (rows t)) (map depth_tr1 (rows t))
                (map (delta_tr1 t) (rows t))
                (map (snr_vis1 wav_vis t) (rows t))
                (map (snr_ir1 wav_ir t) (rows t))
                (map (snr_ref_vis1 wav_ref t)
                     (filter (name_is obj_ref) (rows t)))
                (map (snr_ref_ir1 wav_ref t)
                     (filter (name_is obj_ref) (rows t)))
                nv ni (rank_order nv).
Proof.
  intros E.
  assert (Hv : wav_vis <> 0).
  { intros Hz; rewrite transmission_scores_zero in E by auto; discriminate. }
  assert (Hi : wav_ir <> 0).
  { intros Hz; rewrite transmission_scores_zero in E by auto; discriminate. }
  assert (Hr : wav_ref <> 0).
  { intros Hz; rewrite transmission_scores_zero in E by auto; discriminate. }
  repeat (split; [assumption|]).
  rewrite transmission_scores_rows in E by assumption.
  apply bind_inr in E; destruct E as (nv & Hnv & E).
  apply bind_inr in E; destruct E as (ni & Hni & E).
  exists nv, ni; split; [exact Hnv|]; split; [exact Hni|].
  now injection E as <-.
Qed.

Lemma make_outstr_tr_inr {E : Ephem} (rank : nat) (name ra dec : string)
  (vmag kmag : mag_str)
  (rstar rp tpeq hatm depth_tr delta_tr snr_norm_vis snr_norm_ir : val)
  (l : Line_tr) :
  make_outstr_tr rank name ra dec vmag kmag rstar rp tpeq hatm depth_tr
                 delta_tr snr_norm_vis snr_norm_ir = inr l ->
  isfinite tpeq = true /\ isfinite hatm = true
  /\ is_some (hours_str ra) && is_some (degrees_str dec) && is_float dec
     = true
  /\ ltr_rank l = rank /\ ltr_name l = remove_spaces name
  /\ ltr_vmag l = vmag /\ ltr_kmag l = kmag
  /\ ltr_rstar l = rstar /\ ltr_rp l = rp
  /\ ltr_snr_norm_vis l = snr_norm_vis
  /\ ltr_snr_norm_ir l = snr_norm_ir.
Proof.
  unfold make_outstr_tr; intros H.
  destruct (hours_str ra) as [rs|]; [|discriminate].
  destruct (degrees_str dec) as [ds|]; [|discriminate].
  cbn [str_angle bind ret] in H.
  apply bind_inr in H; destruct H as (d & Hd & H).
  assert (Hf : is_float dec = true) by (apply is_float_parse; now exists d).
  destruct tpeq as [tp|]; [|discriminate].
  destruct hatm as [ha|]; [|discriminate].
  apply bind_inr in H; destruct H as (z1 & _ & H).
  apply bind_inr in H; destruct H as (z2 & _ & H).
  injection H as <-; rewrite Hf; simpl; repeat split; reflexivity.
Qed.

Lemma make_outstr_tr_readable {E : Ephem} (rank : nat)
  (name ra dec : string) (vmag kmag : mag_str)
  (rstar rp depth_tr delta_tr snr_norm_vis snr_norm_ir : val)
  (tpeq hatm : R) :
  is_some (hours_str ra) && is_some (degrees_str dec) && is_float dec
  = true ->
  exists l,
    make_outstr_tr rank name ra dec vmag kmag rstar rp (fin tpeq) (fin hatm)
                   depth_tr delta_tr snr_norm_vis snr_norm_ir = inr l.
Proof.
  unfold make_outstr_tr; intros H.
  apply andb_prop in H; destruct H as [H Hd].
  apply andb_prop in H; destruct H as [Hh Hg].
  destruct (hours_str ra) as [rs|]; [|discriminate].
  destruct (degrees_str dec) as [ds|]; [|discriminate].
  cbn [str_angle bind ret].
  apply is_float_parse in Hd; destruct Hd as [d ->].
  rewrite vdiv_fin by lra.
  cbn [bind ret int_of fin]; eexists; reflexivity.
Qed.

Lemma make_outstr_tr_error {E : Ephem} (rank : nat) (name ra dec : string)
  (vmag kmag : mag_str)
  (rstar rp tpeq hatm depth_tr delta_tr snr_norm_vis snr_norm_ir : val)
  (e : exn) :
  make_outstr_tr rank name ra dec vmag kmag rstar rp tpeq hatm depth_tr
                 delta_tr snr_norm_vis snr_norm_ir = inl e ->
  e = ValueError.
Proof.
  unfold make_outstr_tr.
  destruct (hours_str ra) as [rs|]; [|now intros [= <-]].
  destruct (degrees_str dec) as [ds|]; [|now intros [= <-]].
  cbn [str_angle bind ret].
  destruct (float_str_cases dec) as [-> | [d ->]]; [now intros [= <-]|].
  cbn [bind ret].
  destruct tpeq; [|now intros [= <-]].
  cbn [int_of bind ret].
  destruct (hatm / fin 1e3)%val; [discriminate | now intros [= <-]].
Qed.

Lemma make_outstr_tr_unreadable {E : Ephem} (rank : nat)
  (name ra dec : string) (vmag kmag : mag_str)
  (rstar rp tpeq hatm depth_tr delta_tr snr_norm_vis snr_norm_ir : val) :
  is_some (hours_str ra) && is_some (degrees_str dec) && is_float dec
  = false ->
  make_outstr_tr rank name ra dec vmag kmag rstar rp tpeq hatm depth_tr
                 delta_tr snr_norm_vis snr_norm_ir = raise ValueError.
Proof.
  intros H.
  destruct (make_outstr_tr rank name ra dec vmag kmag rstar rp tpeq hatm
              depth_tr delta_tr snr_norm_vis snr_norm_ir) as [e|l] eqn:Hl.
  - now apply make_outstr_tr_error in Hl; subst e.
  - apply make_outstr_tr_inr in Hl.
    destruct Hl as (_ & _ & Hr & _); congruence.
Qed.

Lemma transmission_line_row {E : Ephem} (t : Table) (c : TransmissionCols)
  (j i : nat) (r : Row) (te ha dp dl sv si : val) :
  nth_error (tc_s c) j = Some i -> nth_error (rows t) i = Some r ->
  nth_error (tc_Temp_eq c) i = Some te ->
  nth_error (tc_Hatm c) i = Some ha ->
  nth_error (tc_depth_tr c) i = Some dp ->
  nth_error (tc_delta_tr c) i = Some dl ->
  nth_error (tc_snr_norm_vis c) i = Some sv ->
  nth_error (tc_snr_norm_ir c) i = Some si ->
  transmission_line t c j
  = make_outstr_tr (j + 1) (t_NAME r) (t_RA r) (t_DEC r)
      (mag_text (t_V r)) (mag_text (t_KS r)) (t_RSTAR r) (t_R r) te ha
      dp dl sv si.
Proof.
  intros Hs Hr HT HH Hdp Hdl Hsv Hsi.
  unfold transmission_line, col, getitem; rewrite Hs; cbn [bind ret].
  rewrite HT, HH, Hdp, Hdl, Hsv, Hsi, !nth_error_map, Hr; reflexivity.
Qed.

Lemma transmission_line_inr {E : Ephem} (t : Table) (c : TransmissionCols)
  (j : nat) (l : Line_tr) :
  transmission_line t c j = inr l ->
  exists i r,
    nth_error (tc_s c) j = Some i /\ nth_error (rows t) i = Some r
    /\ readable_tr r = true
    /\ ltr_rank l = (j + 1)%nat /\ ltr_name l = remove_spaces (t_NAME r)
    /\ ltr_vmag l = mag_text (t_V r) /\ ltr_kmag l = mag_text (t_KS r)
    /\ ltr_rstar l = t_RSTAR r /\ ltr_rp l = t_R r
    /\ nth_error (tc_snr_norm_vis c) i = Some (ltr_snr_norm_vis l)
    /\ nth_error (tc_snr_norm_ir c) i = Some (ltr_snr_norm_ir l).
Proof.
  intros H; unfold transmission_line, col in H.
  apply bind_inr in H; destruct H as (i & Hi & H).
  apply bind_inr in H; destruct H as (v_i & Hv & H).
  apply bind_inr in H; destruct H as (ks_i & Hks & H).
  apply bind_inr in H; destruct H as (name & Hname & H).
  apply bind_inr in H; destruct H as (ra & Hra & H).
  apply bind_inr in H; destruct H as (dec & Hdec & H).
  apply bind_inr in H; destruct H as (rstar & Hrstar & H).
  apply bind_inr in H; destruct H as (rp & Hrp & H).
  apply bind_inr in H; destruct H as (tpeq & Htpeq & H).
  apply bind_inr in H; destruct H as (hatm & Hhatm & H).
  apply bind_inr in H; destruct H as (depth & Hdepth & H).
  apply bind_inr in H; destruct H as (delta & Hdelta & H).
  apply bind_inr in H; destruct H as (sv & Hsv & H).
  apply bind_inr in H; destruct H as (si & Hsi & H).
  apply getitem_inr in Hi, Hsv, Hsi.
  apply getitem_map_inr in Hname; destruct Hname as (r & Hr & ->).
  apply getitem_map_inr in Hv; destruct Hv as (r0 & Hr0 & ->).
  apply getitem_map_inr in Hks; destruct Hks as (r1 & Hr1 & ->).
  apply getitem_map_inr in Hra; destruct Hra as (r2 & Hr2 & ->).
  apply getitem_map_inr in Hdec; destruct Hdec as (r3 & Hr3 & ->).
  apply getitem_map_inr in Hrstar; destruct Hrstar as (r4 & Hr4 & ->).
  apply getitem_map_inr in Hrp; destruct Hrp as (r5 & Hr5 & ->).
  assert (r0 = r) by congruence; assert (r1 = r) by congruence;
    assert (r2 = r) by congruence; assert (r3 = r) by congruence;
    assert (r4 = r) by congruence; assert (r5 = r) by congruence.
  subst r0 r1 r2 r3 r4 r5.
  apply make_outstr_tr_inr in H.
  destruct H as (_ & _ & Hread & H1 & H2 & H5 & H6 & H7 & H8 & H11 & H12).
  exists i, r; rewrite H1, H2, H5, H6, H7, H8, H11, H12.
  repeat split; auto.
Qed.

Lemma transmission_inr_scores {E : Ephem} (wav_vis wav_ir wav_ref : R)
  (obj_ref outfile : string) (catalog : Table) (h : Header_tr)
  (ls : list Line_tr) :
  output_file (transmission wav_vis wav_ir wav_ref obj_ref outfile catalog)
  = Some (h, ls) ->
  let t := filter_table "transmission" catalog in
  exists c,
    reference_lacks_magnitude obj_ref t = inr false
    /\ transmission_scores (wav_vis / 1e6) (wav_ir / 1e6) (wav_ref / 1e6)
                           obj_ref t = inr c
    /\ h = make_header_tr (List.length (rows t)) (wav_vis / 1e6)
             (wav_ir / 1e6) (wav_ref / 1e6) obj_ref 1
    /\ (List.length ls <= List.length (rows t))%nat
    /\ (forall k l, nth_error ls k = Some l ->
          transmission_line t c k = inr l).
Proof.
  intros Hf t; unfold transmission in Hf; fold t in Hf.
  destruct (reference_lacks_magnitude obj_ref t) as [e|[|]] eqn:G;
    try discriminate.
  destruct (transmission_scores (wav_vis / 1e6) (wav_ir / 1e6)
              (wav_ref / 1e6) obj_ref t) as [e|c] eqn:Hc; [discriminate|].
  apply write_report_file in Hf.
  destruct Hf as (Hh & Hlen & Hline & _).
  unfold col in Hh, Hlen; rewrite length_map in Hh, Hlen.
  exists c; repeat (split; [assumption || reflexivity|]).
  exact Hline.
Qed.

Lemma transmission_filter_fields (catalog : Table) (r : Row) :
  In r (rows (filter_table "transmission" catalog)) ->
  In r (rows catalog)
  /\ required_transmission (has_MASS catalog) r = true
  /\ isfinite (t_KS r) || isfinite (t_V r) = true.
Proof.
  rewrite filter_table_transmission, filter_In.
  intros [Hin H]; repeat split; auto.
  unfold required_transmission in H.
  apply andb_prop in H; destruct H as [H _].
  now apply andb_prop in H.
Qed.

(** X3.  Let no filtered row have a zero among its stellar temperature,
    stellar radius, planetary radius, semimajor axis and the mass that the
    run uses.  Whatever the transmission run writes to its report, complete
    or cut short by an exception: the header records the number of filtered
    rows, the lines are numbered 1, 2, 3, ... without gaps, there are no
    more lines than filtered rows, and every line belongs to a row of the
    catalogue that passes the transmission filter and whose coordinates the
    formatter reads (the library reads both, and the declination is a
    decimal number): it has the name of the row without its spaces, its
    radii, and each magnitude of the row that is defined, with a dash for
    one that is not; no line has a dash for both magnitudes. *)
Theorem transmission_report_lines {E : Ephem} (wav_vis wav_ir wav_ref : R)
  (obj_ref outfile : string) (catalog : Table) (h : Header_tr)
  (ls : list Line_tr) :
  let t := filter_table "transmission" catalog in
  (forall r, In r (rows t) -> no_zero_field r /\ mass1 t r <> fin 0) ->
  output_file (transmission wav_vis wav_ir wav_ref obj_ref outfile catalog)
  = Some (h, ls) ->
  h = make_header_tr (List.length (rows t)) (wav_vis / 1e6) (wav_ir / 1e6)
                     (wav_ref / 1e6) obj_ref 1
  /\ (List.length ls <= List.length (rows t))%nat
  /\ map ltr_rank ls = seq 1 (List.length ls)
  /\ forall l, In l ls ->
       (ltr_vmag l <> Dash \/ ltr_kmag l <> Dash)
       /\ exists r, In r (rows catalog)
                    /\ required_transmission (has_MASS catalog) r = true
                    /\ readable_tr r = true
                    /\ ltr_name l = remove_spaces (t_NAME r)
                    /\ ltr_vmag l
                       = (if isfinite (t_V r) then Mag (t_V r) else Dash)
                    /\ ltr_kmag l
                       = (if isfinite (t_KS r) then Mag (t_KS r) else Dash)
                    /\ ltr_rstar l = t_RSTAR r /\ ltr_rp l = t_R r.
Proof.
  intros t _ Hf.
  destruct (transmission_inr_scores _ _ _ _ _ _ _ _ Hf)
    as (c & _ & _ & Hh & Hlen & Hline).
  fold t in Hh, Hlen, Hline.
  split; [exact Hh|]; split; [exact Hlen|]; split.
  - apply map_seq_by_nth; intros k l Hk.
    apply Hline, transmission_line_inr in Hk.
    destruct Hk as (i & r & _ & _ & _ & Hrank & _).
    rewrite Hrank; lia.
  - intros l Hl; apply In_nth_error in Hl; destruct Hl as (k & Hk).
    apply Hline, transmission_line_inr in Hk.
    destruct Hk as (i & r & _ & Hr & Hread & _ & Hn & Hv & Hks & Hrs & Hrp
                    & _).
    apply nth_error_In in Hr; unfold t in Hr.
    apply transmission_filter_fields in Hr.
    destruct Hr as (Hin & Hreq & Hmag); split.
    + rewrite Hv, Hks; unfold mag_text.
      destruct (isfinite (t_KS r)), (isfinite (t_V r)); simpl in Hmag;
        try discriminate Hmag; [left | right | left]; discriminate.
    + exists r; repeat split; assumption.
Qed.

Lemma pos_Hatm1 (t : Table) (r : Row) :
  physical r -> pos (mass1 t r) -> pos (Hatm1 t r).
Proof.
  intros Hr Hm; pose proof (pos_Teq1 r Hr) as HT.
  destruct Hr as (_ & _ & Hp & _).
  unfold Hatm1, little_g1.
  revert HT; generalize (Teq1 r); intros T HT.
  revert Hm; generalize (mass1 t r); intros m Hm.
  repeat (apply pos_div || apply pos_mul); auto using pos_fin with consts.
Qed.

Lemma pos_isfinite (a : val) : pos a -> isfinite a = true.
Proof. now intros (x & -> & _). Qed.

Lemma pos_snr_vis1 (wav_vis : R) (t : Table) (r : Row) :
  0 < wav_vis -> physical r -> pos (mass1 t r) ->
  isfinite (t_KS r) || isfinite (t_V r) = true ->
  pos (snr_vis1 wav_vis t r).
Proof.
  intros Hw Hr Hm Hmag; unfold snr_vis1.
  pose proof (pos_delta_tr1 t r Hr Hm) as Hd.
  assert (HT : pos (t_TEFF r)) by apply Hr.
  destruct (isfinite (t_KS r)) eqn:HK; simpl in *;
    (apply pos_mul; [apply pos_sqrt_flux; auto; lra | assumption]).
Qed.

Lemma pos_snr_ref_vis1 (wav_ref : R) (t : Table) (r : Row) :
  0 < wav_ref -> physical r -> pos (mass1 t r) ->
  isfinite (t_V r) = true -> pos (snr_ref_vis1 wav_ref t r).
Proof.
  intros Hw Hr Hm HV; unfold snr_ref_vis1.
  apply pos_mul; [|now apply pos_delta_tr1].
  apply pos_sqrt_flux; auto; [lra | apply Hr].
Qed.

Lemma transmission_norm_of_reference (wav_vis wav_ir wav_ref : R)
  (obj_ref : string) (t : Table) (kr : nat) (ref : Row)
  (c : TransmissionCols) :
  is_reference obj_ref t kr ref ->
  transmission_scores wav_vis wav_ir wav_ref obj_ref t = inr c ->
  tc_Temp_eq c = map Teq1 (rows t)
  /\ tc_Hatm c = map (Hatm1 t) (rows t)
  /\ tc_depth_tr c = map depth_tr1 (rows t)
  /\ tc_delta_tr c = map (delta_tr1 t) (rows t)
  /\ tc_snr_norm_vis c
     = map (fun r => snr_vis1 wav_vis t r / snr_ref_vis1 wav_ref t ref)%val
           (rows t)
  /\ tc_snr_norm_ir c
     = map (fun r => snr_ir1 wav_ir t r / snr_ref_ir1 wav_ref t ref)%val
           (rows t)
  /\ tc_s c = rank_order (tc_snr_norm_vis c).
Proof.
  intros [_ Hf] E0.
  apply transmission_scores_inr in E0.
  destruct E0 as (_ & _ & _ & nv & ni & Hnv & Hni & ->).
  rewrite Hf in Hnv, Hni; cbn [map] in Hnv, Hni.
  rewrite bdiv_singleton, map_map in Hnv, Hni.
  injection Hnv as <-; injection Hni as <-; repeat split; reflexivity.
Qed.

(** The scores of a run with a single reference row, and the line of every
    rank as the formatter's result on a row. *)
Lemma transmission_run_lines {E : Ephem} (wav_vis wav_ir wav_ref : R)
  (obj_ref : string) (t : Table) (kr : nat) (ref : Row) :
  wav_vis <> 0 -> wav_ir <> 0 -> wav_ref <> 0 ->
  is_reference obj_ref t kr ref ->
  exists c,
    transmission_scores wav_vis wav_ir wav_ref obj_ref t = inr c
    /\ Permutation (tc_s c) (seq 0 (List.length (rows t)))
    /\ forall j, (j < List.length (rows t))%nat ->
         exists i r,
           nth_error (tc_s c) j = Some i /\ nth_error (rows t) i = Some r
           /\ transmission_line t c j
              = make_outstr_tr (j + 1) (t_NAME r) (t_RA r) (t_DEC r)
                  (mag_text (t_V r)) (mag_text (t_KS r)) (t_RSTAR r)
                  (t_R r) (Teq1 r) (Hatm1 t r) (depth_tr1 r)
                  (delta_tr1 t r)
                  (snr_vis1 wav_vis t r / snr_ref_vis1 wav_ref t ref)%val
                  (snr_ir1 wav_ir t r / snr_ref_ir1 wav_ref t ref)%val.
Proof.
  intros Hv Hi Hr Href.
  destruct (transmission_scores wav_vis wav_ir wav_ref obj_ref t)
    as [e|c] eqn:Hc.
  { rewrite transmission_scores_rows in Hc by assumption.
    destruct Href as [_ Hf]; rewrite Hf in Hc; cbn [map] in Hc.
    rewrite !bdiv_singleton in Hc; discriminate. }
  destruct (transmission_norm_of_reference _ _ _ _ _ _ _ _ Href Hc)
    as (HT & HH & Hdp & Hdl & Hnv & Hni & Hs).
  assert (Hperm : Permutation (tc_s c) (seq 0 (List.length (rows t)))).
  { rewrite Hs; pose proof (rank_order_perm (tc_snr_norm_vis c)) as Hp.
    assert (Hl : List.length (tc_snr_norm_vis c) = List.length (rows t))
      by (rewrite Hnv; apply length_map).
    now rewrite Hl in Hp. }
  exists c; split; [reflexivity|]; split; [exact Hperm|].
  intros j Hj.
  destruct (nth_error (tc_s c) j) as [i|] eqn:Hij.
  2:{ apply nth_error_None in Hij.
      rewrite (Permutation_length Hperm), length_seq in Hij; lia. }
  assert (Hlt : (i < List.length (rows t))%nat).
  { apply nth_error_In, (Permutation_in _ Hperm), in_seq in Hij; lia. }
  destruct (nth_error (rows t) i) as [r|] eqn:Hri.
  2:{ apply nth_error_None in Hri; lia. }
  exists i, r; split; [reflexivity|]; split; [exact Hri|].
  apply (transmission_line_row t c j i r); auto.
  - now rewrite HT, nth_error_map, Hri.
  - now rewrite HH, nth_error_map, Hri.
  - now rewrite Hdp, nth_error_map, Hri.
  - now rewrite Hdl, nth_error_map, Hri.
  - now rewrite Hnv, nth_error_map, Hri.
  - now rewrite Hni, nth_error_map, Hri.
Qed.

Lemma physical_line_tr {E : Ephem} (rank : nat) (t : Table) (r : Row)
  (vmag kmag : mag_str) (dp dl sv si : val) :
  physical r -> pos (mass1 t r) ->
  (readable_tr r = true ->
   exists l, make_outstr_tr rank (t_NAME r) (t_RA r) (t_DEC r) vmag kmag
               (t_RSTAR r) (t_R r) (Teq1 r) (Hatm1 t r) dp dl sv si
             = inr l)
  /\ (readable_tr r = false ->
      make_outstr_tr rank (t_NAME r) (t_RA r) (t_DEC r) vmag kmag
        (t_RSTAR r) (t_R r) (Teq1 r) (Hatm1 t r) dp dl sv si
      = raise ValueError).
Proof.
  intros Hp Hm; split; intros Hread.
  - destruct (pos_Teq1 r Hp) as (te & -> & _).
    destruct (pos_Hatm1 t r Hp Hm) as (ha & -> & _).
    now apply make_outstr_tr_readable.
  - now apply make_outstr_tr_unreadable.
Qed.

Lemma transmission_run_saved {E : Ephem} (wav_vis wav_ir wav_ref : R)
  (obj_ref outfile : string) (catalog : Table) (kr : nat) (ref : Row) :
  let t := filter_table "transmission" catalog in
  0 < wav_vis -> 0 < wav_ir -> 0 < wav_ref ->
  is_reference obj_ref t kr ref ->
  isfinite (t_KS ref) = true -> isfinite (t_V ref) = true ->
  (forall r, In r (rows t) -> physical r /\ pos (mass1 t r)) ->
  (forall r, In r (rows t) -> readable_tr r = true) ->
  exists c ls,
    transmission_scores (wav_vis / 1e6) (wav_ir / 1e6) (wav_ref / 1e6)
                        obj_ref t = inr c
    /\ transmission wav_vis wav_ir wav_ref obj_ref outfile catalog
       = Saved outfile
           (make_header_tr (List.length (rows t)) (wav_vis / 1e6)
              (wav_ir / 1e6) (wav_ref / 1e6) obj_ref 1, ls)
    /\ List.length ls = List.length (rows t).
Proof.
  intros t Hv Hi Hr Href HK HV Hphys Hread.
  apply micron_pos in Hv, Hi, Hr.
  destruct (transmission_run_lines (wav_vis / 1e6) (wav_ir / 1e6)
              (wav_ref / 1e6) obj_ref t kr ref)
    as (c & Hc & _ & Hline); try lra; auto.
  assert (Hok : forall j, In j (seq 0 (List.length (rows t))) ->
                          exists l, transmission_line t c j = inr l).
  { intros j Hj; apply in_seq in Hj.
    destruct (Hline j) as (i & r & _ & Hri & ->); [lia|].
    apply nth_error_In in Hri.
    destruct (Hphys r Hri) as [Hp Hm].
    apply physical_line_tr; auto. }
  destruct (write_lines_all _ _ Hok) as (ls & Hls).
  exists c, ls; split; [exact Hc|]; split.
  - unfold transmission; fold t.
    destruct Href as [_ Hf].
    rewrite (reference_has_magnitudes _ _ _ Hf), HK, HV; cbn [negb orb ret].
    rewrite Hc.
    unfold write_report, col; rewrite length_map.
    now rewrite Hls.
  - destruct (write_lines_spec _ _ _ _ Hls) as (_ & Hlen & _).
    now rewrite (Hlen eq_refl), length_seq.
Qed.

(** X4.  When every row that passes the transmission filter has positive
    stellar temperature, radii, semimajor axis and mass and coordinates that
    the formatter reads, the reference is the one row of its name and has
    both magnitudes, and the wavelengths are positive, the transmission run
    saves a complete report under the given name: one line for every
    filtered row, each filtered planet exactly once, every visible score
    finite and positive, and the visible scores never increase down the
    report. *)
Theorem transmission_report_complete {E : Ephem}
  (wav_vis wav_ir wav_ref : R) (obj_ref outfile : string) (catalog : Table)
  (kr : nat) (ref : Row) :
  let t := filter_table "transmission" catalog in
  0 < wav_vis -> 0 < wav_ir -> 0 < wav_ref ->
  is_reference obj_ref t kr ref ->
  isfinite (t_KS ref) = true -> isfinite (t_V ref) = true ->
  (forall r, In r (rows t) -> physical r /\ pos (mass1 t r)) ->
  (forall r, In r (rows t) -> readable_tr r = true) ->
  exists ls,
    transmission wav_vis wav_ir wav_ref obj_ref outfile catalog
    = Saved outfile
        (make_header_tr (List.length (rows t)) (wav_vis / 1e6)
           (wav_ir / 1e6) (wav_ref / 1e6) obj_ref 1, ls)
    /\ List.length ls = List.length (rows t)
    /\ Permutation (map ltr_name ls) (map remove_spaces (col t_NAME t))
    /\ (forall l, In l ls -> pos (ltr_snr_norm_vis l))
    /\ (forall j l1 l2 x y,
          nth_error ls j = Some l1 -> nth_error ls (S j) = Some l2 ->
          ltr_snr_norm_vis l1 = fin x -> ltr_snr_norm_vis l2 = fin y ->
          x >= y).
Proof.
  intros t Hv Hi Hr Href HK HV Hphys Hread.
  destruct (transmission_run_saved wav_vis wav_ir wav_ref obj_ref outfile
              catalog kr ref Hv Hi Hr Href HK HV Hphys Hread)
    as (c & ls & Hc & Hrun & Hlen).
  fold t in Hc, Hrun, Hlen.
  apply micron_pos in Hv, Hi, Hr.
  destruct (transmission_norm_of_reference _ _ _ _ _ _ _ _ Href Hc)
    as (_ & _ & _ & _ & Hnv & _ & Hs).
  pose proof (reference_in_rows _ _ _ _ Href) as Hrefin.
  assert (Hperm : Permutation (tc_s c) (seq 0 (List.length (rows t)))).
  { rewrite Hs; pose proof (rank_order_perm (tc_snr_norm_vis c)) as Hp.
    assert (Hl : List.length (tc_snr_norm_vis c) = List.length (rows t))
      by (rewrite Hnv; apply length_map).
    now rewrite Hl in Hp. }
  pose proof (rank_order_sorted (tc_snr_norm_vis c)) as Hsorted.
  rewrite <- Hs in Hsorted.
  assert (Hfile : output_file
                    (transmission wav_vis wav_ir wav_ref obj_ref outfile
                       catalog)
                  = Some (make_header_tr (List.length (rows t))
                            (wav_vis / 1e6) (wav_ir / 1e6) (wav_ref / 1e6)
                            obj_ref 1, ls))
    by now rewrite Hrun.
  destruct (transmission_inr_scores _ _ _ _ _ _ _ _ Hfile)
    as (c' & _ & Hc' & _ & _ & Hnth).
  fold t in Hc', Hnth.
  assert (c' = c) by congruence; subst c'.
  assert (Hline : forall k l, nth_error ls k = Some l ->
            exists i r,
              nth_error (tc_s c) k = Some i
              /\ nth_error (rows t) i = Some r
              /\ ltr_name l = remove_spaces (t_NAME r)
              /\ nth_error (tc_snr_norm_vis c) i
                 = Some (ltr_snr_norm_vis l)
              /\ pos (ltr_snr_norm_vis l)).
  { intros k l Hk.
    apply Hnth, transmission_line_inr in Hk.
    destruct Hk as (i & r & Hik & Hri & _ & _ & Hn & _ & _ & _ & _ & Hsc
                    & _).
    exists i, r; repeat split; auto.
    rewrite Hnv, nth_error_map, Hri in Hsc; injection Hsc as <-.
    apply nth_error_In in Hri.
    destruct (Hphys r Hri) as [Hp Hm].
    destruct (Hphys ref Hrefin) as [Hpr Hmr].
    apply pos_div; [apply pos_snr_vis1 | apply pos_snr_ref_vis1]; auto.
    unfold t in Hri; now apply transmission_filter_fields in Hri. }
  exists ls; split; [exact Hrun|].
  split; [exact Hlen|]; split; [|split].
  - set (g := fun i => match nth_error (rows t) i with
                       | Some r => remove_spaces (t_NAME r)
                       | None => ""%string
                       end).
    rewrite (map_eq_by_nth ltr_name g ls (tc_s c)).
    + rewrite (Permutation_map g Hperm); unfold g, col.
      now rewrite map_nth_error_seq, map_map.
    + now rewrite Hlen, (Permutation_length Hperm), length_seq.
    + intros k l Hk; destruct (Hline k l Hk) as (i & r & Hik & Hri & Hn & _).
      exists i; split; [exact Hik|]; unfold g; now rewrite Hri.
  - intros l Hl; apply In_nth_error in Hl; destruct Hl as (k & Hk).
    now destruct (Hline k l Hk) as (i & r & _ & _ & _ & _ & Hpos).
  - intros j l1 l2 x y H1 H2 Hx Hy.
    destruct (Hline j l1 H1) as (a & ra & Ha & _ & _ & Hsa & _).
    destruct (Hline (S j) l2 H2) as (b & rb & Hb & _ & _ & Hsb & _).
    destruct (StronglySorted_nth_error _ _ Hsorted j (S j) a b
                (Nat.lt_succ_diag_r j) Ha Hb) as [Hlt _].
    rewrite (nth_error_nth _ _ nan Hsa), (nth_error_nth _ _ nan Hsb) in Hlt.
    rewrite Hx, Hy in Hlt; simpl in Hlt.
    destruct (Rlt_dec x y); [discriminate | lra].
Qed.

Lemma no_K_rows_physical (r : Row) :
  let t := filter_table "transmission" (mkTable true [WASP19b; no_K_planet]) in
  In r (rows t) -> physical r /\ pos (mass1 t r).
Proof.
  intros t Hin; unfold t in Hin; rewrite filter_transmission_no_K in Hin.
  destruct Hin as [<-|[<-|[]]]; split;
    try (repeat split; apply pos_fin; lra); apply pos_fin; lra.
Qed.

Lemma no_K_rows_readable (r : Row) :
  In r (rows (filter_table "transmission"
                (mkTable true [WASP19b; no_K_planet]))) ->
  readable_tr (E := sample_ephem) r = true.
Proof.
  rewrite filter_transmission_no_K.
  intros [<-|[<-|[]]]; reflexivity.
Qed.

Lemma no_K_rows_no_zero (r : Row) :
  let t := filter_table "transmission" (mkTable true [WASP19b; no_K_planet]) in
  In r (rows t) -> no_zero_field r /\ mass1 t r <> fin 0.
Proof.
  intros t Hin; unfold t in Hin; rewrite filter_transmission_no_K in Hin.
  destruct Hin as [<-|[<-|[]]]; repeat split; simpl; intros [= H]; lra.
Qed.

Lemma transmission_report_complete_witness :
  let catalog := mkTable true [WASP19b; no_K_planet] in
  let t := filter_table "transmission" catalog in
  exists ls,
    transmission (E := sample_ephem) 0.7 2.2 2.2 "WASP-19 b"
                 "signals_transits.txt" catalog
    = Saved "signals_transits.txt"
        (make_header_tr (List.length (rows t)) (0.7 / 1e6) (2.2 / 1e6)
           (2.2 / 1e6) "WASP-19 b" 1, ls)
    /\ List.length ls = List.length (rows t)
    /\ Permutation (map ltr_name ls) (map remove_spaces (col t_NAME t))
    /\ (forall l, In l ls -> pos (ltr_snr_norm_vis l))
    /\ (forall j l1 l2 x y,
          nth_error ls j = Some l1 -> nth_error ls (S j) = Some l2 ->
          ltr_snr_norm_vis l1 = fin x -> ltr_snr_norm_vis l2 = fin y ->
          x >= y).
Proof.
  intros catalog t.
  apply (transmission_report_complete (E := sample_ephem) 0.7 2.2 2.2
           "WASP-19 b" "signals_transits.txt" catalog 0 WASP19b); try lra;
    try reflexivity.
  - split; unfold catalog; rewrite filter_transmission_no_K; reflexivity.
  - exact no_K_rows_physical.
  - exact no_K_rows_readable.
Defined.

Lemma transmission_report_lines_witness :
  let catalog := mkTable true [WASP19b; no_K_planet] in
  exists h ls,
    output_file (transmission (E := sample_ephem) 0.7 2.2 2.2 "WASP-19 b"
                              "signals_transits.txt" catalog)
    = Some (h, ls)
    /\ List.length ls = 2%nat
    /\ map ltr_rank ls = seq 1 (List.length ls)
    /\ forall l, In l ls -> ltr_vmag l <> Dash \/ ltr_kmag l <> Dash.
Proof.
  intros catalog.
  destruct (transmission_run_saved (E := sample_ephem) 0.7 2.2 2.2
              "WASP-19 b" "signals_transits.txt" catalog 0 WASP19b)
    as (c & ls & _ & Hrun & Hlen); try lra; try reflexivity.
  { split; unfold catalog; rewrite filter_transmission_no_K; reflexivity. }
  { exact no_K_rows_physical. }
  { exact no_K_rows_readable. }
  assert (Hfile : output_file
                    (transmission (E := sample_ephem) 0.7 2.2 2.2
                       "WASP-19 b" "signals_transits.txt" catalog)
                  = Some (make_header_tr
                            (List.length
                               (rows (filter_table "transmission" catalog)))
                            (0.7 / 1e6) (2.2 / 1e6) (2.2 / 1e6)
                            "WASP-19 b" 1, ls))
    by (rewrite Hrun; reflexivity).
  destruct (transmission_report_lines (E := sample_ephem) 0.7 2.2 2.2
              "WASP-19 b" "signals_transits.txt" catalog _ ls
              no_K_rows_no_zero Hfile)
    as (_ & _ & Hranks & Hl).
  eexists; exists ls.
  split; [exact Hfile|]; split; [|split; [exact Hranks|]].
  - unfold catalog in Hlen; rewrite filter_transmission_no_K in Hlen.
    exact Hlen.
  - intros l Hin; now destruct (Hl l Hin).
Defined.

(** X13.  A filtered row whose coordinates the formatter does not read (the
    library rejects one of them, or the declination is not a decimal number,
    a blank one included) stops the transmission run: with positive
    wavelengths, a single reference row that has both magnitudes, and
    positive stellar temperatures, radii, semimajor axes and masses, the run
    ends in a [ValueError] after the report has been opened, and the report
    is left with its header and fewer lines than there are filtered
    rows. *)
Theorem unreadable_coordinates_stop_transmission {E : Ephem}
  (wav_vis wav_ir wav_ref : R) (obj_ref outfile : string) (catalog : Table)
  (kr : nat) (ref bad : Row) :
  let t := filter_table "transmission" catalog in
  0 < wav_vis -> 0 < wav_ir -> 0 < wav_ref ->
  is_reference obj_ref t kr ref ->
  isfinite (t_KS ref) = true -> isfinite (t_V ref) = true ->
  (forall r, In r (rows t) -> physical r /\ pos (mass1 t r)) ->
  In bad (rows t) -> readable_tr bad = false ->
  exists ls,
    transmission wav_vis wav_ir wav_ref obj_ref outfile catalog
    = Crashed ValueError
        (Some (make_header_tr (List.length (rows t)) (wav_vis / 1e6)
                 (wav_ir / 1e6) (wav_ref / 1e6) obj_ref 1, ls))
    /\ (List.length ls < List.length (rows t))%nat.
Proof.
  intros t Hv Hi Hr Href HK HV Hphys Hbad Hread.
  apply micron_pos in Hv, Hi, Hr.
  destruct (transmission_run_lines (wav_vis / 1e6) (wav_ir / 1e6)
              (wav_ref / 1e6) obj_ref t kr ref)
    as (c & Hc & Hperm & Hline); try lra; auto.
  unfold transmission; fold t.
  destruct Href as [Hk Hf].
  rewrite (reference_has_magnitudes _ _ _ Hf), HK, HV; cbn [negb orb ret].
  rewrite Hc.
  unfold write_report, col; rewrite length_map.
  destruct (write_lines_cases (transmission_line t c)
              (seq 0 (List.length (rows t))))
    as [(ls & _ & Hall) | (ls & j & e & -> & Hj & Hl & Hlen)].
  - exfalso.
    apply In_nth_error in Hbad; destruct Hbad as (i & Hib).
    assert (Hlt : (i < List.length (rows t))%nat).
    { apply nth_error_Some; congruence. }
    destruct (rank_of_row _ _ _ Hperm Hlt) as (j & Hj & Hsj).
    destruct (Hall j) as (l & Hl); [apply in_seq; lia|].
    destruct (Hline j Hj) as (i' & r & Hi' & Hri & Heq).
    assert (i' = i) by congruence; subst i'.
    assert (r = bad) by congruence; subst r.
    rewrite Heq in Hl.
    destruct (Hphys bad (nth_error_In _ _ Hib)) as [Hp Hm].
    rewrite (proj2 (physical_line_tr _ t bad _ _ _ _ _ _ Hp Hm) Hread)
      in Hl.
    discriminate Hl.
  - apply in_seq in Hj.
    destruct (Hline j) as (i & r & _ & _ & Heq); [lia|].
    rewrite Heq in Hl; apply make_outstr_tr_error in Hl; subst e.
    rewrite length_seq in Hlen.
    exists ls; split; [reflexivity | exact Hlen].
Qed.

Lemma filter_transmission_sexagesimal :
  rows (filter_table "transmission"
          (mkTable true [WASP19b; sexagesimal_planet]))
  = [WASP19b; sexagesimal_planet].
Proof.
  rewrite filter_table_transmission.
  unfold required_transmission, positive_mass, base_fields; simpl.
  rdec; reflexivity.
Qed.

Lemma unreadable_coordinates_stop_transmission_witness :
  let catalog := mkTable true [WASP19b; sexagesimal_planet] in
  exists ls,
    transmission (E := sample_ephem) 0.7 2.2 2.2 "WASP-19 b"
                 "signals_transits.txt" catalog
    = Crashed ValueError
        (Some (make_header_tr 2 (0.7 / 1e6) (2.2 / 1e6) (2.2 / 1e6)
                              "WASP-19 b" 1, ls))
    /\ (List.length ls < 2)%nat.
Proof.
  intros catalog.
  pose proof filter_transmission_sexagesimal as Hrows.
  destruct (unreadable_coordinates_stop_transmission (E := sample_ephem)
              0.7 2.2 2.2 "WASP-19 b" "signals_transits.txt" catalog 0
              WASP19b sexagesimal_planet) as (ls & Hrun & Hlen);
    try lra; try reflexivity.
  - split; unfold catalog; rewrite Hrows; reflexivity.
  - unfold catalog; rewrite Hrows.
    intros r [<-|[<-|[]]]; split;
      try (repeat split; apply pos_fin; lra); apply pos_fin; lra.
  - unfold catalog; rewrite Hrows; right; left; reflexivity.
  - unfold catalog in Hrun, Hlen; rewrite Hrows in Hrun, Hlen.
    exists ls; split; [exact Hrun | exact Hlen].
Defined.

(** ** Scores are local to a row *)

Lemma transmission_row_has_MASS (t1 t2 : Table) (r : Row) (w : R) :
  has_MASS t1 = has_MASS t2 ->
  Hatm1 t1 r = Hatm1 t2 r /\ delta_tr1 t1 r = delta_tr1 t2 r
  /\ snr_vis1 w t1 r = snr_vis1 w t2 r /\ snr_ir1 w t1 r = snr_ir1 w t2 r
  /\ snr_ref_vis1 w t1 r = snr_ref_vis1 w t2 r
  /\ snr_ref_ir1 w t1 r = snr_ref_ir1 w t2 r.
Proof.
  intros H.
  unfold snr_vis1, snr_ir1, snr_ref_vis1, snr_ref_ir1, delta_tr1, Hatm1,
    little_g1, mass1; rewrite H; repeat split; reflexivity.
Qed.

(** X5.  In the emission pipeline the scores of a row depend only on that row
    and on the reference row: in two tables that hold the same row and the
    same reference row, whatever their other rows are, the row has the same
    equilibrium temperature, flux ratio, raw score and normalised score. *)
Theorem emission_scores_local (wav wav_ref : R) (obj_ref : string)
  (t1 t2 : Table) (c1 c2 : EmissionCols) (kr1 kr2 k1 k2 : nat)
  (ref r : Row) :
  emission_scores wav wav_ref obj_ref t1 = inr c1 ->
  emission_scores wav wav_ref obj_ref t2 = inr c2 ->
  is_reference obj_ref t1 kr1 ref -> is_reference obj_ref t2 kr2 ref ->
  nth_error (rows t1) k1 = Some r -> nth_error (rows t2) k2 = Some r ->
  nth_error (ec_Temp_eq c1) k1 = nth_error (ec_Temp_eq c2) k2
  /\ nth_error (ec_fratio c1) k1 = nth_error (ec_fratio c2) k2
  /\ nth_error (ec_snr_unnorm c1) k1 = nth_error (ec_snr_unnorm c2) k2
  /\ nth_error (ec_snr_norm c1) k1 = nth_error (ec_snr_norm c2) k2.
Proof.
  intros E1 E2 R1 R2 H1 H2.
  destruct (emission_norm_of_reference _ _ _ _ _ _ _ R1 E1)
    as (HT1 & HF1 & HN1 & _).
  destruct (emission_norm_of_reference _ _ _ _ _ _ _ R2 E2)
    as (HT2 & HF2 & HN2 & _).
  apply emission_scores_inr in E1, E2.
  destruct E1 as (_ & _ & sn1 & _ & ->), E2 as (_ & _ & sn2 & _ & ->).
  cbn [ec_Temp_eq ec_fratio ec_snr_unnorm ec_snr_norm] in *.
  rewrite HN1, HN2, !nth_error_map, H1, H2; repeat split; reflexivity.
Qed.

Lemma emission_scores_local_witness :
  let t1 := filter_table "emission" (mkTable true [WASP19b; HD189733b]) in
  let t2 := filter_table "emission" (mkTable true [HD189733b; WASP19b]) in
  exists c1 c2,
    emission_scores (4.5 / 1e6) (2.2 / 1e6) "WASP-19 b" t1 = inr c1
    /\ emission_scores (4.5 / 1e6) (2.2 / 1e6) "WASP-19 b" t2 = inr c2
    /\ nth_error (ec_snr_norm c1) 1 = nth_error (ec_snr_norm c2) 0.
Proof.
  intros t1 t2.
  destruct (emission_scores (4.5 / 1e6) (2.2 / 1e6) "WASP-19 b" t1)
    as [e|c1] eqn:E1.
  { rewrite emission_scores_rows in E1 by lra.
    change (filter (name_is "WASP-19 b") (rows t1)) with [WASP19b] in E1.
    cbn [map] in E1; rewrite bdiv_singleton in E1; discriminate. }
  destruct (emission_scores (4.5 / 1e6) (2.2 / 1e6) "WASP-19 b" t2)
    as [e|c2] eqn:E2.
  { rewrite emission_scores_rows in E2 by lra.
    change (filter (name_is "WASP-19 b") (rows t2)) with [WASP19b] in E2.
    cbn [map] in E2; rewrite bdiv_singleton in E2; discriminate. }
  exists c1, c2; split; [reflexivity|]; split; [reflexivity|].
  apply (emission_scores_local (4.5 / 1e6) (2.2 / 1e6) "WASP-19 b" t1 t2
           c1 c2 0 1 1 0 WASP19b HD189733b E1 E2);
    try (split; reflexivity); reflexivity.
Defined.

(** X6.  In the transmission pipeline the scores of a row depend only on
    that row, on the reference row and on whether the table has a mass
    column: in two such tables that hold the same row and the same reference
    row the row has the same scale height, depth variation and normalised
    visible and infrared scores. *)
Theorem transmission_scores_local (wav_vis wav_ir wav_ref : R)
  (obj_ref : string) (t1 t2 : Table) (c1 c2 : TransmissionCols)
  (kr1 kr2 k1 k2 : nat) (ref r : Row) :
  has_MASS t1 = has_MASS t2 ->
  transmission_scores wav_vis wav_ir wav_ref obj_ref t1 = inr c1 ->
  transmission_scores wav_vis wav_ir wav_ref obj_ref t2 = inr c2 ->
  is_reference obj_ref t1 kr1 ref -> is_reference obj_ref t2 kr2 ref ->
  nth_error (rows t1) k1 = Some r -> nth_error (rows t2) k2 = Some r ->
  nth_error (tc_Hatm c1) k1 = nth_error (tc_Hatm c2) k2
  /\ nth_error (tc_delta_tr c1) k1 = nth_error (tc_delta_tr c2) k2
  /\ nth_error (tc_snr_norm_vis c1) k1 = nth_error (tc_snr_norm_vis c2) k2
  /\ nth_error (tc_snr_norm_ir c1) k1 = nth_error (tc_snr_norm_ir c2) k2.
Proof.
  intros HM E1 E2 R1 R2 H1 H2.
  destruct (transmission_norm_of_reference _ _ _ _ _ _ _ _ R1 E1)
    as (_ & HH1 & _ & HD1 & HV1 & HI1 & _).
  destruct (transmission_norm_of_reference _ _ _ _ _ _ _ _ R2 E2)
    as (_ & HH2 & _ & HD2 & HV2 & HI2 & _).
  rewrite HH1, HH2, HD1, HD2, HV1, HV2, HI1, HI2, !nth_error_map, H1, H2.
  cbn [option_map].
  destruct (transmission_row_has_MASS t1 t2 r wav_vis HM)
    as (-> & -> & -> & _).
  destruct (transmission_row_has_MASS t1 t2 r wav_ir HM)
    as (_ & _ & _ & -> & _).
  destruct (transmission_row_has_MASS t1 t2 ref wav_ref HM)
    as (_ & _ & _ & _ & -> & ->).
  repeat split; reflexivity.
Qed.

Lemma filter_transmission_no_K_swapped :
  rows (filter_table "transmission" (mkTable true [no_K_planet; WASP19b]))
  = [no_K_planet; WASP19b].
Proof.
  rewrite filter_table_transmission.
  unfold required_transmission, positive_mass, base_fields; simpl.
  rdec; reflexivity.
Qed.

Lemma transmission_scores_local_witness :
  let t1 := filter_table "transmission"
              (mkTable true [WASP19b; no_K_planet]) in
  let t2 := filter_table "transmission"
              (mkTable true [no_K_planet; WASP19b]) in
  exists c1 c2,
    transmission_scores (0.7 / 1e6) (2.2 / 1e6) (2.2 / 1e6) "WASP-19 b" t1
    = inr c1
    /\ transmission_scores (0.7 / 1e6) (2.2 / 1e6) (2.2 / 1e6) "WASP-19 b" t2
       = inr c2
    /\ nth_error (tc_snr_norm_vis c1) 1 = nth_error (tc_snr_norm_vis c2) 0.
Proof.
  intros t1 t2.
  assert (R1 : is_reference "WASP-19 b" t1 0 WASP19b).
  { split; unfold t1; rewrite filter_transmission_no_K; reflexivity. }
  assert (R2 : is_reference "WASP-19 b" t2 1 WASP19b).
  { split; unfold t2; rewrite filter_transmission_no_K_swapped;
      reflexivity. }
  destruct (transmission_scores_reference (0.7 / 1e6) (2.2 / 1e6)
              (2.2 / 1e6) "WASP-19 b" t1 0 WASP19b) as (c1 & E1 & _);
    try lra; auto.
  destruct (transmission_scores_reference (0.7 / 1e6) (2.2 / 1e6)
              (2.2 / 1e6) "WASP-19 b" t2 1 WASP19b) as (c2 & E2 & _);
    try lra; auto.
  exists c1, c2; split; [exact E1|]; split; [exact E2|].
  apply (transmission_scores_local (0.7 / 1e6) (2.2 / 1e6) (2.2 / 1e6)
           "WASP-19 b" t1 t2 c1 c2 0 1 1 0 WASP19b no_K_planet);
    auto.
  - unfold t1; rewrite filter_transmission_no_K; reflexivity.
  - unfold t2; rewrite filter_transmission_no_K_swapped; reflexivity.
Defined.

(** ** Scores that are not numbers *)

(** X7.  A row whose score is [nan] is ranked before every row whose score
    is a number: the ascending sort puts [nan] last and the order is then
    reversed. *)
Theorem nan_scores_rank_first (x : arr) (j k a b : nat) :
  nth_error (rank_order x) j = Some a ->
  nth_error (rank_order x) k = Some b ->
  nth a x nan = nan -> isfinite (nth b x nan) = true ->
  (j < k)%nat.
Proof.
  intros Ha Hb Hnan Hfin.
  destruct (Nat.lt_trichotomy j k) as [Hlt | [-> | Hgt]]; [exact Hlt | |].
  - assert (a = b) by congruence; subst b.
    rewrite Hnan in Hfin; discriminate.
  - destruct (StronglySorted_nth_error _ _ (rank_order_sorted x) k j b a
                Hgt Hb Ha) as [H _].
    rewrite Hnan in H.
    destruct (nth b x nan); [discriminate H | discriminate Hfin].
Qed.

Lemma nan_scores_rank_first_witness :
  let x := [fin 3; nan; fin 5] in
  rank_order x = [1%nat; 2%nat; 0%nat] /\ (0 < 1)%nat.
Proof.
  intros x.
  assert (E : rank_order x = [1%nat; 2%nat; 0%nat]).
  { unfold rank_order, argsort, x; simpl.
    repeat (rdec; simpl). reflexivity. }
  split; [exact E|].
  apply (nan_scores_rank_first x 0 1 1 2); try (rewrite E; reflexivity);
    reflexivity.
Defined.

(** ** Wavelengths of zero, repeated reference names *)

Lemma zero_micron (w : R) : w = 0 -> w / 1e6 = 0.
Proof. intros ->; lra. Qed.

(** X8.  A wavelength of zero stops the run with [ZeroDivisionError] before
    the report is opened: the emission run whenever its wavelength or its
    reference wavelength is zero, whatever the catalogue; the transmission
    run whenever one of its three wavelengths is zero and the check on the
    reference star lets it go on. *)
Theorem zero_wavelength_raises {E : Ephem} (obj_ref outfile : string)
  (catalog : Table) :
  (forall wav wav_ref, wav = 0 \/ wav_ref = 0 ->
     emission wav wav_ref obj_ref outfile catalog
     = Crashed ZeroDivisionError None)
  /\ (forall wav_vis wav_ir wav_ref,
        wav_vis = 0 \/ wav_ir = 0 \/ wav_ref = 0 ->
        reference_lacks_magnitude obj_ref
          (filter_table "transmission" catalog) = inr false ->
        transmission wav_vis wav_ir wav_ref obj_ref outfile catalog
        = Crashed ZeroDivisionError None).
Proof.
  split.
  - intros wav wav_ref Hz; unfold emission.
    rewrite emission_scores_zero; [reflexivity|].
    destruct Hz as [Hz|Hz]; [left | right]; now apply zero_micron.
  - intros wav_vis wav_ir wav_ref Hz Hg; unfold transmission.
    rewrite Hg, transmission_scores_zero; [reflexivity|].
    destruct Hz as [Hz|[Hz|Hz]]; [left | right; left | right; right];
      now apply zero_micron.
Qed.

Lemma zero_wavelength_raises_witness :
  let catalog := mkTable true [WASP19b; HD189733b] in
  emission (E := sample_ephem) 0 2.2 "WASP-19 b" "signals_eclipses.txt"
           catalog
  = Crashed ZeroDivisionError None
  /\ transmission (E := sample_ephem) 0.7 0 2.2 "WASP-19 b"
                  "signals_transits.txt" catalog
     = Crashed ZeroDivisionError None.
Proof.
  intros catalog.
  destruct (zero_wavelength_raises (E := sample_ephem) "WASP-19 b"
              "signals_eclipses.txt" catalog) as [He _].
  destruct (zero_wavelength_raises (E := sample_ephem) "WASP-19 b"
              "signals_transits.txt" catalog) as [_ Ht].
  split.
  - apply He; now left.
  - apply Ht; [right; now left|].
    rewrite (reference_has_magnitudes _ _ WASP19b); [reflexivity|].
    unfold catalog; rewrite filter_transmission_sample; reflexivity.
Defined.

Lemma bdiv_shape_error (xs ys : arr) :
  (2 <= List.length ys)%nat -> (List.length ys < List.length xs)%nat ->
  bdiv xs ys = raise ValueError.
Proof.
  intros Hy Hx; unfold bdiv.
  destruct (Nat.eqb_spec (List.length xs) (List.length ys)); [lia|].
  destruct xs as [|x [|x' xs]], ys as [|y [|y' ys]]; simpl in *;
    try lia; reflexivity.
Qed.

(** X9.  A reference name that two or more filtered rows carry stops the
    run with [ValueError] before the report is opened: the transmission run
    always (at its check on the reference star); the emission run, for
    nonzero wavelengths, when some other filtered row does not carry the
    name (at the normalisation). *)
Theorem repeated_reference_name {E : Ephem} (obj_ref outfile : string)
  (catalog : Table) :
  (forall wav_vis wav_ir wav_ref,
     (2 <= List.length
             (filter (name_is obj_ref)
                     (rows (filter_table "transmission" catalog))))%nat ->
     transmission wav_vis wav_ir wav_ref obj_ref outfile catalog
     = Crashed ValueError None)
  /\ (forall wav wav_ref,
        wav <> 0 -> wav_ref <> 0 ->
        let t := filter_table "emission" catalog in
        (2 <= List.length (filter (name_is obj_ref) (rows t)))%nat ->
        (List.length (filter (name_is obj_ref) (rows t))
         < List.length (rows t))%nat ->
        emission wav wav_ref obj_ref outfile catalog
        = Crashed ValueError None).
Proof.
  split.
  - intros wav_vis wav_ir wav_ref Hn; unfold transmission.
    assert (G : reference_lacks_magnitude obj_ref
                  (filter_table "transmission" catalog) = raise ValueError).
    { unfold reference_lacks_magnitude; fuse_cols.
      change (fun x : Row => String.eqb (t_NAME x) obj_ref)
        with (name_is obj_ref).
      destruct (filter (name_is obj_ref)
                       (rows (filter_table "transmission" catalog)))
        as [|r1 [|r2 rs]]; simpl in Hn; try lia; reflexivity. }
    now rewrite G.
  - intros wav wav_ref Hw Hr t H2 Hlt; unfold emission; fold t.
    rewrite emission_scores_rows by now apply micron_nonzero.
    rewrite bdiv_shape_error by now rewrite !length_map.
    reflexivity.
Qed.

Lemma repeated_reference_name_witness :
  transmission (E := sample_ephem) 0.7 2.2 2.2 "WASP-19 b"
               "signals_transits.txt"
               (mkTable true [WASP19b; HD189733b; WASP19b])
  = Crashed ValueError None
  /\ emission (E := sample_ephem) 2.2 2.2 "WASP-19 b"
              "signals_eclipses.txt"
              (mkTable true [WASP19b; HD189733b; WASP19b])
     = Crashed ValueError None.
Proof.
  destruct (repeated_reference_name (E := sample_ephem) "WASP-19 b"
              "signals_transits.txt"
              (mkTable true [WASP19b; HD189733b; WASP19b])) as [Ht _].
  destruct (repeated_reference_name (E := sample_ephem) "WASP-19 b"
              "signals_eclipses.txt"
              (mkTable true [WASP19b; HD189733b; WASP19b])) as [_ He].
  split.
  - apply Ht.
    rewrite filter_table_transmission.
    unfold required_transmission, positive_mass, base_fields; simpl.
    rdec; simpl; lia.
  - apply He; try lra; simpl; lia.
Defined.

(** ** The zero point of the magnitudes *)

Lemma zero_point_pos (c : R) : 0 < zero_point c.
Proof. apply sqrt_lt_R0; unfold Rpower; apply exp_pos. Qed.

Lemma filter_map_comm {A B : Type} (p : B -> bool) (f : A -> B)
  (l : list A) :
  filter p (map f l) = map f (filter (fun x => p (f x)) l).
Proof.
  induction l as [|x l IH]; simpl; [reflexivity|].
  destruct (p (f x)); simpl; now rewrite IH.
Qed.

Lemma isfinite_shift (a : val) (c : R) : isfinite (a + fin c)%val = isfinite a.
Proof. now destruct a. Qed.

Lemma filter_table_emission_shift (c : R) (catalog : Table) :
  rows (filter_table "emission" (shift_mags c catalog))
  = map (shift_row c) (rows (filter_table "emission" catalog)).
Proof.
  rewrite !filter_table_emission; unfold shift_mags; cbn [rows].
  rewrite filter_map_comm; f_equal; apply filter_ext; intros r.
  unfold required_emission, base_fields, shift_row; cbn.
  now rewrite isfinite_shift.
Qed.

Lemma filter_table_transmission_shift (c : R) (catalog : Table) :
  rows (filter_table "transmission" (shift_mags c catalog))
  = map (shift_row c) (rows (filter_table "transmission" catalog)).
Proof.
  rewrite !filter_table_transmission; unfold shift_mags; cbn [rows has_MASS].
  rewrite filter_map_comm; f_equal; apply filter_ext; intros r.
  unfold required_transmission, base_fields, positive_mass, shift_row; cbn.
  now rewrite !isfinite_shift.
Qed.

Lemma filter_name_shift (c : R) (obj_ref : string) (l : list Row) :
  filter (name_is obj_ref) (map (shift_row c) l)
  = map (shift_row c) (filter (name_is obj_ref) l).
Proof. rewrite filter_map_comm; reflexivity. Qed.

Lemma sqrt_flux_shift (c : R) (mag : val) (wav wav0 : R) (T : val) :
  sqrt_flux (mag + fin c)%val wav wav0 T
  = (sqrt_flux mag wav wav0 T * fin (zero_point c))%val.
Proof.
  unfold sqrt_flux.
  destruct (vlog10 (planck1 wav T / planck1 wav0 T)%val) as [x|];
    destruct mag as [m|]; try reflexivity.
  cbn [vadd vmul vsub vneg fin option_map].
  change (Some (- (m + c - 2.5 * x))) with (fin (- (m + c - 2.5 * x))).
  change (Some (- (m - 2.5 * x))) with (fin (- (m - 2.5 * x))).
  change (Some 2.5) with (fin 2.5).
  rewrite !vdiv_fin by lra.
  cbn [vpow10 fin option_map].
  change (Some ?x) with (fin x).
  replace (- (m + c - 2.5 * x) / 2.5)
    with (- (m - 2.5 * x) / 2.5 + - c / 2.5) by lra.
  rewrite Rpower_plus.
  assert (H1 : 0 < Rpower 10 (- (m - 2.5 * x) / 2.5))
    by (unfold Rpower; apply exp_pos).
  assert (H2 : 0 < Rpower 10 (- c / 2.5)) by (unfold Rpower; apply exp_pos).
  rewrite !vsqrt_fin by (try apply Rmult_le_pos; lra).
  unfold zero_point; cbn [vmul fin].
  now rewrite sqrt_mult by lra.
Qed.

Lemma vmul_scale_l (a b : val) (k : R) :
  (a * fin k * b)%val = (a * b * fin k)%val.
Proof. destruct a, b; cbn; try reflexivity. f_equal; ring. Qed.

Lemma vdiv_scale (a b : val) (k : R) :
  k <> 0 -> (a * fin k / (b * fin k))%val = (a / b)%val.
Proof.
  intros Hk; destruct a as [x|], b as [y|]; try reflexivity.
  cbn [vmul fin vdiv].
  destruct (Req_dec_T y 0) as [->|Hy].
  - destruct (Req_dec_T (0 * k) 0) as [_|N]; [reflexivity|].
    exfalso; apply N; ring.
  - destruct (Req_dec_T (y * k) 0) as [E|_].
    + apply Rmult_integral in E; destruct E; contradiction.
    + f_equal; field; split; assumption.
Qed.

Lemma map2_vdiv_scale (k : R) (xs ys : arr) :
  k <> 0 ->
  map2 vdiv (map (fun x => x * fin k)%val xs)
            (map (fun y => y * fin k)%val ys)
  = map2 vdiv xs ys.
Proof.
  intros Hk; revert ys; induction xs as [|x xs IH]; intros [|y ys];
    simpl; try reflexivity.
  now rewrite vdiv_scale, IH.
Qed.

Lemma bdiv_scale (k : R) (xs ys : arr) :
  k <> 0 ->
  bdiv (map (fun x => x * fin k)%val xs) (map (fun y => y * fin k)%val ys)
  = bdiv xs ys.
Proof.
  intros Hk; unfold bdiv; rewrite !length_map.
  destruct (Nat.eqb (List.length xs) (List.length ys)).
  - now rewrite map2_vdiv_scale.
  - assert (Hl : forall (y : val) (l : arr),
               map (fun x => (x / (y * fin k))%val)
                   (map (fun x => (x * fin k)%val) l)
               = map (fun x => (x / y)%val) l).
    { intros y l; rewrite map_map; apply map_ext; intros z.
      now apply vdiv_scale. }
    assert (Hr : forall (x : val) (l : arr),
               map (fun y => (x * fin k / y)%val)
                   (map (fun y => (y * fin k)%val) l)
               = map (fun y => (x / y)%val) l).
    { intros x l; rewrite map_map; apply map_ext; intros z.
      now apply vdiv_scale. }
    destruct xs as [|x [|x' xs]], ys as [|y [|y' ys]]; try reflexivity.
    + change (map (fun y0 => (y0 * fin k)%val) [y]) with [(y * fin k)%val].
      change (map (fun x0 => (x0 * fin k)%val) [x])
        with (map (fun x0 => (x0 * fin k)%val) [x]).
      cbv iota beta. now rewrite Hl.
    + change (map (fun x0 => (x0 * fin k)%val) [x]) with [(x * fin k)%val].
      cbv iota beta. now rewrite Hr.
    + change (map (fun y0 => (y0 * fin k)%val) [y]) with [(y * fin k)%val].
      cbv iota beta. now rewrite Hl.
Qed.

Lemma snr_ec_shift (c wav : R) (r : Row) :
  snr_ec wav (shift_row c r) = (snr_ec wav r * fin (zero_point c))%val.
Proof.
  unfold snr_ec.
  change (t_KS (shift_row c r)) with (t_KS r + fin c)%val.
  change (t_TEFF (shift_row c r)) with (t_TEFF r).
  change (fratio1 wav (shift_row c r)) with (fratio1 wav r).
  now rewrite sqrt_flux_shift, vmul_scale_l.
Qed.

(** X10.  The normalised emission scores, and with them the rank order, do
    not depend on the zero point of the K magnitudes: adding one constant to
    every magnitude of the catalogue leaves the equilibrium temperatures,
    the flux ratios, the normalised scores and the ranking as they were, and
    a run that stops with an error stops with the same error. *)
Theorem emission_zero_point (c wav wav_ref : R) (obj_ref : string)
  (catalog : Table) :
  (x <- emission_scores wav wav_ref obj_ref
          (filter_table "emission" (shift_mags c catalog)) ;;
   ret (ec_Temp_eq x, ec_fratio x, ec_snr_norm x, ec_s x))
  = (x <- emission_scores wav wav_ref obj_ref
            (filter_table "emission" catalog) ;;
     ret (ec_Temp_eq x, ec_fratio x, ec_snr_norm x, ec_s x)).
Proof.
  destruct (Req_dec_T wav 0) as [Hw|Hw];
    [rewrite !emission_scores_zero by (left; exact Hw); reflexivity|].
  destruct (Req_dec_T wav_ref 0) as [Hr|Hr];
    [rewrite !emission_scores_zero by (right; exact Hr); reflexivity|].
  pose proof (zero_point_pos c) as Hk.
  rewrite !emission_scores_rows by assumption.
  rewrite filter_table_emission_shift, filter_name_shift, !map_map.
  rewrite (map_ext (fun r => snr_ec wav (shift_row c r))
             (fun r => (snr_ec wav r * fin (zero_point c))%val))
    by (intros; apply snr_ec_shift).
  rewrite (map_ext (fun r => snr_ec wav_ref (shift_row c r))
             (fun r => (snr_ec wav_ref r * fin (zero_point c))%val))
    by (intros; apply snr_ec_shift).
  rewrite <- (map_map (snr_ec wav) (fun x => (x * fin (zero_point c))%val)).
  rewrite <- (map_map (snr_ec wav_ref)
                (fun x => (x * fin (zero_point c))%val)).
  rewrite bdiv_scale by lra.
  destruct (bdiv _ _) as [e|sn]; reflexivity.
Qed.

Lemma reference_lacks_magnitude_rows (obj_ref : string) (t : Table) :
  reference_lacks_magnitude obj_ref t
  = (no_ks <- truth (map (fun r => negb (isfinite (t_KS r)))
                         (filter (name_is obj_ref) (rows t))) ;;
     if no_ks then ret true
     else truth (map (fun r => negb (isfinite (t_V r)))
                     (filter (name_is obj_ref) (rows t)))).
Proof.
  unfold reference_lacks_magnitude; fuse_cols; reflexivity.
Qed.

Lemma transmission_row_shift (c : R) (t t' : Table) (r : Row) :
  has_MASS t' = has_MASS t ->
  (forall w, snr_vis1 w t' (shift_row c r)
             = (snr_vis1 w t r * fin (zero_point c))%val)
  /\ (forall w, snr_ir1 w t' (shift_row c r)
                = (snr_ir1 w t r * fin (zero_point c))%val)
  /\ (forall w, snr_ref_vis1 w t' (shift_row c r)
                = (snr_ref_vis1 w t r * fin (zero_point c))%val)
  /\ (forall w, snr_ref_ir1 w t' (shift_row c r)
                = (snr_ref_ir1 w t r * fin (zero_point c))%val)
  /\ Hatm1 t' (shift_row c r) = Hatm1 t r
  /\ delta_tr1 t' (shift_row c r) = delta_tr1 t r.
Proof.
  intros HM.
  assert (Hh : Hatm1 t' (shift_row c r) = Hatm1 t r).
  { unfold Hatm1, little_g1, mass1; rewrite HM; reflexivity. }
  assert (Hd : delta_tr1 t' (shift_row c r) = delta_tr1 t r).
  { unfold delta_tr1; rewrite Hh; reflexivity. }
  repeat split; try assumption; intros w;
    unfold snr_vis1, snr_ir1, snr_ref_vis1, snr_ref_ir1; rewrite Hd;
    change (t_KS (shift_row c r)) with (t_KS r + fin c)%val;
    change (t_V (shift_row c r)) with (t_V r + fin c)%val;
    change (t_TEFF (shift_row c r)) with (t_TEFF r);
    rewrite ?isfinite_shift, !sqrt_flux_shift, ?vmul_scale_l;
    try reflexivity;
    destruct (negb (isfinite (t_KS r))); reflexivity.
Qed.

(** X11.  The transmission run does not depend on the zero point of the
    magnitudes either: adding one constant to every K and V magnitude of the
    catalogue leaves the outcome of the check on the reference star, the
    scale heights, the transmission signals, both normalised scores and the
    ranking as they were. *)
Theorem transmission_zero_point (c wav_vis wav_ir wav_ref : R)
  (obj_ref : string) (catalog : Table) :
  reference_lacks_magnitude obj_ref
    (filter_table "transmission" (shift_mags c catalog))
  = reference_lacks_magnitude obj_ref (filter_table "transmission" catalog)
  /\ (x <- transmission_scores wav_vis wav_ir wav_ref obj_ref
             (filter_table "transmission" (shift_mags c catalog)) ;;
      ret (tc_Hatm x, tc_delta_tr x, tc_snr_norm_vis x, tc_snr_norm_ir x,
           tc_s x))
     = (x <- transmission_scores wav_vis wav_ir wav_ref obj_ref
               (filter_table "transmission" catalog) ;;
        ret (tc_Hatm x, tc_delta_tr x, tc_snr_norm_vis x, tc_snr_norm_ir x,
             tc_s x)).
Proof.
  pose proof (zero_point_pos c) as Hk.
  set (t := filter_table "transmission" catalog).
  set (t' := filter_table "transmission" (shift_mags c catalog)).
  assert (HM : has_MASS t' = has_MASS t).
  { unfold t, t'; now rewrite !filter_table_has_MASS. }
  assert (HR : rows t' = map (shift_row c) (rows t))
    by apply filter_table_transmission_shift.
  split.
  - rewrite !reference_lacks_magnitude_rows, HR, filter_name_shift, !map_map.
    cbn [shift_row t_KS t_V].
    rewrite (map_ext (fun r => negb (isfinite (t_KS r + fin c)%val))
               (fun r => negb (isfinite (t_KS r))))
      by (intros; now rewrite isfinite_shift).
    rewrite (map_ext (fun r => negb (isfinite (t_V r + fin c)%val))
               (fun r => negb (isfinite (t_V r))))
      by (intros; now rewrite isfinite_shift).
    reflexivity.
  - destruct (Req_dec_T wav_vis 0) as [Hv|Hv];
      [rewrite !transmission_scores_zero by (left; exact Hv); reflexivity|].
    destruct (Req_dec_T wav_ir 0) as [Hi|Hi];
      [rewrite !transmission_scores_zero by (right; left; exact Hi);
       reflexivity|].
    destruct (Req_dec_T wav_ref 0) as [Hr|Hr];
      [rewrite !transmission_scores_zero by (right; right; exact Hr);
       reflexivity|].
    rewrite !transmission_scores_rows by assumption.
    rewrite HR, filter_name_shift, !map_map.
    rewrite (map_ext (fun r => snr_vis1 wav_vis t' (shift_row c r))
               (fun r => (snr_vis1 wav_vis t r * fin (zero_point c))%val))
      by (intros r; apply (transmission_row_shift c t t' r HM)).
    rewrite (map_ext (fun r => snr_ir1 wav_ir t' (shift_row c r))
               (fun r => (snr_ir1 wav_ir t r * fin (zero_point c))%val))
      by (intros r; apply (transmission_row_shift c t t' r HM)).
    rewrite (map_ext (fun r => snr_ref_vis1 wav_ref t' (shift_row c r))
               (fun r => (snr_ref_vis1 wav_ref t r * fin (zero_point c))%val))
      by (intros r; apply (transmission_row_shift c t t' r HM)).
    rewrite (map_ext (fun r => snr_ref_ir1 wav_ref t' (shift_row c r))
               (fun r => (snr_ref_ir1 wav_ref t r * fin (zero_point c))%val))
      by (intros r; apply (transmission_row_shift c t t' r HM)).
    rewrite (map_ext (fun r => Hatm1 t' (shift_row c r)) (Hatm1 t))
      by (intros r; apply (transmission_row_shift c t t' r HM)).
    rewrite (map_ext (fun r => delta_tr1 t' (shift_row c r)) (delta_tr1 t))
      by (intros r; apply (transmission_row_shift c t t' r HM)).
    rewrite <- (map_map (snr_vis1 wav_vis t)
                  (fun x => (x * fin (zero_point c))%val)).
    rewrite <- (map_map (snr_ir1 wav_ir t)
                  (fun x => (x * fin (zero_point c))%val)).
    rewrite <- (map_map (snr_ref_vis1 wav_ref t)
                  (fun x => (x * fin (zero_point c))%val)).
    rewrite <- (map_map (snr_ref_ir1 wav_ref t)
                  (fun x => (x * fin (zero_point c))%val)).
    rewrite !bdiv_scale by lra.
    destruct (bdiv _ _) as [e|nv]; [reflexivity|].
    cbn [bind].
    destruct (bdiv _ _) as [e|ni]; reflexivity.
Qed.
